(** * Task-management workers and the naming lint script

    A shallow embedding of the parts of the repository that carry behaviour:
    - [use_cases/task_management/reminder_worker.py]  (module [Reminder]),
    - [use_cases/task_management/analytics_worker.py] (module [Analytics]),
    - [scripts/validate_naming.py]                     (module [Naming]),
    together with the DTOs of [shared_dtos.py] they use.

    Modelling conventions.
    - A [datetime] is its wall-clock reading in microseconds plus an optional
      UTC offset; a [timedelta] is a number of microseconds in [Z].
      [int(td.total_seconds() / 60)] is truncation towards zero ([Z.quot]);
      the float rounding of [total_seconds] is not modelled.
    - Worker code runs in a state-and-exception monad over a [World] that
      holds the Redis keyspace and the sequence of externally visible
      actions.  Everything the outside world decides (clock readings, whether
      the broker accepts a message, HTTP replies) comes from an [Env] of
      oracles indexed by the number of interactions made so far.
    - Redis itself is reliable; [logger] calls and the notification
      semaphore have no counterpart. *)

From Stdlib Require Import ZArith QArith String Ascii List Lia Permutation.
From stdpp Require Import gmap strings list fin_maps pretty.

#[local] Set Warnings "-clear-no-such-hyp".

Local Open Scope string_scope.
Local Open Scope list_scope.
Local Open Scope Z_scope.

(** ** datetime / timedelta *)

Module Datetime.

Record datetime := {
  wall : Z;             (* naive calendar reading, microseconds *)
  tzinfo : option Z     (* utcoffset in microseconds when aware *)
}.

#[global] Instance datetime_eq_dec : EqDecision datetime.
Proof. solve_decision. Defined.

Definition us_per_second : Z := 1000000.
Definition seconds (n : Z) : Z := n * us_per_second.
Definition minutes (n : Z) : Z := n * 60 * us_per_second.
Definition hours (n : Z) : Z := n * 3600 * us_per_second.

Definition naive (w : Z) : datetime := {| wall := w; tzinfo := None |}.

(* d.replace(tzinfo=tz) *)
Definition replace_tzinfo (d : datetime) (tz : option Z) : datetime :=
  {| wall := wall d; tzinfo := tz |}.

(* a - b; None stands for the TypeError raised when exactly one is aware *)
Definition sub (a b : datetime) : option Z :=
  match tzinfo a, tzinfo b with
  | None, None => Some (wall a - wall b)
  | Some oa, Some ob => Some ((wall a - oa) - (wall b - ob))
  | _, _ => None
  end.

(* a <= b; None stands for the same TypeError *)
Definition le (a b : datetime) : option bool :=
  match sub a b with
  | Some d => Some (d <=? 0)
  | None => None
  end.

(* int(td.total_seconds() / 60) *)
Definition whole_minutes (td : Z) : Z := Z.quot td (minutes 1).

(* d.hour *)
Definition hour (d : datetime) : Z := (wall d / hours 1) mod 24.

(* td.total_seconds() / 3600, exactly *)
Definition in_hours (td : Z) : Q := inject_Z td / inject_Z (hours 1).

End Datetime.
Export Datetime.

(** ** shared_dtos.py *)

Inductive TaskStatus := TODO | IN_PROGRESS | COMPLETED | CANCELLED.
Inductive TaskPriority := LOW | MEDIUM | HIGH | URGENT.

#[global] Instance TaskStatus_eq_dec : EqDecision TaskStatus.
Proof. solve_decision. Defined.
#[global] Instance TaskPriority_eq_dec : EqDecision TaskPriority.
Proof. solve_decision. Defined.

Record TaskResponse := {
  title : string;
  description : option string;
  status : TaskStatus;
  priority : TaskPriority;
  due_date : option datetime;
  id : Z;
  user_id : Z;
  created_at : datetime;
  updated_at : datetime;
  completed_at : option datetime
}.

#[global] Instance TaskResponse_eq_dec : EqDecision TaskResponse.
Proof. solve_decision. Defined.

Record TaskDueSoonEvent := {
  due_soon_task_id : Z;
  due_soon_user_id : Z;
  due_soon_timestamp : datetime;        (* default_factory = datetime.utcnow *)
  due_soon_task_data : TaskResponse;
  due_in_minutes : Z
}.

Record TaskOverdueEvent := {
  overdue_task_id : Z;
  overdue_user_id : Z;
  overdue_timestamp : datetime;         (* default_factory = datetime.utcnow *)
  overdue_task_data : TaskResponse;
  overdue_minutes : Z
}.

Record ProcessRemindersCommand := {
  check_time : datetime;
  look_ahead_minutes : Z
}.

Record ProductivityStats := {
  stats_user_id : Z;
  period_start : datetime;
  period_end : datetime;
  total_tasks : Z;
  completed_tasks : Z;
  cancelled_tasks : Z;
  overdue_tasks : Z;
  completion_rate : Q;
  average_completion_time_hours : option Q;
  most_productive_hour : option Z;
  tasks_by_priority : list (string * Z);
  tasks_by_status : list (string * Z)
}.

(** ** Outcomes of Python code: a value or a raised exception *)

Inductive exn :=
| TypeError | ValueError | KeyError | AttributeError | JSONDecodeError
| TransportError.

Inductive outcome (A : Type) :=
| Ok (a : A)
| Raised (e : exn).
Arguments Ok {A} a.
Arguments Raised {A} e.

(** ** State and exceptions

    [M S A] is a computation over a state [S] that returns an [A] or raises;
    the state reached before a raise is kept, as in Python. *)

Module Exec.

Definition M (S A : Type) : Type := S → outcome A * S.

#[global] Instance M_ret {S} : MRet (M S) := λ A a w, (Ok a, w).
#[global] Instance M_bind {S} : MBind (M S) := λ A B k m w,
  match m w with
  | (Ok a, w') => k a w'
  | (Raised e, w') => (Raised e, w')
  end.

Definition raise {S A} (e : exn) : M S A := λ w, (Raised e, w).

(* try: m  except Exception: h *)
Definition try_except {S A} (m h : M S A) : M S A := λ w,
  match m w with
  | (Ok a, w') => (Ok a, w')
  | (Raised _, w') => h w'
  end.

Definition pass {S} : M S unit := mret tt.

Definition or_raise {S A} (o : option A) (e : exn) : M S A :=
  match o with
  | Some a => mret a
  | None => raise e
  end.

Fixpoint for_each {S A} (body : A → M S unit) (l : list A) : M S unit :=
  match l with
  | [] => pass
  | x :: rest => body x;; for_each body rest
  end.

Definition run {S A} (m : M S A) (w : S) : S := snd (m w).

End Exec.
Export Exec.

(** ** reminder_worker.py *)

Module Reminder.

(** *** Settings *)

Definition CHECK_INTERVAL_SECONDS : Z := 300.
Definition DUE_SOON_MINUTES : Z := 60.
Definition OVERDUE_CHECK_MINUTES : Z := 1440.
Definition REMINDER_RETRY_ATTEMPTS : Z := 3.
Definition REMINDER_RETRY_DELAY : Z := 60.

(** *** What Redis holds

    The client is created with [decode_responses=True], so every value is
    a string.  A value is represented by the way the worker can decode it:
    an ISO timestamp ([datetime.fromisoformat] succeeds), a JSON object
    ([orjson.loads] yields a dict), or any other text, for which both
    decoders raise. *)

Inductive jvalue :=
| JNull
| JInt (n : Z)
| JStr (s : string)        (* a string that is not an ISO timestamp *)
| JTime (d : datetime).    (* a string in ISO format *)

#[global] Instance jvalue_eq_dec : EqDecision jvalue.
Proof. solve_decision. Defined.

Inductive rvalue :=
| RText (s : string)
| RTime (d : datetime)
| RJson (o : gmap string jvalue).

#[global] Instance rvalue_eq_dec : EqDecision rvalue.
Proof. solve_decision. Defined.

(* an entry disappears once the clock reaches [expires_at] *)
Record entry := { value : rvalue; expires_at : option Z }.

Definition live (now : Z) (e : entry) : bool :=
  match expires_at e with
  | Some t => now <? t
  | None => true
  end.

(* truth value of what [redis.get] returned *)
Definition truthy (v : option rvalue) : bool :=
  match v with
  | None => false
  | Some (RText s) => negb (String.eqb s "")
  | Some (RTime _) => true
  | Some (RJson _) => true
  end.

(** *** Messages and events leaving the worker *)

Inductive event_body :=
| DueSoonBody (e : TaskDueSoonEvent)
| OverdueBody (e : TaskOverdueEvent).

Inductive reminder_text :=
| CustomText (j : jvalue)
| DescriptionText (s : string)
| NoDescription.

(* the three message templates with the values interpolated into them *)
Inductive message :=
| DueSoonMessage (task : TaskResponse) (time_str : string)
| OverdueMessage (task : TaskResponse) (time_str : string)
| ReminderMessage (task : TaskResponse) (text : reminder_text).

Inductive notification :=
| DueSoonNotification (task : TaskResponse) (minutes_until_due : Z)
| OverdueNotification (task : TaskResponse) (overdue_minutes : Z)
| ScheduledReminder (reminder_data : gmap string jvalue).

Inductive effect :=
(* task_events_exchange.publish was called; [accepted] tells whether it
   returned or raised *)
| Publish (routing_key : string) (body : event_body) (accepted : bool)
(* control entered one of the notification routines *)
| Notify (what : notification)
(* POST {BOT_API_URL}/send-notification was issued at time [sent_at] *)
| Telegram (telegram_id : jvalue) (msg : message) (sent_at : Z)
| Setex (key : string) (seconds : Z) (v : rvalue)
| Delete (key : string)
(* asyncio.sleep; none of the routines below takes one *)
| Sleep (seconds : Z).

Record World := {
  redis : gmap string entry;
  steps : nat;              (* interactions with the outside so far *)
  trace : list effect       (* oldest first *)
}.

Record Env := {
  clock : nat → Z;                       (* time at the n-th interaction *)
  exchange_accepts : nat → bool;         (* does a publish succeed there *)
  (* GET {TASK_API_URL}/api/v1/tasks/{task_id} with X-User-ID: None is a
     transport error, otherwise the status code and the body when it
     validates as a TaskResponse *)
  task_api : nat → jvalue → jvalue → option (Z * option TaskResponse);
  (* status of POST /send-notification, None for a transport error *)
  bot_api : nat → option Z
}.

(** *** The monad of the worker *)

Abbreviation M := (Exec.M World).

Definition tick : M nat := λ w,
  (Ok (steps w), {| redis := redis w; steps := S (steps w); trace := trace w |}).

Definition emit (e : effect) : M unit := λ w,
  (Ok tt, {| redis := redis w; steps := steps w; trace := trace w ++ [e] |}).

Definition get_redis : M (gmap string entry) := λ w, (Ok (redis w), w).

Definition put_redis (r : gmap string entry) : M unit := λ w,
  (Ok tt, {| redis := r; steps := steps w; trace := trace w |}).

Section Worker.

Variable env : Env.

Definition utcnow : M datetime :=
  n ← tick; mret (naive (clock env n)).

(** *** Redis commands *)

Definition visible (now : Z) (r : gmap string entry) (key : string)
  : option rvalue :=
  match r !! key with
  | Some e => if live now e then Some (value e) else None
  | None => None
  end.

Definition redis_get (key : string) : M (option rvalue) :=
  n ← tick; r ← get_redis; mret (visible (clock env n) r key).

Definition redis_setex (key : string) (secs : Z) (v : rvalue) : M unit :=
  n ← tick; r ← get_redis;
  put_redis (<[key := {| value := v;
                         expires_at := Some (clock env n + seconds secs) |}]> r);;
  emit (Setex key secs v).

Definition redis_delete (key : string) : M unit :=
  _ ← tick; r ← get_redis;
  put_redis (delete key r);;
  emit (Delete key).

(* scan_iter(match=prefix + "*") *)
Definition scan_iter (prefix : string) : M (list string) :=
  n ← tick; r ← get_redis;
  mret (filter (λ key, String.prefix prefix key = true
                       ∧ is_Some (visible (clock env n) r key))
               (map fst (map_to_list r))).

(* orjson.loads *)
Definition loads (v : rvalue) : M (gmap string jvalue) :=
  match v with
  | RJson o => mret o
  | _ => raise JSONDecodeError
  end.

(* datetime.fromisoformat applied to a Redis value *)
Definition fromisoformat (v : rvalue) : M datetime :=
  match v with
  | RTime d => mret d
  | _ => raise ValueError
  end.

(* d[key] *)
Definition getitem (d : gmap string jvalue) (key : string) : M jvalue :=
  match d !! key with
  | Some j => mret j
  | None => raise KeyError
  end.

(* d.get(key) *)
Definition dict_get (d : gmap string jvalue) (key : string) : jvalue :=
  default JNull (d !! key).

Definition truthy_j (j : jvalue) : bool :=
  match j with
  | JNull => false
  | JInt n => negb (n =? 0)
  | JStr s => negb (String.eqb s "")
  | JTime _ => true
  end.

(** *** _publish_task_event *)

Definition _publish_task_event (event_type : string) (event_data : event_body)
  : M unit :=
  try_except
    (n ← tick;
     if exchange_accepts env n
     then emit (Publish event_type event_data true)
     else (emit (Publish event_type event_data false);; raise TransportError))
    pass.

(** *** _send_telegram_notification *)

Definition _send_telegram_notification (telegram_id : jvalue) (msg : message)
  : M unit :=
  try_except
    (n ← tick;
     emit (Telegram telegram_id msg (clock env n));;
     match bot_api env n with
     | Some _ => pass
     | None => raise TransportError
     end)
    pass.

(** *** _get_user_telegram_session *)

Fixpoint session_among (user_id : jvalue) (keys : list string)
  : M (option (gmap string jvalue)) :=
  match keys with
  | [] => mret None
  | key :: rest =>
      session_data ← redis_get key;
      match session_data with
      | Some v =>
          if truthy session_data then
            session ← loads v;
            if decide (dict_get session "user_id" = user_id)
            then mret (Some session)
            else session_among user_id rest
          else session_among user_id rest
      | None => session_among user_id rest
      end
  end.

Definition _get_user_telegram_session (user_id : jvalue)
  : M (option (gmap string jvalue)) :=
  try_except
    (keys ← scan_iter "bot_session:"; session_among user_id keys)
    (mret None).

(* `not user_session`: None and the empty dict are both false *)
Definition no_session (s : option (gmap string jvalue)) : bool :=
  match s with
  | None => true
  | Some o => bool_decide (o = ∅)
  end.

(** *** _send_due_soon_notification *)

Definition due_soon_time_str (minutes_until_due : Z) : string :=
  if minutes_until_due <? 60 then pretty minutes_until_due +:+ " minutes"
  else
    let hours := minutes_until_due / 60 in
    let remaining_minutes := minutes_until_due mod 60 in
    if remaining_minutes =? 0 then pretty hours +:+ "h"
    else pretty hours +:+ "h " +:+ pretty remaining_minutes +:+ "m".

Definition _send_due_soon_notification (task : TaskResponse)
    (minutes_until_due : Z) : M unit :=
  emit (Notify (DueSoonNotification task minutes_until_due));;
  try_except
    (user_session ← _get_user_telegram_session (JInt (user_id task));
     match user_session with
     | Some session =>
         if no_session user_session then pass
         else
           telegram_id ← getitem session "telegram_id";
           _send_telegram_notification telegram_id
             (DueSoonMessage task (due_soon_time_str minutes_until_due))
     | None => pass
     end)
    pass.

(** *** _send_overdue_notification *)

Definition overdue_time_str (overdue_minutes : Z) : string :=
  if overdue_minutes <? 60 then pretty overdue_minutes +:+ " minutes"
  else if overdue_minutes <? 1440 then pretty (overdue_minutes / 60) +:+ " hours"
  else pretty (overdue_minutes / 1440) +:+ " days".

Definition _send_overdue_notification (task : TaskResponse)
    (overdue_minutes : Z) : M unit :=
  emit (Notify (OverdueNotification task overdue_minutes));;
  try_except
    (user_session ← _get_user_telegram_session (JInt (user_id task));
     match user_session with
     | Some session =>
         if no_session user_session then pass
         else
           telegram_id ← getitem session "telegram_id";
           _send_telegram_notification telegram_id
             (OverdueMessage task (overdue_time_str overdue_minutes))
     | None => pass
     end)
    pass.

(** *** _process_due_soon_task *)

(* the "Handle timezone-aware datetime" block *)
Definition align_now (due_date now : datetime) : datetime :=
  match tzinfo due_date with
  | Some tz =>
      match tzinfo now with
      | None => replace_tzinfo now (Some tz)
      | Some _ => now
      end
  | None =>
      match tzinfo now with
      | Some _ => replace_tzinfo now None
      | None => now
      end
  end.

Definition due_soon_key (task : TaskResponse) : string :=
  "due_soon_sent:" +:+ pretty (id task).

Definition _process_due_soon_task (task : TaskResponse) : M unit :=
  try_except
    (let notification_key := due_soon_key task in
     already_sent ← redis_get notification_key;
     if truthy already_sent then pass
     else
       now ← utcnow;
       due_date ← or_raise (due_date task) AttributeError;
       let now := align_now due_date now in
       delta ← or_raise (sub due_date now) TypeError;
       let minutes_until_due := whole_minutes delta in
       if (minutes_until_due <=? DUE_SOON_MINUTES) && (0 <? minutes_until_due)
       then
         timestamp ← utcnow;
         let event := {| due_soon_task_id := id task;
                         due_soon_user_id := user_id task;
                         due_soon_timestamp := timestamp;
                         due_soon_task_data := task;
                         due_in_minutes := minutes_until_due |} in
         _publish_task_event "task.due_soon" (DueSoonBody event);;
         _send_due_soon_notification task minutes_until_due;;
         let expire_seconds := Z.max (minutes_until_due * 60 + 86400) 3600 in
         redis_setex notification_key expire_seconds (RText "sent")
       else pass)
    pass.

(** *** _process_overdue_task *)

Definition overdue_key (task : TaskResponse) : string :=
  "overdue_sent:" +:+ pretty (id task).

(* the try block from "Calculate how long overdue" on, reached when the rate
   limit did not return *)
Definition report_overdue (task : TaskResponse) (notification_key : string)
  : M unit :=
  now ← utcnow;
  due_date ← or_raise (due_date task) AttributeError;
  let now := align_now due_date now in
  delta ← or_raise (sub now due_date) TypeError;
  let overdue_minutes := whole_minutes delta in
  if 0 <? overdue_minutes then
    timestamp ← utcnow;
    let event := {| overdue_task_id := id task;
                    overdue_user_id := user_id task;
                    overdue_timestamp := timestamp;
                    overdue_task_data := task;
                    overdue_minutes := overdue_minutes |} in
    _publish_task_event "task.overdue" (OverdueBody event);;
    _send_overdue_notification task overdue_minutes;;
    stamp ← utcnow;
    redis_setex notification_key 86400 (RTime stamp)
  else pass.

Definition _process_overdue_task (task : TaskResponse) : M unit :=
  try_except
    (let notification_key := overdue_key task in
     last_sent ← redis_get notification_key;
     too_recent ←
       match last_sent with
       | Some v =>
           if truthy last_sent then
             last_sent_time ← fromisoformat v;
             now ← utcnow;
             since ← or_raise (sub now last_sent_time) TypeError;
             mret (since <? hours 6)
           else mret false
       | None => mret false
       end;
     if too_recent : bool then pass
     else report_overdue task notification_key)
    pass.

(** *** _send_scheduled_reminder *)

(* custom_message or task.description or 'No description' *)
Definition reminder_body (reminder_data : gmap string jvalue)
    (task : TaskResponse) : reminder_text :=
  let custom_message := default (JStr "") (reminder_data !! "message") in
  if truthy_j custom_message then CustomText custom_message
  else match description task with
       | Some d => if String.eqb d "" then NoDescription else DescriptionText d
       | None => NoDescription
       end.

Definition finished (s : TaskStatus) : bool :=
  bool_decide (s ∈ [COMPLETED; CANCELLED]).

Definition _send_scheduled_reminder (reminder_data : gmap string jvalue)
  : M unit :=
  emit (Notify (ScheduledReminder reminder_data));;
  try_except
    (task_id ← getitem reminder_data "task_id";
     user_id ← getitem reminder_data "user_id";
     n ← tick;
     response ← or_raise (task_api env n task_id user_id) TransportError;
     if fst response =? 200 then
       task ← or_raise (snd response) ValueError;
       if finished (status task) then pass
       else
         user_session ← _get_user_telegram_session user_id;
         match user_session with
         | Some session =>
             if no_session user_session then pass
             else
               telegram_id ← getitem session "telegram_id";
               _send_telegram_notification telegram_id
                 (ReminderMessage task (reminder_body reminder_data task))
         | None => pass
         end
     else pass)
    pass.

(** *** _process_scheduled_reminders *)

Definition process_reminder_key (current_time : datetime) (key : string)
  : M unit :=
  try_except
    (reminder_data ← redis_get key;
     match reminder_data with
     | Some v =>
         if truthy reminder_data then
           reminder ← loads v;
           at_field ← getitem reminder "remind_at";
           remind_at ← match at_field with
                       | JTime d => mret d
                       | JStr _ => raise ValueError
                       | _ => raise TypeError
                       end;
           is_due ← or_raise (le remind_at current_time) TypeError;
           if is_due : bool then
             _send_scheduled_reminder reminder;;
             redis_delete key
           else pass
         else pass
     | None => pass
     end)
    pass.

Definition _process_scheduled_reminders (command : ProcessRemindersCommand)
  : M unit :=
  try_except
    (let current_time := check_time command in
     keys ← scan_iter "reminder:";
     for_each (process_reminder_key current_time) keys)
    pass.

(** *** What a reporting run of [_process_overdue_task] leaves behind *)

(* the effects of a run that reports: [base] is the interaction at which the
   clock is read for the overdue computation, [i] the one at which the time
   to record is read *)
Definition reported (task : TaskResponse) (w w' : World) (base : nat) : Prop :=
  ∃ d m accepted posts i,
    due_date task = Some d
    ∧ m = whole_minutes (clock env base - wall d)
    ∧ 0 < m
    ∧ trace w'
      = trace w
        ++ [Publish "task.overdue"
              (OverdueBody
                 {| overdue_task_id := id task;
                    overdue_user_id := user_id task;
                    overdue_timestamp := naive (clock env (S base));
                    overdue_task_data := task;
                    overdue_minutes := m |})
              accepted;
            Notify (OverdueNotification task m)]
        ++ posts
        ++ [Setex (overdue_key task) 86400 (RTime (naive (clock env i)))]
    ∧ (posts = []
       ∨ ∃ telegram_id k,
           posts = [Telegram telegram_id
                      (OverdueMessage task (overdue_time_str m))
                      (clock env k)]
           ∧ (base < k < i)%nat)
    ∧ (base < i)%nat
    ∧ steps w' = S (S i)
    ∧ redis w'
      = <[overdue_key task :=
            {| value := RTime (naive (clock env i));
               expires_at := Some (clock env (S i) + seconds 86400) |}]>
          (redis w).

(** *** Vocabulary for the statements *)

(* int((due_date - now).total_seconds() / 60) with [now] the aligned reading
   of the clock; None would be the TypeError of a mixed subtraction *)
Definition minutes_until_due (due_date : datetime) (reading : Z) : option Z :=
  whole_minutes <$> sub due_date (align_now due_date (naive reading)).


End Worker.

(* what a run added to the trace *)
Definition new_effects (w w' : World) : list effect :=
  drop (length (trace w)) (trace w').


Definition is_telegram (e : effect) : Prop :=
  ∃ telegram_id msg sent_at, e = Telegram telegram_id msg sent_at.


(* an overdue message delivered to Telegram: the task's id and the time *)
Definition overdue_post (e : effect) : option (Z * Z) :=
  match e with
  | Telegram _ (OverdueMessage task _) sent_at => Some (id task, sent_at)
  | _ => None
  end.

(* any two overdue messages for one task are at least six hours apart *)
Definition spaced (tr : list effect) : Prop :=
  ∀ i j e1 e2 task_id t1 t2,
    (i < j)%nat →
    tr !! i = Some e1 → tr !! j = Some e2 →
    overdue_post e1 = Some (task_id, t1) →
    overdue_post e2 = Some (task_id, t2) →
    hours 6 ≤ t2 - t1.

(* every overdue message in the trace lies in the past and is covered by the
   time recorded under its task's key, which outlives the six hours *)
Definition covered (env : Env) (w : World) : Prop :=
  ∀ e task_id sent_at,
    e ∈ trace w → overdue_post e = Some (task_id, sent_at) →
    sent_at ≤ clock env (steps w)
    ∧ ∃ s x,
        redis w !! ("overdue_sent:" +:+ pretty task_id)
        = Some {| value := RTime (naive s); expires_at := Some x |}
        ∧ sent_at ≤ s ∧ s + hours 6 ≤ x.

Definition monotone (env : Env) : Prop := ∀ n, clock env n ≤ clock env (S n).

(* a reminder payload whose remind_at has been reached at [check] *)
Definition due_reminder (check : datetime) (reminder : gmap string jvalue)
  : Prop :=
  ∃ d, reminder !! "remind_at" = Some (JTime d) ∧ le d check = Some true.

(** *** Sample data *)

Definition epoch : datetime := naive 0.

(* a task of user 3, due thirty minutes after the epoch *)
Definition sample_task : TaskResponse :=
  {| title := "write report"; description := None; status := TODO;
     priority := MEDIUM; due_date := Some (naive (minutes 30));
     id := 7; user_id := 3;
     created_at := epoch; updated_at := epoch; completed_at := None |}.

(* the same task, due thirty minutes before the epoch *)
Definition late_task : TaskResponse :=
  {| title := "write report"; description := None; status := TODO;
     priority := MEDIUM; due_date := Some (naive (- minutes 30));
     id := 7; user_id := 3;
     created_at := epoch; updated_at := epoch; completed_at := None |}.

Definition sample_event : event_body :=
  DueSoonBody {| due_soon_task_id := 7; due_soon_user_id := 3;
                 due_soon_timestamp := epoch;
                 due_soon_task_data := sample_task;
                 due_in_minutes := 30 |}.

(* the clock advances one second per interaction; the broker rejects the
   first publish and accepts every later one *)
Definition broker_down_once : Env :=
  {| clock := λ n, seconds (Z.of_nat n);
     exchange_accepts := λ n, negb (n =? 0)%nat;
     task_api := λ _ _ _, None;
     bot_api := λ _, Some 200 |}.

Definition user3_session : entry :=
  {| value := RJson (<["user_id" := JInt 3]> (<["telegram_id" := JInt 99]> ∅));
     expires_at := None |}.

Definition idle : World :=
  {| redis := <["bot_session:99" := user3_session]> ∅; steps := 0; trace := [] |}.


(* two reminders for task 7, for minute 10 and minute 50, and a command that
   checks at minute 20 *)
Definition reminder_at (m : Z) : gmap string jvalue :=
  <["task_id" := JInt 7]> (<["user_id" := JInt 3]>
    (<["remind_at" := JTime (naive (minutes m))]> ∅)).

Definition with_reminders : World :=
  {| redis :=
       <["reminder:7:early" := {| value := RJson (reminder_at 10); expires_at := None |}]>
         (<["reminder:7:late" := {| value := RJson (reminder_at 50); expires_at := None |}]>
            (<["bot_session:99" := user3_session]> ∅));
     steps := 0; trace := [] |}.

Definition check_at_20 : ProcessRemindersCommand :=
  {| check_time := naive (minutes 20); look_ahead_minutes := 60 |}.

End Reminder.

(** ** analytics_worker.py *)

Module Analytics.

Definition MIN_TASKS_FOR_ANALYSIS : Z := 5.
Definition REDIS_CACHE_TTL : Z := 3600.

(** An activity document as [_calculate_productivity_stats] reads it. *)
Record activity := {
  task_id : Z;                 (* activity["task_id"] *)
  action : string;             (* activity["action"] *)
  timestamp : datetime;        (* fromisoformat(activity["timestamp"]) *)
  priority : option string;    (* activity["metadata"].get("priority") *)
  was_overdue : bool           (* truth of metadata.get("was_overdue") *)
}.

(** *** Insertion-ordered dictionaries *)

(* task_activities[task_id].append(activity) on a defaultdict(list) *)
Fixpoint append_to (tid : Z) (a : activity) (groups : list (Z * list activity))
  : list (Z * list activity) :=
  match groups with
  | [] => [(tid, [a])]
  | (k, l) :: rest =>
      if decide (k = tid) then (k, l ++ [a]) :: rest
      else (k, l) :: append_to tid a rest
  end.

Definition group_by_task (activities : list activity)
  : list (Z * list activity) :=
  fold_left (λ groups a, append_to (task_id a) a groups) activities [].

(* counts[key] += 1 on a defaultdict(int) *)
Fixpoint bump `{EqDecision K} (key : K) (counts : list (K * Z))
  : list (K * Z) :=
  match counts with
  | [] => [(key, 1)]
  | (k, n) :: rest =>
      if decide (k = key) then (k, n + 1) :: rest
      else (k, n) :: bump key rest
  end.

(* max(counts, key=counts.get): the first key whose count is greatest *)
Fixpoint max_from (best : Z) (best_count : Z) (counts : list (Z * Z)) : Z :=
  match counts with
  | [] => best
  | (k, n) :: rest =>
      if best_count <? n then max_from k n rest
      else max_from best best_count rest
  end.

Definition max_by_count (counts : list (Z * Z)) : option Z :=
  match counts with
  | [] => None
  | (k, n) :: rest => Some (max_from k n rest)
  end.

(* statistics.mean, exactly *)
Definition Qsum (l : list Q) : Q := fold_right Qplus 0%Q l.
Definition mean (l : list Q) : Q := (Qsum l / inject_Z (Z.of_nat (length l)))%Q.

(** *** _calculate_productivity_stats *)

(* the counters and lists the two nested loops update *)
Record tally := {
  n_total : Z;
  n_completed : Z;
  n_cancelled : Z;
  n_overdue : Z;
  completion_times : list Q;
  completion_hours : list Z;
  priority_counts : list (string * Z)
}.

Definition tally0 : tally :=
  {| n_total := 0; n_completed := 0; n_cancelled := 0; n_overdue := 0;
     completion_times := []; completion_hours := []; priority_counts := [] |}.

(* for activity in task_activities_list: ... ; returns final_priority *)
Fixpoint scan_task (l : list activity) (created : option datetime)
    (final_priority : string) (t : tally) : outcome (string * tally) :=
  match l with
  | [] => Ok (final_priority, t)
  | a :: rest =>
      if String.eqb (action a) "created" then
        scan_task rest (Some (timestamp a)) (default "medium" (priority a)) t
      else if String.eqb (action a) "completed" then
        let completed := timestamp a in
        let times :=
          match created with
          | Some c =>
              match sub completed c with
              | Some td => Ok (completion_times t ++ [in_hours td])
              | None => Raised TypeError
              end
          | None => Ok (completion_times t)
          end in
        match times with
        | Ok times =>
            scan_task rest created final_priority
              {| n_total := n_total t;
                 n_completed := n_completed t + 1;
                 n_cancelled := n_cancelled t;
                 n_overdue := if was_overdue a then n_overdue t + 1 else n_overdue t;
                 completion_times := times;
                 completion_hours := completion_hours t ++ [hour completed];
                 priority_counts := priority_counts t |}
        | Raised e => Raised e
        end
      else if String.eqb (action a) "cancelled" then
        scan_task rest created final_priority
          {| n_total := n_total t;
             n_completed := n_completed t;
             n_cancelled := n_cancelled t + 1;
             n_overdue := n_overdue t;
             completion_times := completion_times t;
             completion_hours := completion_hours t;
             priority_counts := priority_counts t |}
      else scan_task rest created final_priority t
  end.

(* for task_id, task_activities_list in task_activities.items(): ... *)
Fixpoint scan_groups (groups : list (Z * list activity)) (t : tally)
  : outcome tally :=
  match groups with
  | [] => Ok t
  | (_, task_activities_list) :: rest =>
      let t := {| n_total := n_total t + 1;
                  n_completed := n_completed t;
                  n_cancelled := n_cancelled t;
                  n_overdue := n_overdue t;
                  completion_times := completion_times t;
                  completion_hours := completion_hours t;
                  priority_counts := priority_counts t |} in
      match scan_task task_activities_list None "medium" t with
      | Ok (final_priority, t) =>
          scan_groups rest
            {| n_total := n_total t;
               n_completed := n_completed t;
               n_cancelled := n_cancelled t;
               n_overdue := n_overdue t;
               completion_times := completion_times t;
               completion_hours := completion_hours t;
               priority_counts := bump final_priority (priority_counts t) |}
      | Raised e => Raised e
      end
  end.

Definition hour_counts (hours : list Z) : list (Z * Z) :=
  fold_left (λ counts h, bump h counts) hours [].

Definition _calculate_productivity_stats (user_id : Z)
    (activities : list activity) (start_date end_date : datetime)
  : outcome ProductivityStats :=
  match scan_groups (group_by_task activities) tally0 with
  | Ok t =>
      let total_tasks := n_total t in
      let completed_tasks := n_completed t in
      let cancelled_tasks := n_cancelled t in
      let completion_rate :=
        if 0 <? total_tasks
        then (inject_Z completed_tasks / inject_Z total_tasks)%Q
        else 0%Q in
      let avg_completion_time :=
        match completion_times t with
        | [] => None
        | _ => Some (mean (completion_times t))
        end in
      let most_productive_hour :=
        match completion_hours t with
        | [] => None
        | _ => max_by_count (hour_counts (completion_hours t))
        end in
      let status_counts :=
        [("todo", total_tasks - completed_tasks - cancelled_tasks);
         ("completed", completed_tasks);
         ("cancelled", cancelled_tasks);
         ("in_progress", 0)] in
      Ok {| stats_user_id := user_id;
            period_start := start_date;
            period_end := end_date;
            total_tasks := total_tasks;
            completed_tasks := completed_tasks;
            cancelled_tasks := cancelled_tasks;
            overdue_tasks := n_overdue t;
            completion_rate := completion_rate;
            average_completion_time_hours := avg_completion_time;
            most_productive_hour := most_productive_hour;
            tasks_by_priority := priority_counts t;
            tasks_by_status := status_counts |}
  | Raised e => Raised e
  end.

(** *** _generate_analytics_for_user *)

Record cache_data := {
  cached_completion_rate : Q;
  cached_total_tasks : Z;
  cached_completed_tasks : Z;
  cached_average_completion_time : option Q;
  cached_most_productive_hour : option Z;
  generated_at : datetime
}.

Inductive effect :=
(* POST {DB_MONGO_SERVICE_URL}/analytics/productivity *)
| StoreStats (stats : ProductivityStats)
(* redis setex of user_analytics:{user_id} *)
| CacheStats (key : string) (seconds : Z) (data : cache_data).

Record World := {
  redis : gmap string (cache_data * Z);   (* cached value and its TTL *)
  steps : nat;
  trace : list effect
}.

Record Env := {
  clock : nat → Z;
  (* what _get_user_activities returns; [] on any failure *)
  activities_of : nat → Z → datetime → datetime → list activity;
  (* status of the POST, None for a transport error *)
  mongo_api : nat → option Z
}.

Abbreviation M := (Exec.M World).

Definition tick : M nat := λ w,
  (Ok (steps w), {| redis := redis w; steps := S (steps w); trace := trace w |}).

Definition emit (e : effect) : M unit := λ w,
  (Ok tt, {| redis := redis w; steps := steps w; trace := trace w ++ [e] |}).

Definition put_redis (key : string) (v : cache_data * Z) : M unit := λ w,
  (Ok tt, {| redis := <[key := v]> (redis w); steps := steps w; trace := trace w |}).

Section Worker.

Variable env : Env.

Definition utcnow : M datetime :=
  n ← tick; mret (naive (clock env n)).

Definition _get_user_activities (user_id : Z) (start_date end_date : datetime)
  : M (list activity) :=
  n ← tick; mret (activities_of env n user_id start_date end_date).

Definition _store_productivity_stats (stats : ProductivityStats) : M unit :=
  try_except
    (n ← tick;
     emit (StoreStats stats);;
     or_raise (mongo_api env n) TransportError;;
     pass)
    pass.

Definition _cache_user_stats (stats : ProductivityStats) : M unit :=
  try_except
    (let cache_key := "user_analytics:" +:+ pretty (stats_user_id stats) in
     now ← utcnow;
     let data :=
       {| cached_completion_rate := completion_rate stats;
          cached_total_tasks := total_tasks stats;
          cached_completed_tasks := completed_tasks stats;
          cached_average_completion_time := average_completion_time_hours stats;
          cached_most_productive_hour := most_productive_hour stats;
          generated_at := now |} in
     put_redis cache_key (data, REDIS_CACHE_TTL);;
     emit (CacheStats cache_key REDIS_CACHE_TTL data))
    pass.

Definition _generate_analytics_for_user (user_id : Z) (period_days : Z)
  : M unit :=
  try_except
    (end_date ← utcnow;
     let start_date :=
       {| wall := wall end_date - hours (24 * period_days);
          tzinfo := tzinfo end_date |} in
     activities ← _get_user_activities user_id start_date end_date;
     if Z.of_nat (length activities) <? MIN_TASKS_FOR_ANALYSIS then pass
     else
       stats ← (λ w, (_calculate_productivity_stats user_id activities
                        start_date end_date, w));
       _store_productivity_stats stats;;
       _cache_user_stats stats)
    pass.

End Worker.

(** *** The quantities the statistics are about, read off the flat list *)

Definition is_created (a : activity) : bool := String.eqb (action a) "created".
Definition is_completed (a : activity) : bool := String.eqb (action a) "completed".
Definition is_cancelled (a : activity) : bool := String.eqb (action a) "cancelled".

(* the task ids that occur, each once *)
Definition distinct_tasks (activities : list activity) : list Z :=
  remove_dups (map task_id activities).

(* the completion activities, in the order given *)
Definition completions (activities : list activity) : list activity :=
  List.filter is_completed activities.

(* the creation that matches a completion: the latest "created" activity of
   the same task among the activities before it ([earlier], latest first) *)
Fixpoint latest_creation (tid : Z) (earlier : list activity) : option datetime :=
  match earlier with
  | [] => None
  | b :: rest =>
      if bool_decide (task_id b = tid) && is_created b then Some (timestamp b)
      else latest_creation tid rest
  end.

Definition completion_pair (earlier : list activity) (a : activity)
  : list (datetime * datetime) :=
  if is_completed a then
    match latest_creation (task_id a) earlier with
    | Some c => [(c, timestamp a)]
    | None => []
    end
  else [].

(* (created, completed) for every completion that has a matching creation *)
Fixpoint completion_pairs_from (earlier l : list activity)
  : list (datetime * datetime) :=
  match l with
  | [] => []
  | a :: rest => completion_pair earlier a ++ completion_pairs_from (a :: earlier) rest
  end.

Definition completion_pairs (activities : list activity)
  : list (datetime * datetime) :=
  completion_pairs_from [] activities.

(* completed - created is defined: both naive or both aware *)
Definition comparable (p : datetime * datetime) : Prop :=
  is_Some (sub (snd p) (fst p)).

(* (completed - created) in hours *)
Definition duration (p : datetime * datetime) : Q :=
  in_hours (default 0 (sub (snd p) (fst p))).

Definition lookup_count (key : string) (counts : list (string * Z)) : Z :=
  match List.find (λ kv, String.eqb (fst kv) key) counts with
  | Some kv => snd kv
  | None => 0
  end.

(** *** The inner loop seen from one task's list *)

(* the value of [created] when the loop over one task's activities ends *)
Fixpoint final_created (created : option datetime) (l : list activity)
  : option datetime :=
  match l with
  | [] => created
  | a :: rest =>
      final_created (if is_created a then Some (timestamp a) else created) rest
  end.

(* the (created, completed) pairs that loop subtracts *)
Fixpoint pairs_in (created : option datetime) (l : list activity)
  : list (datetime * datetime) :=
  match l with
  | [] => []
  | a :: rest =>
      if is_created a then pairs_in (Some (timestamp a)) rest
      else if is_completed a then
        match created with
        | Some c => (c, timestamp a) :: pairs_in created rest
        | None => pairs_in created rest
        end
      else pairs_in created rest
  end.

Definition overdue_completions (l : list activity) : list activity :=
  List.filter (λ a, is_completed a && was_overdue a) l.

Definition cancellations (l : list activity) : list activity :=
  List.filter is_cancelled l.

Definition hour_of (a : activity) : Z := hour (timestamp a).

(* every pair subtracted while the outer loop runs over [groups] *)
Definition pairs_of_groups (groups : list (Z * list activity))
  : list (datetime * datetime) :=
  flat_map (λ g, pairs_in None (snd g)) groups.

Definition members (groups : list (Z * list activity)) : list activity :=
  flat_map snd groups.

(* the list filed under [tid] in the grouping dictionary *)
Fixpoint group_of (tid : Z) (groups : list (Z * list activity)) : list activity :=
  match groups with
  | [] => []
  | (k, l) :: rest => if decide (k = tid) then l else group_of tid rest
  end.

Definition of_task (tid : Z) (l : list activity) : list activity :=
  List.filter (λ a, bool_decide (task_id a = tid)) l.

(* counts.get(key, 0) *)
Fixpoint count_for (key : Z) (counts : list (Z * Z)) : Z :=
  match counts with
  | [] => 0
  | (k, n) :: rest => if decide (k = key) then n else count_for key rest
  end.

Definition occurrences (h : Z) (l : list Z) : Z :=
  Z.of_nat (count_occ Z.eq_dec l h).

(** *** A task that is completed, reopened and completed again *)

Definition day0 : datetime := naive 0.

Definition recompleted_task : list activity :=
  [ {| task_id := 1; action := "created"; timestamp := naive (hours 0);
       priority := Some "high"; was_overdue := false |};
    {| task_id := 1; action := "completed"; timestamp := naive (hours 2);
       priority := None; was_overdue := false |};
    {| task_id := 1; action := "status_changed"; timestamp := naive (hours 3);
       priority := None; was_overdue := false |};
    {| task_id := 1; action := "completed"; timestamp := naive (hours 5);
       priority := None; was_overdue := false |} ].

(** *** A task created with a naive timestamp and completed with an aware one *)

Definition mixed_timestamps : list activity :=
  [ {| task_id := 1; action := "created"; timestamp := naive (hours 0);
       priority := Some "high"; was_overdue := false |};
    {| task_id := 1; action := "completed";
       timestamp := {| wall := hours 2; tzinfo := Some 0 |};
       priority := None; was_overdue := false |} ].

End Analytics.

(** ** scripts/validate_naming.py *)

Module Naming.

(** *** Regular expressions, matched by derivatives *)

Inductive regex :=
| Void
| Eps
| Class (p : ascii → bool)
| Cat (r1 r2 : regex)
| Alt (r1 r2 : regex)
| Star (r : regex).

Fixpoint nullable (r : regex) : bool :=
  match r with
  | Void => false
  | Eps => true
  | Class _ => false
  | Cat r1 r2 => nullable r1 && nullable r2
  | Alt r1 r2 => nullable r1 || nullable r2
  | Star _ => true
  end.

Fixpoint deriv (c : ascii) (r : regex) : regex :=
  match r with
  | Void => Void
  | Eps => Void
  | Class p => if p c then Eps else Void
  | Cat r1 r2 =>
      if nullable r1 then Alt (Cat (deriv c r1) r2) (deriv c r2)
      else Cat (deriv c r1) r2
  | Alt r1 r2 => Alt (deriv c r1) (deriv c r2)
  | Star r1 => Cat (deriv c r1) (Star r1)
  end.

Definition accepts (r : regex) (s : list ascii) : bool :=
  nullable (fold_left (λ r c, deriv c r) s r).

(* the language of a regular expression *)
Inductive denotes : regex → list ascii → Prop :=
| denotes_eps : denotes Eps []
| denotes_class p c : p c = true → denotes (Class p) [c]
| denotes_cat r1 r2 s1 s2 :
    denotes r1 s1 → denotes r2 s2 → denotes (Cat r1 r2) (s1 ++ s2)
| denotes_alt_l r1 r2 s : denotes r1 s → denotes (Alt r1 r2) s
| denotes_alt_r r1 r2 s : denotes r2 s → denotes (Alt r1 r2) s
| denotes_star_nil r : denotes (Star r) []
| denotes_star_more r s1 s2 :
    denotes r s1 → denotes (Star r) s2 → denotes (Star r) (s1 ++ s2).

Definition Plus (r : regex) : regex := Cat r (Star r).

Fixpoint Lit (s : string) : regex :=
  match s with
  | EmptyString => Eps
  | String c rest => Cat (Class (Ascii.eqb c)) (Lit rest)
  end.

Fixpoint AnyOf (l : list string) : regex :=
  match l with
  | [] => Void
  | s :: rest => Alt (Lit s) (AnyOf rest)
  end.

(** *** Character classes and str methods *)

Definition code (c : ascii) : Z := Z.of_N (N_of_ascii c).

(* [a-z] *)
Definition lower (c : ascii) : bool := (97 <=? code c) && (code c <=? 122).

(* [a-z_] *)
Definition lower_or_underscore (c : ascii) : bool :=
  lower c || Ascii.eqb c "_".

(* str.isspace / \s on the ASCII range *)
Definition isspace (c : ascii) : bool :=
  ((9 <=? code c) && (code c <=? 13))
  || ((28 <=? code c) && (code c <=? 32)).

Definition newline : ascii := "010".

Definition chars (s : string) : list ascii := list_ascii_of_string s.
Definition text (l : list ascii) : string := string_of_list_ascii l.

Fixpoint drop_spaces (l : list ascii) : list ascii :=
  match l with
  | c :: rest => if isspace c then drop_spaces rest else l
  | [] => []
  end.

(* s.strip() *)
Definition strip (s : string) : string :=
  text (rev (drop_spaces (rev (drop_spaces (chars s))))).

(* s.split(sep) for a one-character separator *)
Fixpoint split_chars (sep : ascii) (cur : list ascii) (l : list ascii)
  : list string :=
  match l with
  | [] => [text (rev cur)]
  | c :: rest =>
      if Ascii.eqb c sep then text (rev cur) :: split_chars sep [] rest
      else split_chars sep (c :: cur) rest
  end.

Definition split (sep : ascii) (s : string) : list string :=
  split_chars sep [] (chars s).

Definition startswith (s p : string) : bool := String.prefix p s.

Definition endswith (s p : string) : bool :=
  String.prefix (text (rev (chars p))) (text (rev (chars s))).

Fixpoint take_while (p : ascii → bool) (l : list ascii) : list ascii :=
  match l with
  | c :: rest => if p c then c :: take_while p rest else []
  | [] => []
  end.

Fixpoint drop_while (p : ascii → bool) (l : list ascii) : list ascii :=
  match l with
  | c :: rest => if p c then drop_while p rest else l
  | [] => []
  end.

(** *** The two module constants *)

Definition service_types : list string :=
  ["api"; "bot"; "worker"; "gateway"; "stream"; "scheduler"; "cli"; "webhook"].

(* [a-z]+_[a-z_]+_(api|bot|worker|gateway|stream|scheduler|cli|webhook) *)
Definition service_regex : regex :=
  Cat (Plus (Class lower))
    (Cat (Lit "_")
       (Cat (Plus (Class lower_or_underscore))
          (Cat (Lit "_") (AnyOf service_types)))).

(* VALID_SERVICE_PATTERN.match(s): the pattern is anchored by ^ and $, and
   $ also matches just before a newline that ends the string *)
Definition VALID_SERVICE_PATTERN (s : string) : bool :=
  accepts service_regex (chars s)
  || match rev (chars s) with
     | c :: before => Ascii.eqb c newline && accepts service_regex (rev before)
     | [] => false
     end.

Definition INFRASTRUCTURE_SERVICES : list string :=
  ["nginx"; "postgres"; "mongodb"; "redis"; "rabbitmq";
   "prometheus"; "grafana"; "jaeger"; "elasticsearch";
   "logstash"; "kibana"; "filebeat"; "adminer"].

Definition is_infrastructure (s : string) : bool :=
  bool_decide (s ∈ INFRASTRUCTURE_SERVICES).

(** *** The files the script reads *)

(* file.read_text() *)
Inductive file :=
| Unreadable (error : string)
| Content (body : string).

Record templates := {
  (* templates/infrastructure/docker-compose*.yml, None without the directory *)
  compose_files : option (list (string * file));
  (* templates/nginx/conf.d/*.conf, None without the directory *)
  nginx_files : option (list (string * file));
  (* templates/infrastructure/Makefile, None when absent *)
  makefile : option file
}.

Definition reading_error (e : string) : string := "Error reading file: " +:+ e.

(** *** check_docker_compose_files *)

(* re.match(r'^  ([a-z_]+):', line), group 1 *)
Definition compose_service (line : string) : option string :=
  match chars line with
  | " "%char :: " "%char :: rest =>
      let name := take_while lower_or_underscore rest in
      match name, drop_while lower_or_underscore rest with
      | _ :: _, ":"%char :: _ => Some (text name)
      | _, _ => None
      end
  | _ => None
  end.

Definition first_is_space (line : string) : bool :=
  match line with
  | String c _ => isspace c
  | EmptyString => false
  end.

(* one turn of `for line in content.split('\n')`; the state is
   (in_services, errors) *)
Definition compose_line (fname : string)
    (st : bool * list (string * string)) (line : string)
  : bool * list (string * string) :=
  let '(in_services, errors) := st in
  let stripped := strip line in
  if startswith stripped "services:" then (true, errors)
  else
    let in_services :=
      if in_services && negb (String.eqb line "") && negb (first_is_space line)
      then false else in_services in
    if in_services && startswith line "  " && negb (startswith line "    ")
    then
      match compose_service line with
      | Some service =>
          if is_infrastructure service then (in_services, errors)
          else if negb (VALID_SERVICE_PATTERN service)
               then (in_services, errors ++ [(fname, service)])
               else (in_services, errors)
      | None => (in_services, errors)
      end
    else (in_services, errors).

Definition compose_file (errors : list (string * string))
    (f : string * file) : list (string * string) :=
  match snd f with
  | Unreadable e => errors ++ [(fst f, reading_error e)]
  | Content body =>
      snd (fold_left (compose_line (fst f)) (split newline body) (false, errors))
  end.

Definition check_docker_compose_files (t : templates)
  : list (string * string) :=
  match compose_files t with
  | None => []
  | Some files => fold_left compose_file files []
  end.

(* the service names a compose file declares, as the loop above reads
   them: the same scan, collecting every name it looks at *)
Definition compose_names (st : bool * list string) (line : string)
  : bool * list string :=
  let '(in_services, names) := st in
  if startswith (strip line) "services:" then (true, names)
  else
    let in_services :=
      if in_services && negb (String.eqb line "") && negb (first_is_space line)
      then false else in_services in
    if in_services && startswith line "  " && negb (startswith line "    ")
    then
      match compose_service line with
      | Some service => (in_services, names ++ [service])
      | None => (in_services, names)
      end
    else (in_services, names).

Definition compose_services (body : string) : list string :=
  snd (fold_left compose_names (split newline body) (false, [])).

(** *** check_nginx_configs *)

Fixpoint strip_prefix (p : list ascii) (l : list ascii) : option (list ascii) :=
  match p, l with
  | [], _ => Some l
  | a :: p', b :: l' => if Ascii.eqb a b then strip_prefix p' l' else None
  | _ :: _, [] => None
  end.

(* upstream\s+([a-z_]+)\s*\{ tried at the head of [l]: the captured name
   and the length of the whole match *)
Definition upstream_at (l : list ascii) : option (string * nat) :=
  match strip_prefix (chars "upstream") l with
  | Some after_kw =>
      let spaces1 := take_while isspace after_kw in
      let after1 := drop_while isspace after_kw in
      let name := take_while lower_or_underscore after1 in
      let after_name := drop_while lower_or_underscore after1 in
      let spaces2 := take_while isspace after_name in
      match spaces1, name, drop_while isspace after_name with
      | _ :: _, _ :: _, "{"%char :: _ =>
          Some (text name,
                (8 + length spaces1 + length name + length spaces2 + 1)%nat)
      | _, _, _ => None
      end
  | None => None
  end.

(* re.finditer(r'^upstream\s+([a-z_]+)\s*\{', content, re.MULTILINE):
   [line_start] says whether ^ matches here, [skip] counts the characters
   still covered by the previous match *)
Fixpoint upstreams (line_start : bool) (skip : nat) (l : list ascii)
  : list string :=
  match l with
  | [] => []
  | c :: rest =>
      let next_start := Ascii.eqb c newline in
      match skip with
      | S k => upstreams next_start k rest
      | O =>
          if line_start then
            match upstream_at l with
            | Some (name, len) => name :: upstreams next_start (len - 1) rest
            | None => upstreams next_start 0 rest
            end
          else upstreams next_start 0 rest
      end
  end.

Definition nginx_upstream (fname : string) (errors : list (string * string))
    (upstream : string) : list (string * string) :=
  if is_infrastructure upstream || endswith upstream "_management" then errors
  else if negb (VALID_SERVICE_PATTERN upstream)
       then errors ++ [(fname, upstream)]
       else errors.

Definition nginx_file (errors : list (string * string))
    (f : string * file) : list (string * string) :=
  match snd f with
  | Unreadable e => errors ++ [(fst f, reading_error e)]
  | Content body =>
      fold_left (nginx_upstream (fst f)) (upstreams true 0 (chars body)) errors
  end.

Definition check_nginx_configs (t : templates) : list (string * string) :=
  match nginx_files t with
  | None => []
  | Some files => fold_left nginx_file files []
  end.

(** *** check_makefile *)

(* services/\{([^}]+)\} tried at the head of [l] *)
Definition brace_group_at (l : list ascii) : option (string * nat) :=
  match strip_prefix (chars "services/{") l with
  | Some after_open =>
      let inside := take_while (λ c, negb (Ascii.eqb c "}")) after_open in
      match inside, drop_while (λ c, negb (Ascii.eqb c "}")) after_open with
      | _ :: _, "}"%char :: _ => Some (text inside, (10 + length inside + 1)%nat)
      | _, _ => None
      end
  | None => None
  end.

(* re.finditer(r'services/\{([^}]+)\}', content) *)
Fixpoint brace_groups (skip : nat) (l : list ascii) : list string :=
  match l with
  | [] => []
  | _ :: rest =>
      match skip with
      | S k => brace_groups k rest
      | O =>
          match brace_group_at l with
          | Some (group, len) => group :: brace_groups (len - 1) rest
          | None => brace_groups 0 rest
          end
      end
  end.

Definition makefile_service (errors : list (string * string))
    (service : string) : list (string * string) :=
  let service := strip service in
  if negb (String.eqb service "") && negb (VALID_SERVICE_PATTERN service)
  then errors ++ [("Makefile", service)]
  else errors.

Definition makefile_group (errors : list (string * string))
    (group : string) : list (string * string) :=
  fold_left makefile_service (split ","%char group) errors.

Definition check_makefile (t : templates) : list (string * string) :=
  match makefile t with
  | None => []
  | Some (Unreadable e) => [("Makefile", reading_error e)]
  | Some (Content body) =>
      fold_left makefile_group (brace_groups 0 (chars body)) []
  end.

(* the service references of a Makefile, as the loops above read them:
   every comma-separated piece of every brace group, stripped *)
Definition makefile_references (body : string) : list string :=
  map strip (flat_map (split ","%char) (brace_groups 0 (chars body))).

(** *** main *)

Definition tagged (category : string) (errors : list (string * string))
  : list (string * string * string) :=
  map (λ fs, (category, fst fs, snd fs)) errors.

Definition all_errors (t : templates) : list (string * string * string) :=
  tagged "Docker Compose" (check_docker_compose_files t)
  ++ tagged "Nginx Config" (check_nginx_configs t)
  ++ tagged "Makefile" (check_makefile t).

Definition main (t : templates) : Z :=
  match all_errors t with
  | [] => 0
  | _ :: _ => 1
  end.

(** *** What each check contributes, name by name *)

Definition compose_flag (fname name : string) : list (string * string) :=
  if is_infrastructure name then []
  else if negb (VALID_SERVICE_PATTERN name) then [(fname, name)] else [].

Definition compose_file_errors (f : string * file) : list (string * string) :=
  match snd f with
  | Unreadable e => [(fst f, reading_error e)]
  | Content body => flat_map (compose_flag (fst f)) (compose_services body)
  end.

Definition nginx_flag (fname name : string) : list (string * string) :=
  if is_infrastructure name || endswith name "_management" then []
  else if negb (VALID_SERVICE_PATTERN name) then [(fname, name)] else [].

Definition nginx_file_errors (f : string * file) : list (string * string) :=
  match snd f with
  | Unreadable e => [(fst f, reading_error e)]
  | Content body => flat_map (nginx_flag (fst f)) (upstreams true 0 (chars body))
  end.

Definition makefile_flag (piece : string) : list (string * string) :=
  if negb (String.eqb (strip piece) "")
     && negb (VALID_SERVICE_PATTERN (strip piece))
  then [("Makefile", strip piece)] else [].

(** *** A Makefile that creates a directory for an infrastructure service *)

Definition redis_in_makefile : templates :=
  {| compose_files := Some [];
     nginx_files := None;
     makefile := Some (Content "mkdir -p services/{redis,template_business_api}") |}.

End Naming.

(** ** More of reminder_worker.py: the periodic check and the cleanup *)

Module ReminderLoops.
Import Reminder.

(* now + timedelta(minutes=m) *)
Definition plus_minutes (d : datetime) (m : Z) : datetime :=
  {| wall := wall d + minutes m; tzinfo := tzinfo d |}.

(** The task API as the two checks see it.  A reply is None for a transport
    error, otherwise the status code and the decoded body: None when
    [response.json()] or the access to its "tasks" fail, else the listed
    items, each one the task it validates to or None when
    the TaskResponse constructor raises. *)
Record Feeds := {
  (* GET /api/v1/tasks/due-soon?start_time=..&end_time=.. *)
  due_soon_api : nat → datetime → datetime
                 → option (Z * option (list (option TaskResponse)));
  (* GET /api/v1/tasks/overdue?overdue_since=.. *)
  overdue_api : nat → datetime
                → option (Z * option (list (option TaskResponse)))
}.

(* await asyncio.sleep(seconds) *)
Definition sleep (secs : Z) : M unit :=
  _ ← tick; emit (Sleep secs).

(* the list comprehension building a TaskResponse from every item: the
   first item that does not validate raises *)
Fixpoint validate_all (items : list (option TaskResponse))
  : M (list TaskResponse) :=
  match items with
  | [] => mret []
  | Some task :: rest => tasks ← validate_all rest; mret (task :: tasks)
  | None :: _ => raise ValueError
  end.

Section Loops.

Variable env : Env.
Variable feeds : Feeds.

(** *** _check_due_soon_tasks *)

Definition _check_due_soon_tasks : M unit :=
  try_except
    (now ← utcnow env;
     let due_soon_threshold := plus_minutes now DUE_SOON_MINUTES in
     n ← tick;
     response ← or_raise (due_soon_api feeds n now due_soon_threshold)
                  TransportError;
     if fst response =? 200 then
       items ← or_raise (snd response) ValueError;
       tasks ← validate_all items;
       for_each (_process_due_soon_task env) tasks
     else pass)
    pass.

(** *** _check_overdue_tasks *)

Definition _check_overdue_tasks : M unit :=
  try_except
    (now ← utcnow env;
     let overdue_threshold := plus_minutes now (- OVERDUE_CHECK_MINUTES) in
     n ← tick;
     response ← or_raise (overdue_api feeds n overdue_threshold) TransportError;
     if fst response =? 200 then
       items ← or_raise (snd response) ValueError;
       tasks ← validate_all items;
       for_each (_process_overdue_task env) tasks
     else pass)
    pass.

(** *** _periodic_reminder_check

    [rounds] is the number of times the loop finds [self.running] true. *)

Fixpoint _periodic_reminder_check (rounds : nat) : M unit :=
  match rounds with
  | O => pass
  | S rounds =>
      try_except
        (_check_due_soon_tasks;;
         _check_overdue_tasks;;
         sleep CHECK_INTERVAL_SECONDS)
        (sleep 60);;
      _periodic_reminder_check rounds
  end.

(** *** _cleanup_old_reminders *)

(* redis.ttl(key): -2 for a missing key, -1 for a key without expiry, else
   the remaining time in seconds, rounded *)
Definition redis_ttl (key : string) : M Z :=
  n ← tick; r ← get_redis;
  mret (match r !! key with
        | Some e =>
            if live (clock env n) e then
              match expires_at e with
              | Some t => (t - clock env n + 500000) / us_per_second
              | None => -1
              end
            else -2
        | None => -2
        end).

(* redis.delete with all the keys: one command *)
Definition redis_delete_all (keys : list string) : M unit :=
  _ ← tick; r ← get_redis;
  put_redis (foldr delete r keys);;
  for_each (λ key, emit (Delete key)) keys.

(* the loop over scan_iter that fills expired_keys *)
Fixpoint collect_expired (keys : list string) (expired_keys : list string)
  : M (list string) :=
  match keys with
  | [] => mret expired_keys
  | key :: rest =>
      ttl ← redis_ttl key;
      if ttl =? -1 then collect_expired rest (expired_keys ++ [key])
      else collect_expired rest expired_keys
  end.

(* one turn of the while loop *)
Definition cleanup_pass : M unit :=
  try_except
    (sleep 3600;;
     keys ← scan_iter env "due_soon_sent:";
     expired_keys ← collect_expired keys [];
     match expired_keys with
     | [] => pass
     | _ :: _ => redis_delete_all expired_keys
     end)
    pass.

Fixpoint _cleanup_old_reminders (rounds : nat) : M unit :=
  match rounds with
  | O => pass
  | S rounds => cleanup_pass;; _cleanup_old_reminders rounds
  end.

End Loops.

(** *** Vocabulary for the statements *)

(* the entry under [key] is there and carries no expiry *)
Definition unexpiring (r : gmap string entry) (key : string) : bool :=
  match r !! key with
  | Some e => bool_decide (expires_at e = None)
  | None => false
  end.

(* the tasks announced as due soon, in the order of the announcements *)
Definition notified (tr : list effect) : list Z :=
  omap (λ e, match e with
             | Notify (DueSoonNotification task _) => Some (id task)
             | _ => None
             end) tr.

Definition due_soon_key_of (task_id : Z) : string :=
  "due_soon_sent:" +:+ pretty task_id.

(* the de-duplication key of a task holds a non-empty value whose expiry
   lies after the task's due date *)
Definition marker_covers (due_of : Z → option datetime) (w : World)
    (task_id : Z) : Prop :=
  ∃ v x,
    redis w !! due_soon_key_of task_id
    = Some {| value := v; expires_at := Some x |}
    ∧ v ≠ RText ""
    ∧ ∀ d, due_of task_id = Some d → wall d < x.

(* a routine that announces a task only when no marker covers it, at most
   once, and leaves a covering marker behind *)
Definition keeps_once (due_of : Z → option datetime) {A} (m : M A) : Prop :=
  ∀ (w : World) (P : Z → Prop),
    (∀ tid, P tid → marker_covers due_of w tid) →
    ∃ o w' new,
      m w = (o, w')
      ∧ trace w' = trace w ++ new
      ∧ NoDup (notified new)
      ∧ (∀ tid, P tid → tid ∉ notified new)
      ∧ (∀ tid, P tid ∨ tid ∈ notified new → marker_covers due_of w' tid).

(* a routine that leaves Redis alone and announces nothing *)
Definition silent {A} (m : M A) : Prop :=
  ∀ w, ∃ o w' new,
    m w = (o, w') ∧ redis w' = redis w ∧ trace w' = trace w ++ new
    ∧ notified new = [].

(* every task the API lists carries the due date [due_of] gives its id *)
Definition due_dates_fixed (feeds : Feeds) (due_of : Z → option datetime)
  : Prop :=
  ∀ n a b code items task,
    due_soon_api feeds n a b = Some (code, Some items) →
    Some task ∈ items →
    due_date task = due_of (id task).

(* the due-soon API lists the sample task twice in every reply *)
Definition listing_twice : Feeds :=
  {| due_soon_api := λ _ _ _, Some (200, Some [Some sample_task; Some sample_task]);
     overdue_api := λ _ _, Some (200, Some []) |}.

End ReminderLoops.

(** ** More of reminder_worker.py: the spacing of overdue messages *)

Module ReminderSpacing.
Import Reminder ReminderLoops.

(* a routine that posts no overdue message, leaves the overdue keys alone
   and does not turn the interaction counter back *)
Definition harmless {A} (m : M A) : Prop :=
  ∀ w, ∃ o w' new,
    m w = (o, w')
    ∧ trace w' = trace w ++ new
    ∧ Forall (λ e, overdue_post e = None) new
    ∧ (∀ task_id : Z, redis w' !! ("overdue_sent:" +:+ pretty task_id)
                  = redis w !! ("overdue_sent:" +:+ pretty task_id))
    ∧ (steps w ≤ steps w')%nat.

(* a routine that keeps the overdue messages six hours apart *)
Definition keeps_spacing (env : Env) {A} (m : M A) : Prop :=
  ∀ w, spaced (trace w) → covered env w →
       ∃ o w', m w = (o, w') ∧ spaced (trace w') ∧ covered env w'.

(* the overdue API lists the late task twice in every reply *)
Definition late_twice : Feeds :=
  {| due_soon_api := λ _ _ _, Some (200, Some []);
     overdue_api := λ _ _, Some (200, Some [Some late_task; Some late_task]) |}.

End ReminderSpacing.

(** ** More of analytics_worker.py: the cache and the Redis metrics *)

Module AnalyticsCache.
Import Analytics.

Definition cache_key (user_id : Z) : string :=
  "user_analytics:" +:+ pretty user_id.

Definition del_redis (key : string) : M unit := λ w,
  (Ok tt, {| redis := delete key (redis w); steps := steps w; trace := trace w |}).

(** *** _invalidate_user_stats_cache *)

Definition _invalidate_user_stats_cache (user_id : Z) : M unit :=
  try_except
    (_ ← tick; del_redis (cache_key user_id))
    pass.

End AnalyticsCache.

Module Metrics.

Definition THIRTY_DAYS : Z := 86400 * 30.
Definition INT64_MAX : Z := 9223372036854775807.

(** *** What Redis holds

    A value is represented by the way the commands used here treat it: a
    string INCR reads as a 64-bit integer, any other string, or a list (head
    first; the worker pushes completion times, kept here by their value). *)

Inductive rvalue :=
| RInt (n : Z)
| RText (s : string)
| RList (l : list Q).

Record entry := { value : rvalue; expires_at : option Z }.

Definition live (now : Z) (e : entry) : bool :=
  match expires_at e with
  | Some t => now <? t
  | None => true
  end.

(* ActionType *)
Module ActionType.
Inductive t :=
| CREATED | UPDATED | STATUS_CHANGED | COMPLETED | CANCELLED | ATTACHMENT_ADDED.
End ActionType.

(* a value of event.changes: the dict of a changed field, with its entries
   kept when they are strings (None for an entry of another type); None
   for a value that is no dict *)
Definition change : Type := option (gmap string (option string)).

(* TaskActivity.metadata, as the three handlers build it *)
Inductive activity_metadata :=
| CreatedMetadata (priority : string) (has_due_date : bool)
    (title_length : nat) (has_description : bool)
| UpdatedMetadata (changes : list (string * change))
    (fields_changed : list string)
| CompletedMetadata (completion_time_hours : Q) (priority : string)
    (was_overdue : option bool) (completion_hour : Z)
    (completion_day_of_week : Z).

Record TaskActivity := {
  activity_task_id : Z;
  activity_user_id : Z;
  action : ActionType.t;
  activity_timestamp : datetime;
  metadata : activity_metadata;
  source : string
}.

Inductive effect :=
(* POST {DB_MONGO_SERVICE_URL}/activities was called with this activity *)
| StoreActivity (activity : TaskActivity)
(* client.delete on {DB_MONGO_SERVICE_URL}/activities/cleanup was called *)
| CleanupRequest (completed_before : datetime) (batch_size : Z)
(* redis.delete with these keys *)
| Deleted (keys : list string).

Record World := {
  redis : gmap string entry;
  steps : nat;
  trace : list effect
}.

Record Env := {
  clock : nat → Z;
  (* status of POST /activities, None when the call raises *)
  mongo_api : nat → option Z;
  (* the cleanup request: None when the call raises, otherwise the status
     and whether the body decodes to a JSON object *)
  cleanup_api : nat → option (Z * bool)
}.

Abbreviation M := (Exec.M World).

Definition tick : M nat := λ w,
  (Ok (steps w), {| redis := redis w; steps := S (steps w); trace := trace w |}).

Definition emit (e : effect) : M unit := λ w,
  (Ok tt, {| redis := redis w; steps := steps w; trace := trace w ++ [e] |}).

Definition get_redis : M (gmap string entry) := λ w, (Ok (redis w), w).

Definition put_redis (r : gmap string entry) : M unit := λ w,
  (Ok tt, {| redis := r; steps := steps w; trace := trace w |}).

(* the entry a command finds under a key: expired entries are gone *)
Definition find (now : Z) (r : gmap string entry) (key : string)
  : option entry :=
  match r !! key with
  | Some e => if live now e then Some e else None
  | None => None
  end.

(* the data types of the events the metrics are drawn from *)
Record TaskCreatedEvent := {
  created_task_id : Z;
  created_user_id : Z;
  created_timestamp : datetime;
  created_task_data : TaskResponse
}.

(* previous_data and new_data are not read by the worker *)
Record TaskUpdatedEvent := {
  updated_task_id : Z;
  updated_user_id : Z;
  updated_timestamp : datetime;
  changes : list (string * change)     (* in the order of the dict *)
}.

Record TaskCompletedEvent := {
  completed_task_id : Z;
  completed_user_id : Z;
  completed_timestamp : datetime;
  completed_task_data : TaskResponse;
  completion_time : datetime
}.

(* metadata.get("completion_time_hours") *)
Definition get_completion_time_hours (m : activity_metadata) : option Q :=
  match m with
  | CompletedMetadata t _ _ _ _ => Some t
  | _ => None
  end.

(* metadata.get("completion_hour") *)
Definition get_completion_hour (m : activity_metadata) : option Z :=
  match m with
  | CompletedMetadata _ _ _ h _ => Some h
  | _ => None
  end.

(* a > b on datetimes; None stands for the TypeError raised when exactly
   one is aware *)
Definition later (a b : datetime) : option bool :=
  match sub a b with
  | Some d => Some (0 <? d)
  | None => None
  end.

(* event.changes.get(key), by the first entry under the key *)
Fixpoint lookup_change (key : string) (changes : list (string * change))
  : option change :=
  match changes with
  | [] => None
  | (k, c) :: rest => if String.eqb k key then Some c else lookup_change key rest
  end.

Record CleanupTasksCommand := {
  completed_before : datetime;
  batch_size : Z
}.

(* TaskPriority.value *)
Definition priority_value (p : TaskPriority) : string :=
  match p with
  | LOW => "low"
  | MEDIUM => "medium"
  | HIGH => "high"
  | URGENT => "urgent"
  end.

(* d.weekday(), Monday being 0, with [wall] counted from 1970-01-01T00:00,
   a Thursday *)
Definition weekday (d : datetime) : Z := (wall d / hours 24 + 3) mod 7.

Section Worker.

Variable env : Env.

Definition utcnow : M datetime :=
  n ← tick; mret (naive (clock env n)).

(** *** Redis commands *)

(* INCR: a missing key counts from 0; a value that is not an integer, or an
   increment past the 64-bit range, is an error *)
Definition redis_incr (key : string) : M Z :=
  n ← tick; r ← get_redis;
  match find (clock env n) r key with
  | None =>
      put_redis (<[key := {| value := RInt 1; expires_at := None |}]> r);;
      mret 1
  | Some e =>
      match value e with
      | RInt v =>
          if v <? INT64_MAX then
            put_redis (<[key := {| value := RInt (v + 1);
                                   expires_at := expires_at e |}]> r);;
            mret (v + 1)
          else raise ValueError
      | RText _ => raise ValueError
      | RList _ => raise TypeError
      end
  end.

(* EXPIRE: sets the time to live of a key that exists *)
Definition redis_expire (key : string) (secs : Z) : M unit :=
  n ← tick; r ← get_redis;
  match find (clock env n) r key with
  | Some e =>
      put_redis (<[key := {| value := value e;
                             expires_at := Some (clock env n + seconds secs) |}]> r)
  | None => pass
  end.

(* LPUSH: a missing key starts an empty list; a value of another type is an
   error *)
Definition redis_lpush (key : string) (x : Q) : M unit :=
  n ← tick; r ← get_redis;
  match find (clock env n) r key with
  | None => put_redis (<[key := {| value := RList [x]; expires_at := None |}]> r)
  | Some e =>
      match value e with
      | RList l =>
          put_redis (<[key := {| value := RList (x :: l);
                                 expires_at := expires_at e |}]> r)
      | _ => raise TypeError
      end
  end.

(* LTRIM key 0 stop: keeps the first stop+1 elements *)
Definition redis_ltrim_head (key : string) (stop : nat) : M unit :=
  n ← tick; r ← get_redis;
  match find (clock env n) r key with
  | None => pass
  | Some e =>
      match value e with
      | RList l =>
          put_redis (<[key := {| value := RList (take (S stop) l);
                                 expires_at := expires_at e |}]> r)
      | _ => raise TypeError
      end
  end.

(* TTL: -2 for a missing key, -1 for a key without expiry, else the
   remaining time in seconds, rounded *)
Definition redis_ttl (key : string) : M Z :=
  n ← tick; r ← get_redis;
  mret (match find (clock env n) r key with
        | Some e =>
            match expires_at e with
            | Some t => (t - clock env n + 500000) / us_per_second
            | None => -1
            end
        | None => -2
        end).

(* scan_iter(match=prefix + "*") *)
Definition scan_iter (prefix : string) : M (list string) :=
  n ← tick; r ← get_redis;
  mret (filter (λ key, String.prefix prefix key = true
                       ∧ is_Some (find (clock env n) r key))
               (map fst (map_to_list r))).

(* redis.delete with all the keys: one command *)
Definition redis_delete_all (keys : list string) : M unit :=
  _ ← tick; r ← get_redis;
  put_redis (foldr delete r keys);;
  emit (Deleted keys).

(** *** _track_creation_patterns *)

Definition creation_hour_key (user_id hour : Z) : string :=
  "creation_pattern:" +:+ pretty user_id +:+ ":hour:" +:+ pretty hour.

Definition creation_day_key (user_id day_of_week : Z) : string :=
  "creation_pattern:" +:+ pretty user_id +:+ ":day:" +:+ pretty day_of_week.

Definition priority_key (user_id : Z) (p : TaskPriority) : string :=
  "priority_pattern:" +:+ pretty user_id +:+ ":" +:+ priority_value p.

Definition _track_creation_patterns (event : TaskCreatedEvent) : M unit :=
  try_except
    (let hour := hour (created_timestamp event) in
     let creation_key := creation_hour_key (created_user_id event) hour in
     redis_incr creation_key;;
     redis_expire creation_key (86400 * 30);;
     let day_of_week := weekday (created_timestamp event) in
     let daily_key := creation_day_key (created_user_id event) day_of_week in
     redis_incr daily_key;;
     redis_expire daily_key (86400 * 30);;
     let priority_key :=
       priority_key (created_user_id event)
         (priority (created_task_data event)) in
     redis_incr priority_key;;
     redis_expire priority_key (86400 * 30))
    pass.

(** *** _update_completion_metrics *)

Definition completion_times_key (user_id : Z) : string :=
  "completion_times:" +:+ pretty user_id.

Definition productive_hour_key (user_id completion_hour : Z) : string :=
  "productive_hour:" +:+ pretty user_id +:+ ":" +:+ pretty completion_hour.

Definition _update_completion_metrics (user_id : Z)
    (activity : TaskActivity) : M unit :=
  try_except
    (let completion_time :=
       default 0%Q (get_completion_time_hours (metadata activity)) in
     let completion_hour :=
       default 0 (get_completion_hour (metadata activity)) in
     let completion_times_key := completion_times_key user_id in
     redis_lpush completion_times_key completion_time;;
     redis_ltrim_head completion_times_key 99;;
     redis_expire completion_times_key (86400 * 30);;
     let productive_hour_key := productive_hour_key user_id completion_hour in
     redis_incr productive_hour_key;;
     redis_expire productive_hour_key (86400 * 30))
    pass.

(** *** _store_activity *)

Definition _store_activity (activity : TaskActivity) : M unit :=
  try_except
    (n ← tick;
     emit (StoreActivity activity);;
     or_raise (mongo_api env n) TransportError;;
     pass)
    pass.

(** *** _invalidate_user_stats_cache *)

Definition user_analytics_key (user_id : Z) : string :=
  "user_analytics:" +:+ pretty user_id.

Definition _invalidate_user_stats_cache (user_id : Z) : M unit :=
  try_except
    (redis_delete_all [user_analytics_key user_id])
    pass.

(** *** _process_task_created_event *)

Definition _process_task_created_event (event : TaskCreatedEvent) : M unit :=
  try_except
    (let task := created_task_data event in
     let activity :=
       {| activity_task_id := created_task_id event;
          activity_user_id := created_user_id event;
          action := ActionType.CREATED;
          activity_timestamp := created_timestamp event;
          metadata :=
            CreatedMetadata (priority_value (priority task))
              (bool_decide (due_date task ≠ None))
              (String.length (title task))
              (match description task with
               | Some d => negb (String.eqb d "")
               | None => false
               end);
          source := "api" |} in
     _store_activity activity;;
     _invalidate_user_stats_cache (created_user_id event);;
     _track_creation_patterns event)
    pass.

(** *** _process_task_updated_event *)

(* "Determine the primary action type" *)
Definition primary_action (changes : list (string * change))
  : M ActionType.t :=
  match lookup_change "status" changes with
  | Some status_change =>
      d ← or_raise status_change TypeError;
      to ← or_raise (d !! "to") KeyError;
      if decide (to = Some "completed") then mret ActionType.COMPLETED
      else if decide (to = Some "cancelled") then mret ActionType.CANCELLED
      else mret ActionType.STATUS_CHANGED
  | None => mret ActionType.UPDATED
  end.

Definition _process_task_updated_event (event : TaskUpdatedEvent) : M unit :=
  try_except
    (action ← primary_action (changes event);
     let activity :=
       {| activity_task_id := updated_task_id event;
          activity_user_id := updated_user_id event;
          action := action;
          activity_timestamp := updated_timestamp event;
          metadata := UpdatedMetadata (changes event) (map fst (changes event));
          source := "api" |} in
     _store_activity activity;;
     _invalidate_user_stats_cache (updated_user_id event))
    pass.

(** *** _process_task_completed_event *)

Definition _process_task_completed_event (event : TaskCompletedEvent)
  : M unit :=
  try_except
    (let task := completed_task_data event in
     let created_at := created_at task in
     let completed_at := completion_time event in
     delta ← or_raise (sub completed_at created_at) TypeError;
     let completion_time_hours := in_hours delta in
     (* event.task_data.due_date and completed_at > event.task_data.due_date *)
     was_overdue ← match due_date task with
                   | Some due => b ← or_raise (later completed_at due) TypeError;
                                 mret (Some b)
                   | None => mret None
                   end;
     let activity :=
       {| activity_task_id := completed_task_id event;
          activity_user_id := completed_user_id event;
          action := ActionType.COMPLETED;
          activity_timestamp := completed_timestamp event;
          metadata :=
            CompletedMetadata completion_time_hours
              (priority_value (priority task)) was_overdue
              (hour completed_at) (weekday completed_at);
          source := "api" |} in
     _store_activity activity;;
     _update_completion_metrics (completed_user_id event) activity;;
     _invalidate_user_stats_cache (completed_user_id event))
    pass.

(** *** _cleanup_old_data *)

Definition cleanup_patterns : list string :=
  ["creation_pattern:"; "completion_times:"; "productive_hour:";
   "priority_pattern:"].

(* the loop over scan_iter that fills expired_keys *)
Fixpoint collect_expired (keys : list string) (expired_keys : list string)
  : M (list string) :=
  match keys with
  | [] => mret expired_keys
  | key :: rest =>
      ttl ← redis_ttl key;
      if ttl =? -1 then collect_expired rest (expired_keys ++ [key])
      else collect_expired rest expired_keys
  end.

(* one turn of `for pattern in cleanup_patterns` *)
Definition cleanup_pattern (prefix : string) : M unit :=
  keys ← scan_iter prefix;
  expired_keys ← collect_expired keys [];
  match expired_keys with
  | [] => pass
  | _ :: _ => redis_delete_all (take 100 expired_keys)
  end.

Definition _cleanup_old_data (command : CleanupTasksCommand) : M unit :=
  try_except
    (n ← tick;
     emit (CleanupRequest (completed_before command) (batch_size command));;
     response ← or_raise (cleanup_api env n) TransportError;
     (if fst response =? 200
      then (if snd response : bool then pass else raise ValueError)
      else pass);;
     cutoff_time ← utcnow;
     for_each cleanup_pattern cleanup_patterns)
    pass.

End Worker.

(** *** Vocabulary for the statements *)

(* the entry under [key] is there and carries no expiry *)
Definition unexpiring (r : gmap string entry) (key : string) : bool :=
  match r !! key with
  | Some e => bool_decide (expires_at e = None)
  | None => false
  end.

(* the three keys [_track_creation_patterns] counts under *)
Definition pattern_keys (event : TaskCreatedEvent) : list string :=
  [creation_hour_key (created_user_id event) (hour (created_timestamp event));
   creation_day_key (created_user_id event) (weekday (created_timestamp event));
   priority_key (created_user_id event) (priority (created_task_data event))].

(* [r'] differs from [r] only under [keys], in counters that carry an
   expiry *)
Definition counters_only (keys : list string) (r r' : gmap string entry)
  : Prop :=
  ∀ k, r' !! k = r !! k
       ∨ (k ∈ keys
          ∧ ∃ v x, r' !! k = Some {| value := RInt v; expires_at := Some x |}).

(* a routine that adds nothing to the trace and leaves the entry under
   [k] alone *)
Definition quiet_on (k : string) {A} (m : M A) : Prop :=
  ∀ w, ∃ o w', m w = (o, w') ∧ trace w' = trace w
               ∧ redis w' !! k = redis w !! k.

(* the activities posted to the store *)
Definition stored (tr : list effect) : list TaskActivity :=
  omap (λ e, match e with StoreActivity a => Some a | _ => None end) tr.

(* an event that was dropped, or recorded and followed by the removal of
   the user's cached statistics *)
Definition recorded_as (act : ActionType.t) (task_id user_id : Z)
    (timestamp : datetime) (w w' : World) : Prop :=
  ∃ activity,
    stored (drop (length (trace w)) (trace w')) = [activity]
    ∧ action activity = act
    ∧ activity_task_id activity = task_id
    ∧ activity_user_id activity = user_id
    ∧ activity_timestamp activity = timestamp
    ∧ redis w' !! user_analytics_key user_id = None.

Definition matches_cleanup_pattern (key : string) : bool :=
  existsb (λ prefix, String.prefix prefix key) cleanup_patterns.

Definition deleted_keys (tr : list effect) : list string :=
  flat_map (λ e, match e with Deleted keys => keys | _ => [] end) tr.

(* what a run added to the trace *)
Definition new_effects (w w' : World) : list effect :=
  drop (length (trace w)) (trace w').

(* a steady clock and a cleanup service that answers *)
Definition steady : Env :=
  {| clock := λ n, seconds (Z.of_nat n);
     mongo_api := λ _, Some 201;
     cleanup_api := λ _, Some (200, true) |}.

Definition fresh : World := {| redis := ∅; steps := 0; trace := [] |}.

Definition sample_created : TaskCreatedEvent :=
  {| created_task_id := 7; created_user_id := 3;
     created_timestamp := naive (hours 9);
     created_task_data := Reminder.sample_task |}.

Definition sample_completed : TaskCompletedEvent :=
  {| completed_task_id := 7; completed_user_id := 3;
     completed_timestamp := naive (hours 9);
     completed_task_data := Reminder.sample_task;
     completion_time := naive (hours 9) |}.

End Metrics.

(** ** More of validate_naming.py: the shape the pattern describes *)

Module NamingViews.
Import Naming.

(* {context}_{domain}_{type}: a non-empty run of a-z, an underscore, a
   non-empty run of a-z and underscores, an underscore, one of the types *)
Definition well_formed_name (l : list ascii) : Prop :=
  ∃ context domain type,
    l = context ++ "_"%char :: domain ++ "_"%char :: chars type
    ∧ context ≠ [] ∧ forallb lower context = true
    ∧ domain ≠ [] ∧ forallb lower_or_underscore domain = true
    ∧ type ∈ service_types.

(* a non-empty run of a-z and underscores *)
Definition plain_name (name : string) : Prop :=
  chars name ≠ [] ∧ forallb lower_or_underscore (chars name) = true.

(* a compose file with an exempt, a conforming and a non-conforming service *)
Definition sample_compose : string :=
  "services:
  redis:
    image: redis
  template_business_api:
    build: .
  billing:
    build: .
".

End NamingViews.

(** ** More of analytics_worker.py: vocabulary for further properties *)

Module AnalyticsViews.
Import Analytics.

(* the activities that close a task: completions and cancellations *)
Definition closings (l : list activity) : list activity :=
  List.filter (λ a, is_completed a || is_cancelled a) l.

(* sum(counts.values()) *)
Definition total_count {K} (counts : list (K * Z)) : Z :=
  fold_right (λ kv acc, snd kv + acc) 0 counts.

(* two tasks, one completed and one cancelled, each closed once *)
Definition tidy_history : list activity :=
  [ {| task_id := 1; action := "created"; timestamp := naive (hours 0);
       priority := Some "high"; was_overdue := false |};
    {| task_id := 2; action := "created"; timestamp := naive (hours 1);
       priority := None; was_overdue := false |};
    {| task_id := 1; action := "completed"; timestamp := naive (hours 2);
       priority := None; was_overdue := true |};
    {| task_id := 2; action := "cancelled"; timestamp := naive (hours 3);
       priority := None; was_overdue := false |} ].

(* a priority a task can be filed under: the default or one recorded at creation *)
Definition priority_from (acts : list activity) (k : string) : Prop :=
  k = "medium" ∨ ∃ a, a ∈ acts ∧ is_created a = true ∧ priority a = Some k.

End AnalyticsViews.

(** * Properties *)

Module NamingFacts.
Import Naming.

(** **** The matcher decides the language of the expression *)

Lemma nullable_denotes r : nullable r = true ↔ denotes r [].
Proof.
  induction r as [| |p|r1 IH1 r2 IH2|r1 IH1 r2 IH2|r IH]; simpl.
  - split; [done|]. inversion 1.
  - split; [constructor|done].
  - split; [done|]. inversion 1.
  - rewrite andb_true_iff, IH1, IH2. split.
    + intros [H1 H2]. by apply (denotes_cat r1 r2 [] []).
    + intros H. remember (Cat r1 r2) as r eqn:Hr. remember [] as s eqn:Hs.
      destruct H as [| |? ? s1 s2 H1 H2| | | |]; try discriminate.
      injection Hr as -> ->. apply app_eq_nil in Hs as [-> ->]. done.
  - rewrite orb_true_iff, IH1, IH2. split.
    + intros [H|H]; [by apply denotes_alt_l|by apply denotes_alt_r].
    + inversion 1; subst; auto.
  - split; [constructor|done].
Qed.

Lemma denotes_star_cons c r s :
  denotes (Star r) (c :: s) →
  ∃ s1 s2, s = s1 ++ s2 ∧ denotes r (c :: s1) ∧ denotes (Star r) s2.
Proof.
  intros H. remember (Star r) as r' eqn:Hr. remember (c :: s) as cs eqn:Hcs.
  induction H as [| | | | | |r0 s1 s2 H1 _ H2 IH2]; try discriminate.
  injection Hr as ->. destruct s1 as [|c1 s1]; simpl in Hcs.
  - by apply IH2.
  - injection Hcs as -> <-. by exists s1, s2.
Qed.

Lemma deriv_denotes c r : ∀ s, denotes (deriv c r) s ↔ denotes r (c :: s).
Proof.
  induction r as [| |p|r1 IH1 r2 IH2|r1 IH1 r2 IH2|r IH]; intros s; simpl.
  - split; inversion 1.
  - split; inversion 1.
  - destruct (p c) eqn:Hp; split; inversion 1; subst.
    + by constructor.
    + constructor.
    + congruence.
  - assert (denotes (Cat (deriv c r1) r2) s
            ↔ ∃ s1 s2, s = s1 ++ s2 ∧ denotes r1 (c :: s1) ∧ denotes r2 s2) as Hcat.
    { split.
      - intros H. remember (Cat (deriv c r1) r2) as r eqn:Hr.
        destruct H as [| |? ? s1 s2 H1 H2| | | |]; try discriminate.
        injection Hr as -> ->. exists s1, s2. by rewrite <- IH1.
      - intros (s1 & s2 & -> & H1 & H2). constructor; [by apply IH1|done]. }
    assert (denotes (Cat r1 r2) (c :: s)
            ↔ (∃ s1 s2, s = s1 ++ s2 ∧ denotes r1 (c :: s1) ∧ denotes r2 s2)
              ∨ (denotes r1 [] ∧ denotes r2 (c :: s))) as Hsplit.
    { split.
      - intros H. remember (Cat r1 r2) as r eqn:Hr.
        remember (c :: s) as cs eqn:Heq.
        destruct H as [| |? ? s1 s2 H1 H2| | | |]; try discriminate.
        injection Hr as -> ->.
        destruct s1 as [|c1 s1]; simpl in Heq.
        + right. by subst.
        + injection Heq as -> <-. left. by exists s1, s2.
      - intros [(s1 & s2 & -> & H1 & H2)|[H1 H2]].
        + by apply (denotes_cat r1 r2 (c :: s1) s2).
        + by apply (denotes_cat r1 r2 [] (c :: s)). }
    rewrite Hsplit. destruct (nullable r1) eqn:Hnull.
    + apply nullable_denotes in Hnull. split.
      * inversion 1; subst; [left; by apply Hcat|right; by rewrite <- IH2].
      * intros [H|[_ H]]; [apply denotes_alt_l; by apply Hcat|].
        apply denotes_alt_r. by apply IH2.
    + rewrite Hcat. split; [by left|]. intros [H|[H _]]; [done|].
      apply nullable_denotes in H. congruence.
  - split.
    + inversion 1; subst; [apply denotes_alt_l; by apply IH1|].
      apply denotes_alt_r; by apply IH2.
    + inversion 1; subst; [apply denotes_alt_l; by apply IH1|].
      apply denotes_alt_r; by apply IH2.
  - split.
    + intros H. remember (Cat (deriv c r) (Star r)) as r' eqn:Hr.
      destruct H as [| |? ? s1 s2 H1 H2| | | |]; try discriminate.
      injection Hr as -> ->.
      apply (denotes_star_more r (c :: s1) s2); [by apply IH|done].
    + intros (s1 & s2 & -> & H1 & H2)%denotes_star_cons.
      constructor; [by apply IH|done].
Qed.

Lemma accepts_denotes s : ∀ r, accepts r s = true ↔ denotes r s.
Proof.
  unfold accepts. induction s as [|c s IH]; intros r; simpl.
  - apply nullable_denotes.
  - by rewrite IH, deriv_denotes.
Qed.

(* the names the script's own messages give as examples *)
Example documented_names_match :
  Forall (λ name, VALID_SERVICE_PATTERN name = true)
    ["template_business_api"; "finance_lending_api";
     "healthcare_telemedicine_bot"].
Proof. repeat constructor. Qed.

Lemma compose_names_acc lines : ∀ b ns,
  fold_left compose_names lines (b, ns)
  = (fst (fold_left compose_names lines (b, [])),
     ns ++ snd (fold_left compose_names lines (b, []))).
Proof.
  induction lines as [|line lines IH]; intros b ns; simpl.
  - by rewrite app_nil_r.
  - destruct (startswith (strip line) "services:"); [apply IH|].
    set (b' := if b && negb (String.eqb line "") && negb (first_is_space line)
               then false else b).
    destruct (b' && startswith line "  " && negb (startswith line "    "));
      [destruct (compose_service line) as [svc|]|]; try apply IH.
    rewrite (IH b' (ns ++ [svc])), (IH b' [svc]).
    simpl. by rewrite <- app_assoc.
Qed.

Lemma fold_left_appending {A B} (step : list B → A → list B) (g : A → list B) :
  (∀ acc a, step acc a = acc ++ g a) →
  ∀ l acc, fold_left step l acc = acc ++ flat_map g l.
Proof.
  intros Hstep l. induction l as [|a l IH]; intros acc; simpl.
  - by rewrite app_nil_r.
  - by rewrite IH, Hstep, <- app_assoc.
Qed.

Lemma elem_of_flat_map {A B} (g : A → list B) (l : list A) (b : B) :
  b ∈ flat_map g l ↔ ∃ a, a ∈ l ∧ b ∈ g a.
Proof.
  rewrite list_elem_of_In, in_flat_map. split; intros (a & Ha & Hb); exists a.
  - by rewrite !list_elem_of_In.
  - by rewrite <- !list_elem_of_In.
Qed.

(** **** docker-compose *)

Lemma compose_line_names fname lines : ∀ b errs,
  fold_left (compose_line fname) lines (b, errs)
  = (fst (fold_left compose_names lines (b, [])),
     errs ++ flat_map (compose_flag fname)
               (snd (fold_left compose_names lines (b, [])))).
Proof.
  induction lines as [|line lines IH]; intros b errs; simpl.
  - by rewrite app_nil_r.
  - destruct (startswith (strip line) "services:"); [apply IH|].
    set (b' := if b && negb (String.eqb line "") && negb (first_is_space line)
               then false else b).
    destruct (b' && startswith line "  " && negb (startswith line "    "));
      [destruct (compose_service line) as [svc|]|]; try apply IH.
    rewrite (compose_names_acc lines b' [svc]). simpl.
    assert (compose_flag fname svc
            = if is_infrastructure svc then []
              else if negb (VALID_SERVICE_PATTERN svc) then [(fname, svc)]
                   else []) as -> by done.
    destruct (is_infrastructure svc); [apply IH|].
    destruct (negb (VALID_SERVICE_PATTERN svc)); rewrite IH; [|done].
    by rewrite <- app_assoc.
Qed.

Lemma compose_file_appends errs f :
  compose_file errs f = errs ++ compose_file_errors f.
Proof.
  unfold compose_file, compose_file_errors, compose_services.
  destruct (snd f); [done|]. by rewrite compose_line_names.
Qed.

Lemma elem_of_compose_flag fname name x :
  x ∈ compose_flag fname name ↔
    x = (fname, name) ∧ is_infrastructure name = false
    ∧ VALID_SERVICE_PATTERN name = false.
Proof.
  unfold compose_flag.
  destruct (is_infrastructure name), (VALID_SERVICE_PATTERN name); simpl;
    rewrite ?list_elem_of_singleton, ?elem_of_nil; naive_solver.
Qed.

Lemma elem_of_check_docker_compose_files t fname name :
  (fname, name) ∈ check_docker_compose_files t ↔
  ∃ files f, compose_files t = Some files ∧ (fname, f) ∈ files ∧
    match f with
    | Unreadable e => name = reading_error e
    | Content body =>
        name ∈ compose_services body
        ∧ is_infrastructure name = false
        ∧ VALID_SERVICE_PATTERN name = false
    end.
Proof.
  unfold check_docker_compose_files.
  destruct (compose_files t) as [files|]; [|rewrite elem_of_nil; naive_solver].
  rewrite (fold_left_appending _ _ compose_file_appends). simpl.
  rewrite elem_of_flat_map. split.
  - intros ([fn f] & Hin & Hx). exists files. unfold compose_file_errors in Hx.
    simpl in Hx. destruct f as [e|body].
    + apply list_elem_of_singleton in Hx. injection Hx as -> ->. by exists (Unreadable e).
    + apply elem_of_flat_map in Hx as (n & Hn & Hx).
      apply elem_of_compose_flag in Hx as (Heq & ? & ?).
      injection Heq as -> ->. by exists (Content body).
  - intros (files' & f & [= <-] & Hin & Hf). exists (fname, f). split; [done|].
    unfold compose_file_errors. simpl. destruct f as [e|body].
    + subst. apply list_elem_of_singleton. done.
    + destruct Hf as (Hn & ? & ?). apply elem_of_flat_map. exists name.
      split; [done|]. by apply elem_of_compose_flag.
Qed.

(** **** nginx *)

Lemma nginx_upstream_appends fname errs name :
  nginx_upstream fname errs name = errs ++ nginx_flag fname name.
Proof.
  unfold nginx_upstream, nginx_flag.
  destruct (is_infrastructure name || endswith name "_management");
    [by rewrite app_nil_r|].
  destruct (negb (VALID_SERVICE_PATTERN name)); [done|by rewrite app_nil_r].
Qed.

Lemma nginx_file_appends errs f :
  nginx_file errs f = errs ++ nginx_file_errors f.
Proof.
  unfold nginx_file, nginx_file_errors. destruct (snd f); [done|].
  apply fold_left_appending, nginx_upstream_appends.
Qed.

Lemma elem_of_nginx_flag fname name x :
  x ∈ nginx_flag fname name ↔
    x = (fname, name) ∧ is_infrastructure name = false
    ∧ endswith name "_management" = false
    ∧ VALID_SERVICE_PATTERN name = false.
Proof.
  unfold nginx_flag.
  destruct (is_infrastructure name), (endswith name "_management"),
    (VALID_SERVICE_PATTERN name); simpl;
    rewrite ?list_elem_of_singleton, ?elem_of_nil; naive_solver.
Qed.

Lemma elem_of_check_nginx_configs t fname name :
  (fname, name) ∈ check_nginx_configs t ↔
  ∃ files f, nginx_files t = Some files ∧ (fname, f) ∈ files ∧
    match f with
    | Unreadable e => name = reading_error e
    | Content body =>
        name ∈ upstreams true 0 (chars body)
        ∧ is_infrastructure name = false
        ∧ endswith name "_management" = false
        ∧ VALID_SERVICE_PATTERN name = false
    end.
Proof.
  unfold check_nginx_configs.
  destruct (nginx_files t) as [files|]; [|rewrite elem_of_nil; naive_solver].
  rewrite (fold_left_appending _ _ nginx_file_appends). simpl.
  rewrite elem_of_flat_map. split.
  - intros ([fn f] & Hin & Hx). exists files. unfold nginx_file_errors in Hx.
    simpl in Hx. destruct f as [e|body].
    + apply list_elem_of_singleton in Hx. injection Hx as -> ->. by exists (Unreadable e).
    + apply elem_of_flat_map in Hx as (n & Hn & Hx).
      apply elem_of_nginx_flag in Hx as (Heq & ? & ? & ?).
      injection Heq as -> ->. by exists (Content body).
  - intros (files' & f & [= <-] & Hin & Hf). exists (fname, f). split; [done|].
    unfold nginx_file_errors. simpl. destruct f as [e|body].
    + subst. apply list_elem_of_singleton. done.
    + destruct Hf as (Hn & ? & ? & ?). apply elem_of_flat_map. exists name.
      split; [done|]. by apply elem_of_nginx_flag.
Qed.

(** **** Makefile *)

Lemma makefile_service_appends errs piece :
  makefile_service errs piece = errs ++ makefile_flag piece.
Proof.
  unfold makefile_service, makefile_flag.
  destruct (negb (String.eqb (strip piece) "")
            && negb (VALID_SERVICE_PATTERN (strip piece)));
    [done|by rewrite app_nil_r].
Qed.

Lemma makefile_group_appends errs group :
  makefile_group errs group
  = errs ++ flat_map makefile_flag (split ","%char group).
Proof. apply fold_left_appending, makefile_service_appends. Qed.

Lemma elem_of_makefile_flag piece x :
  x ∈ makefile_flag piece ↔
    x = ("Makefile", strip piece) ∧ strip piece ≠ ""
    ∧ VALID_SERVICE_PATTERN (strip piece) = false.
Proof.
  unfold makefile_flag.
  destruct (String.eqb_spec (strip piece) ""),
    (VALID_SERVICE_PATTERN (strip piece)); simpl;
    rewrite ?list_elem_of_singleton, ?elem_of_nil; naive_solver.
Qed.

Lemma elem_of_check_makefile t fname name :
  (fname, name) ∈ check_makefile t ↔
  fname = "Makefile" ∧
    match makefile t with
    | None => False
    | Some (Unreadable e) => name = reading_error e
    | Some (Content body) =>
        name ∈ makefile_references body
        ∧ name ≠ ""
        ∧ VALID_SERVICE_PATTERN name = false
    end.
Proof.
  unfold check_makefile, makefile_references.
  destruct (makefile t) as [[e|body]|].
  - rewrite list_elem_of_singleton. naive_solver.
  - rewrite (fold_left_appending _ _ makefile_group_appends). simpl.
    rewrite elem_of_flat_map. split.
    + intros (group & Hg & Hx). apply elem_of_flat_map in Hx as (piece & Hp & Hx).
      apply elem_of_makefile_flag in Hx as ([= -> ->] & ? & ?).
      repeat split; try done. apply list_elem_of_fmap. exists piece.
      split; [done|]. apply elem_of_flat_map. eauto.
    + intros (-> & Hn & Hne & Hv).
      apply list_elem_of_fmap in Hn as (piece & -> & Hp).
      apply elem_of_flat_map in Hp as (group & Hg & Hp).
      exists group. split; [done|]. apply elem_of_flat_map. exists piece.
      split; [done|]. by apply elem_of_makefile_flag.
  - rewrite elem_of_nil. naive_solver.
Qed.

(** **** main *)

Lemma main_exit_code t :
  main t = (if decide (all_errors t = []) then 0 else 1).
Proof. unfold main. by destruct (all_errors t). Qed.

Lemma all_errors_nil t :
  all_errors t = [] ↔
    check_docker_compose_files t = [] ∧ check_nginx_configs t = []
    ∧ check_makefile t = [].
Proof.
  unfold all_errors, tagged. split.
  - intros H. apply app_eq_nil in H as [H1 H]. apply app_eq_nil in H as [H2 H3].
    apply fmap_nil_inv in H1, H2, H3. done.
  - by intros (-> & -> & ->).
Qed.

(** C6, as stated, fails on the Makefile check: [redis] is one of the
    INFRASTRUCTURE_SERVICES, yet a Makefile that lists it under
    [services/{...}] has it reported as a violation and [main] returns 1. *)
Lemma makefile_flags_infrastructure_service :
  is_infrastructure "redis" = true
  ∧ check_makefile redis_in_makefile = [("Makefile", "redis")]
  ∧ main redis_in_makefile = 1.
Proof. by vm_compute. Qed.

(** C6, amended.  What the three checks report, and the exit code.
    - A service name read from a docker-compose file is reported iff it is
      not in INFRASTRUCTURE_SERVICES and does not match the pattern.
    - An nginx upstream name is reported iff it is not in
      INFRASTRUCTURE_SERVICES, does not end in [_management] and does not
      match the pattern.
    - A Makefile service reference is reported iff it is non-empty once
      stripped and does not match the pattern; INFRASTRUCTURE_SERVICES is
      not consulted there.
    - A file that cannot be read is reported too.
    - [main] returns 1 when anything was reported and 0 otherwise. *)
Theorem naming_lint_reports (t : templates) :
  (∀ fname name,
     (fname, name) ∈ check_docker_compose_files t ↔
     ∃ files f, compose_files t = Some files ∧ (fname, f) ∈ files ∧
       match f with
       | Unreadable e => name = reading_error e
       | Content body =>
           name ∈ compose_services body
           ∧ is_infrastructure name = false
           ∧ VALID_SERVICE_PATTERN name = false
       end)
  ∧ (∀ fname name,
       (fname, name) ∈ check_nginx_configs t ↔
       ∃ files f, nginx_files t = Some files ∧ (fname, f) ∈ files ∧
         match f with
         | Unreadable e => name = reading_error e
         | Content body =>
             name ∈ upstreams true 0 (chars body)
             ∧ is_infrastructure name = false
             ∧ endswith name "_management" = false
             ∧ VALID_SERVICE_PATTERN name = false
         end)
  ∧ (∀ fname name,
       (fname, name) ∈ check_makefile t ↔
       fname = "Makefile" ∧
         match makefile t with
         | None => False
         | Some (Unreadable e) => name = reading_error e
         | Some (Content body) =>
             name ∈ makefile_references body
             ∧ name ≠ ""
             ∧ VALID_SERVICE_PATTERN name = false
         end)
  ∧ (main t = 1 ↔
       check_docker_compose_files t ≠ [] ∨ check_nginx_configs t ≠ []
       ∨ check_makefile t ≠ [])
  ∧ (main t = 0 ↔
       check_docker_compose_files t = [] ∧ check_nginx_configs t = []
       ∧ check_makefile t = []).
Proof.
  split; [intros; apply elem_of_check_docker_compose_files|].
  split; [intros; apply elem_of_check_nginx_configs|].
  split; [intros; apply elem_of_check_makefile|].
  rewrite main_exit_code, <- all_errors_nil.
  destruct (decide (all_errors t = [])) as [Hnil|Hcons].
  - split; [|done]. split; [done|]. apply all_errors_nil in Hnil.
    naive_solver.
  - split; [|split; [done|by intros ?]]. split; [|done]. intros _.
    destruct (check_docker_compose_files t) eqn:E1; [|by left].
    destruct (check_nginx_configs t) eqn:E2; [|by right; left].
    destruct (check_makefile t) eqn:E3; [|by right; right].
    exfalso. apply Hcons. unfold all_errors. by rewrite E1, E2, E3.
Qed.

End NamingFacts.

Module AnalyticsFacts.
Import Analytics.

(** **** The inner loop *)

Lemma created_not_completed a : is_created a = true → is_completed a = false.
Proof.
  unfold is_created, is_completed. intros H%String.eqb_eq. by rewrite H.
Qed.

Lemma completed_not_cancelled a : is_completed a = true → is_cancelled a = false.
Proof.
  unfold is_cancelled, is_completed. intros H%String.eqb_eq. by rewrite H.
Qed.

Lemma created_not_cancelled a : is_created a = true → is_cancelled a = false.
Proof.
  unfold is_cancelled, is_created. intros H%String.eqb_eq. by rewrite H.
Qed.

(* what one task's activities add to the counters *)
Lemma scan_task_ok l : ∀ created prio t,
  Forall comparable (pairs_in created l) →
  ∃ prio' t',
    scan_task l created prio t = Ok (prio', t')
    ∧ n_total t' = n_total t
    ∧ n_completed t' = n_completed t + Z.of_nat (length (completions l))
    ∧ n_cancelled t' = n_cancelled t + Z.of_nat (length (cancellations l))
    ∧ n_overdue t' = n_overdue t + Z.of_nat (length (overdue_completions l))
    ∧ completion_times t'
      = completion_times t ++ map duration (pairs_in created l)
    ∧ completion_hours t' = completion_hours t ++ map hour_of (completions l)
    ∧ priority_counts t' = priority_counts t.
Proof.
  induction l as [|a l IH]; intros created prio t Hcmp.
  - exists prio, t. simpl. rewrite !app_nil_r. repeat split; lia.
  - simpl in *. unfold completions, cancellations, overdue_completions. simpl.
    fold (is_created a) (is_completed a) (is_cancelled a).
    destruct (is_created a) eqn:Hcr.
    { rewrite (created_not_completed a Hcr), (created_not_cancelled a Hcr). simpl.
      apply IH. done. }
    destruct (is_completed a) eqn:Hco.
    { rewrite (completed_not_cancelled a Hco).
      destruct created as [c|].
      - inversion Hcmp as [|? ? [td Htd] Hrest]; subst. simpl in Htd. rewrite Htd.
        destruct (IH (Some c) prio
          {| n_total := n_total t; n_completed := n_completed t + 1;
             n_cancelled := n_cancelled t;
             n_overdue := if was_overdue a then n_overdue t + 1 else n_overdue t;
             completion_times := completion_times t ++ [in_hours td];
             completion_hours := completion_hours t ++ [hour (timestamp a)];
             priority_counts := priority_counts t |} Hrest)
          as (prio' & t' & -> & H1 & H2 & H3 & H4 & H5 & H6 & H7).
        exists prio', t'. simpl in *. split; [done|].
        unfold duration at 1. simpl. rewrite Htd. simpl.
        rewrite H1, H2, H3, H4, H5, H6, H7, <- !app_assoc. simpl.
        unfold completions, cancellations, overdue_completions.
        repeat split; try done; destruct (was_overdue a); simpl; lia.
      - destruct (IH None prio
          {| n_total := n_total t; n_completed := n_completed t + 1;
             n_cancelled := n_cancelled t;
             n_overdue := if was_overdue a then n_overdue t + 1 else n_overdue t;
             completion_times := completion_times t;
             completion_hours := completion_hours t ++ [hour (timestamp a)];
             priority_counts := priority_counts t |} Hcmp)
          as (prio' & t' & -> & H1 & H2 & H3 & H4 & H5 & H6 & H7).
        exists prio', t'. simpl in *. split; [done|].
        rewrite H1, H2, H3, H4, H5, H6, H7, <- !app_assoc. simpl.
        unfold completions, cancellations, overdue_completions.
        repeat split; try done; destruct (was_overdue a); simpl; lia. }
    destruct (is_cancelled a) eqn:Hca.
    + destruct (IH created prio
          {| n_total := n_total t; n_completed := n_completed t;
             n_cancelled := n_cancelled t + 1;
             n_overdue := n_overdue t;
             completion_times := completion_times t;
             completion_hours := completion_hours t;
             priority_counts := priority_counts t |} Hcmp)
          as (prio' & t' & -> & H1 & H2 & H3 & H4 & H5 & H6 & H7).
      exists prio', t'. simpl in *. split; [done|].
      rewrite H1, H2, H3, H4, H5, H6, H7.
      unfold completions, cancellations, overdue_completions.
      repeat split; try done; lia.
    + simpl. apply IH. done.
Qed.

Lemma scan_task_comparable l : ∀ created prio t r,
  scan_task l created prio t = Ok r → Forall comparable (pairs_in created l).
Proof.
  induction l as [|a l IH]; intros created prio t r; simpl; [by constructor|].
  fold (is_created a) (is_completed a) (is_cancelled a).
  destruct (is_created a); [by apply IH|].
  destruct (is_completed a).
  - destruct created as [c|].
    + destruct (sub (timestamp a) c) as [td|] eqn:Htd; [|done].
      intros H%IH. constructor; [by exists td|done].
    + apply IH.
  - destruct (is_cancelled a); apply IH.
Qed.

(** **** The outer loop *)

Lemma completions_app l l' : completions (l ++ l') = completions l ++ completions l'.
Proof. apply List.filter_app. Qed.

Lemma cancellations_app l l' :
  cancellations (l ++ l') = cancellations l ++ cancellations l'.
Proof. apply List.filter_app. Qed.

Lemma overdue_completions_app l l' :
  overdue_completions (l ++ l') = overdue_completions l ++ overdue_completions l'.
Proof. apply List.filter_app. Qed.

Lemma scan_groups_ok groups : ∀ t,
  Forall comparable (pairs_of_groups groups) →
  ∃ t',
    scan_groups groups t = Ok t'
    ∧ n_total t' = n_total t + Z.of_nat (length groups)
    ∧ n_completed t'
      = n_completed t + Z.of_nat (length (completions (members groups)))
    ∧ n_cancelled t'
      = n_cancelled t + Z.of_nat (length (cancellations (members groups)))
    ∧ completion_times t'
      = completion_times t ++ map duration (pairs_of_groups groups)
    ∧ completion_hours t'
      = completion_hours t ++ map hour_of (completions (members groups)).
Proof.
  induction groups as [|[k l] groups IH]; intros t Hcmp.
  - exists t. simpl. rewrite !app_nil_r. repeat split; lia.
  - unfold pairs_of_groups in Hcmp. simpl in Hcmp.
    apply Forall_app in Hcmp as [Hl Hrest]. simpl.
    edestruct (scan_task_ok l None "medium") as
      (prio' & t1 & -> & H1 & H2 & H3 & _ & H5 & H6 & _); [exact Hl|].
    edestruct IH as (t' & -> & G1 & G2 & G3 & G5 & G6); [exact Hrest|].
    exists t'. simpl in *. split; [done|].
    unfold members, pairs_of_groups in *. simpl.
    rewrite completions_app, cancellations_app, !length_app, !map_app.
    rewrite G1, G2, G3, G5, G6, H1, H2, H3, H5, H6, <- !app_assoc.
    repeat split; lia.
Qed.

Lemma scan_groups_comparable groups : ∀ t t',
  scan_groups groups t = Ok t' → Forall comparable (pairs_of_groups groups).
Proof.
  induction groups as [|[k l] groups IH]; intros t t'; simpl; [by constructor|].
  destruct (scan_task l None "medium" _) as [[prio t1]|e] eqn:Hl; [|done].
  intros Hrest%IH. unfold pairs_of_groups. simpl. apply Forall_app. split; [|done].
  by eapply scan_task_comparable.
Qed.

(** **** Grouping by task *)

Lemma group_by_task_snoc acts a :
  group_by_task (acts ++ [a]) = append_to (task_id a) a (group_by_task acts).
Proof. unfold group_by_task. by rewrite fold_left_app. Qed.

Lemma group_of_append_to tid k a groups :
  group_of tid (append_to k a groups)
  = if decide (k = tid) then group_of tid groups ++ [a] else group_of tid groups.
Proof.
  induction groups as [|[k' l] groups IH]; simpl.
  - repeat case_decide; done.
  - destruct (decide (k' = k)) as [->|Hne]; simpl.
    + repeat case_decide; done.
    + rewrite IH. repeat case_decide; congruence.
Qed.

Lemma of_task_snoc tid acts a :
  of_task tid (acts ++ [a])
  = of_task tid acts ++ (if decide (task_id a = tid) then [a] else []).
Proof.
  unfold of_task. rewrite List.filter_app. simpl.
  by case_bool_decide; case_decide.
Qed.

Lemma group_of_group_by_task tid acts :
  group_of tid (group_by_task acts) = of_task tid acts.
Proof.
  induction acts as [|a acts IH] using rev_ind; [done|].
  rewrite group_by_task_snoc, group_of_append_to, of_task_snoc, IH.
  case_decide; [done|by rewrite app_nil_r].
Qed.

Lemma members_append_to k a groups :
  members (append_to k a groups) ≡ₚ members groups ++ [a].
Proof.
  unfold members. induction groups as [|[k' l] groups IH]; simpl; [done|].
  case_decide; simpl.
  - rewrite <- !app_assoc. apply Permutation_app_head, Permutation_app_comm.
  - by rewrite IH, app_assoc.
Qed.

Lemma members_group_by_task acts : members (group_by_task acts) ≡ₚ acts.
Proof.
  induction acts as [|a acts IH] using rev_ind; [done|].
  by rewrite group_by_task_snoc, members_append_to, IH.
Qed.

Lemma keys_append_to k a groups :
  map fst (append_to k a groups)
  = if decide (k ∈ map fst groups) then map fst groups else map fst groups ++ [k].
Proof.
  induction groups as [|[k' l] groups IH]; simpl.
  - destruct (decide (k ∈ [])) as [H|]; [by apply elem_of_nil in H|done].
  - destruct (decide (k' = k)) as [->|Hne]; simpl.
    + destruct (decide (k ∈ k :: map fst groups)) as [|H]; [done|].
      exfalso. apply H. left.
    + rewrite IH.
      destruct (decide (k ∈ map fst groups)) as [Hin|Hin],
        (decide (k ∈ k' :: map fst groups)) as [Hin'|Hin']; try done.
      * exfalso. apply Hin'. by right.
      * apply elem_of_cons in Hin' as [->|?]; done.
Qed.

Lemma keys_group_by_task acts :
  NoDup (map fst (group_by_task acts))
  ∧ ∀ k, k ∈ map fst (group_by_task acts) ↔ k ∈ map task_id acts.
Proof.
  induction acts as [|a acts [IHnd IHin]] using rev_ind.
  - split; [constructor|done].
  - rewrite group_by_task_snoc, keys_append_to, map_app. simpl.
    case_decide as Hk.
    + split; [done|]. intros k. rewrite elem_of_app, <- IHin. set_solver.
    + split.
      * apply NoDup_app. split; [done|]. split; [set_solver|apply NoDup_singleton].
      * intros k. rewrite !elem_of_app, <- IHin. done.
Qed.

Lemma length_group_by_task acts :
  length (group_by_task acts) = length (distinct_tasks acts).
Proof.
  destruct (keys_group_by_task acts) as [Hnd Hin].
  rewrite <- (length_map fst). apply Permutation_length.
  apply NoDup_Permutation; [done|apply NoDup_remove_dups|].
  intros k. unfold distinct_tasks. by rewrite Hin, elem_of_remove_dups.
Qed.

(** **** Matching creations *)

Lemma final_created_snoc l : ∀ created a,
  final_created created (l ++ [a])
  = if is_created a then Some (timestamp a) else final_created created l.
Proof. induction l as [|b l IH]; intros created a; simpl; [done|apply IH]. Qed.

Lemma pairs_in_snoc l : ∀ created a,
  pairs_in created (l ++ [a])
  = pairs_in created l
    ++ (if is_completed a then
          match final_created created l with
          | Some c => [(c, timestamp a)]
          | None => []
          end
        else []).
Proof.
  induction l as [|b l IH]; intros created a; simpl.
  - destruct (is_created a) eqn:Hcr.
    + by rewrite (created_not_completed a Hcr).
    + destruct (is_completed a); [by destruct created|done].
  - destruct (is_created b); [apply IH|].
    destruct (is_completed b); [|apply IH].
    destruct created; simpl; by rewrite IH.
Qed.

Lemma final_created_of_task tid acts :
  final_created None (of_task tid acts) = latest_creation tid (rev acts).
Proof.
  induction acts as [|a acts IH] using rev_ind; [done|].
  rewrite of_task_snoc, rev_app_distr. simpl.
  case_decide as Ht.
  - rewrite final_created_snoc, IH. by rewrite bool_decide_eq_true_2.
  - by rewrite app_nil_r, IH, bool_decide_eq_false_2.
Qed.

Lemma completion_pairs_from_snoc l : ∀ earlier a,
  completion_pairs_from earlier (l ++ [a])
  = completion_pairs_from earlier l ++ completion_pair (rev l ++ earlier) a.
Proof.
  induction l as [|b l IH]; intros earlier a; simpl.
  - by rewrite app_nil_r.
  - by rewrite IH, <- !app_assoc.
Qed.

Lemma pairs_of_groups_append_to k a groups :
  pairs_of_groups (append_to k a groups)
  ≡ₚ pairs_of_groups groups
     ++ (if is_completed a then
           match final_created None (group_of k groups) with
           | Some c => [(c, timestamp a)]
           | None => []
           end
         else []).
Proof.
  unfold pairs_of_groups.
  induction groups as [|[k' l] groups IH]; simpl.
  - rewrite app_nil_r. destruct (is_created a) eqn:Hcr.
    + by rewrite (created_not_completed a Hcr).
    + by destruct (is_completed a).
  - case_decide; simpl.
    + rewrite pairs_in_snoc, <- !app_assoc.
      apply Permutation_app_head, Permutation_app_comm.
    + by rewrite IH, app_assoc.
Qed.

Lemma pairs_of_groups_group_by_task acts :
  pairs_of_groups (group_by_task acts) ≡ₚ completion_pairs acts.
Proof.
  induction acts as [|a acts IH] using rev_ind; [done|].
  unfold completion_pairs in *.
  rewrite group_by_task_snoc, pairs_of_groups_append_to,
    completion_pairs_from_snoc, app_nil_r, IH.
  apply Permutation_app_head. unfold completion_pair.
  by rewrite group_of_group_by_task, final_created_of_task.
Qed.

(** **** Counting by hour *)

Lemma count_for_bump h x counts :
  count_for h (bump x counts)
  = if decide (x = h) then count_for h counts + 1 else count_for h counts.
Proof.
  induction counts as [|[k n] counts IH]; simpl.
  - repeat case_decide; done.
  - destruct (decide (k = x)) as [->|Hne]; simpl.
    + repeat case_decide; done.
    + rewrite IH. repeat case_decide; congruence.
Qed.

Lemma keys_bump (x : Z) counts :
  map fst (bump x counts)
  = if decide (x ∈ map fst counts) then map fst counts else map fst counts ++ [x].
Proof.
  induction counts as [|[k n] counts IH]; simpl.
  - destruct (decide (x ∈ [])) as [H|]; [by apply elem_of_nil in H|done].
  - destruct (decide (k = x)) as [->|Hne]; simpl.
    + destruct (decide (x ∈ x :: map fst counts)) as [|H]; [done|].
      exfalso. apply H. left.
    + rewrite IH.
      destruct (decide (x ∈ map fst counts)) as [Hin|Hin],
        (decide (x ∈ k :: map fst counts)) as [Hin'|Hin']; try done.
      * exfalso. apply Hin'. by right.
      * apply elem_of_cons in Hin' as [->|?]; done.
Qed.

Lemma hour_counts_snoc hs x : hour_counts (hs ++ [x]) = bump x (hour_counts hs).
Proof. unfold hour_counts. by rewrite fold_left_app. Qed.

Lemma occurrences_snoc h hs x :
  occurrences h (hs ++ [x])
  = if decide (x = h) then occurrences h hs + 1 else occurrences h hs.
Proof.
  unfold occurrences. rewrite count_occ_app. simpl.
  destruct (Z.eq_dec x h), (decide (x = h)); try done; lia.
Qed.

Lemma count_for_hour_counts h hs : count_for h (hour_counts hs) = occurrences h hs.
Proof.
  induction hs as [|x hs IH] using rev_ind; [done|].
  by rewrite hour_counts_snoc, count_for_bump, occurrences_snoc, IH.
Qed.

Lemma keys_hour_counts hs :
  NoDup (map fst (hour_counts hs))
  ∧ ∀ h, h ∈ map fst (hour_counts hs) ↔ h ∈ hs.
Proof.
  induction hs as [|x hs [IHnd IHin]] using rev_ind.
  - split; [constructor|done].
  - rewrite hour_counts_snoc, keys_bump. case_decide as Hk.
    + split; [done|]. intros h. rewrite elem_of_app, <- IHin. set_solver.
    + split.
      * apply NoDup_app. split; [done|]. split; [set_solver|apply NoDup_singleton].
      * intros h. rewrite !elem_of_app, <- IHin. done.
Qed.

Lemma count_for_elem h n counts :
  NoDup (map fst counts) → (h, n) ∈ counts → count_for h counts = n.
Proof.
  induction counts as [|[k m] counts IH]; simpl; intros Hnd Hin.
  - by apply elem_of_nil in Hin.
  - apply NoDup_cons in Hnd as [Hk Hnd].
    apply elem_of_cons in Hin as [[= -> ->]|Hin].
    + by case_decide.
    + case_decide as Heq; [|by apply IH]. subst. exfalso. apply Hk.
      apply list_elem_of_fmap. by exists (h, n).
Qed.

Lemma max_from_greatest counts : ∀ k n,
  ∃ c, (max_from k n counts, c) ∈ (k, n) :: counts
       ∧ ∀ h' c', (h', c') ∈ (k, n) :: counts → c' ≤ c.
Proof.
  induction counts as [|[k' n'] counts IH]; intros k n; simpl.
  - exists n. split; [left|]. intros h' c' [[= -> ->]|H]%elem_of_cons; [lia|].
    by apply elem_of_nil in H.
  - destruct (Z.ltb_spec n n') as [Hlt|Hge].
    + destruct (IH k' n') as (c & Hin & Hmax). exists c. split; [by right|].
      intros h' c' [[= -> ->]|H]%elem_of_cons; [|by apply (Hmax h')].
      assert (n' ≤ c) by (apply (Hmax k'); left). lia.
    + destruct (IH k n) as (c & Hin & Hmax). exists c. split.
      * apply elem_of_cons in Hin as [Heq|Hin]; [rewrite Heq; left|].
        right. by right.
      * intros h' c' [[= -> ->]|[[= -> ->]|H]%elem_of_cons]%elem_of_cons.
        -- apply (Hmax k). left.
        -- assert (n ≤ c) by (apply (Hmax k); left). lia.
        -- apply (Hmax h'). by right.
Qed.

Lemma max_by_count_hour_counts hs :
  match max_by_count (hour_counts hs) with
  | None => hs = []
  | Some h => h ∈ hs ∧ ∀ h', occurrences h' hs ≤ occurrences h hs
  end.
Proof.
  destruct (keys_hour_counts hs) as [Hnd Hkeys].
  unfold max_by_count. destruct (hour_counts hs) as [|[k n] counts] eqn:Hc.
  - destruct hs as [|h hs]; [done|]. exfalso.
    assert (h ∈ map fst (@nil (Z * Z))) as H by (apply Hkeys; left).
    by apply elem_of_nil in H.
  - destruct (max_from_greatest counts k n) as (c & Hin & Hmax).
    set (r := max_from k n counts) in *.
    assert (occurrences r hs = c) as Hr.
    { rewrite <- count_for_hour_counts, Hc. by apply count_for_elem. }
    split.
    + apply Hkeys. apply list_elem_of_fmap. by exists (r, c).
    + intros h'. rewrite Hr.
      destruct (decide (h' ∈ hs)) as [Hin'|Hnin].
      * apply Hkeys, list_elem_of_fmap in Hin' as ([h'' c'] & -> & Hin').
        simpl. rewrite <- count_for_hour_counts, Hc.
        rewrite (count_for_elem _ _ _ Hnd Hin'). by apply (Hmax h'').
      * unfold occurrences in *. rewrite (proj1 (count_occ_not_In _ _ _)).
        -- lia.
        -- by rewrite <- list_elem_of_In.
Qed.

(** **** Sums and permutations *)

Lemma Qsum_Permutation l l' : l ≡ₚ l' → (Qsum l == Qsum l')%Q.
Proof.
  induction 1 as [|x l l' _ IH|x y l|l l' l'' _ IH1 _ IH2]; simpl.
  - reflexivity.
  - by rewrite IH.
  - ring.
  - by rewrite IH1.
Qed.

Lemma mean_Permutation l l' : l ≡ₚ l' → (mean l == mean l')%Q.
Proof.
  intros H. unfold mean.
  by rewrite (Qsum_Permutation _ _ H), (Permutation_length H).
Qed.

Lemma filter_Permutation_list {A} (f : A → bool) l l' :
  l ≡ₚ l' → List.filter f l ≡ₚ List.filter f l'.
Proof.
  induction 1 as [|x l l' _ IH|x y l|l l' l'' _ IH1 _ IH2]; simpl.
  - done.
  - destruct (f x); by rewrite IH.
  - destruct (f x), (f y); try done. apply perm_swap.
  - by rewrite IH1.
Qed.

Lemma occurrences_Permutation h l l' :
  l ≡ₚ l' → occurrences h l = occurrences h l'.
Proof.
  intros H. unfold occurrences. f_equal.
  by apply (Permutation_count_occ Z.eq_dec).
Qed.

(** **** _calculate_productivity_stats *)

(* the counters after both loops, in terms of the flat list *)
Lemma scan_groups_group_by_task acts t :
  scan_groups (group_by_task acts) tally0 = Ok t →
  n_total t = Z.of_nat (length (distinct_tasks acts))
  ∧ n_completed t = Z.of_nat (length (completions acts))
  ∧ n_cancelled t = Z.of_nat (length (cancellations acts))
  ∧ completion_times t ≡ₚ map duration (completion_pairs acts)
  ∧ completion_hours t ≡ₚ map hour_of (completions acts).
Proof.
  intros Ht.
  destruct (scan_groups_ok (group_by_task acts) tally0) as
    (t' & Ht' & H1 & H2 & H3 & H4 & H5); [by eapply scan_groups_comparable|].
  rewrite Ht in Ht'. injection Ht' as <-. simpl in *.
  assert (completions (members (group_by_task acts)) ≡ₚ completions acts) as Hc
    by apply filter_Permutation_list, members_group_by_task.
  assert (cancellations (members (group_by_task acts)) ≡ₚ cancellations acts) as Hx
    by apply filter_Permutation_list, members_group_by_task.
  rewrite H1, H2, H3, H4, H5, length_group_by_task.
  rewrite (Permutation_length Hc), (Permutation_length Hx).
  repeat split; try done.
  - apply Permutation_map, pairs_of_groups_group_by_task.
  - by apply Permutation_map.
Qed.

(** C5 fails on the code for some activity lists: when a task's creation
    carries a naive timestamp and its completion an aware one, the
    subtraction [timestamp - created_time] raises TypeError, the handler
    re-raises it, and no statistics are returned. *)
Lemma mixed_timestamps_raise :
  completion_pairs mixed_timestamps
  = [(naive (hours 0), {| wall := hours 2; tzinfo := Some 0 |})]
  ∧ sub {| wall := hours 2; tzinfo := Some 0 |} (naive (hours 0)) = None
  ∧ _calculate_productivity_stats 7 mixed_timestamps day0 day0
    = Raised TypeError.
Proof. split; [reflexivity|]. split; reflexivity. Qed.

(** C5.  [_calculate_productivity_stats] returns statistics exactly when
    every completion and its matching creation can be subtracted (both
    timestamps naive or both aware; it raises otherwise), and then
    - [total_tasks] is the number of distinct task ids and [completed_tasks]
      the number of completion activities;
    - [completion_rate] is completed_tasks / total_tasks when
      total_tasks > 0 and 0 otherwise;
    - [average_completion_time_hours] is the mean, in hours, of
      (completed - created) over the completions that come after a creation
      of the same task, and None when there is no such completion;
    - [most_productive_hour] is an hour with the greatest number of
      completion activities, and None when there is no completion. *)
Theorem productivity_stats_computation user_id activities start_date end_date :
  (Forall comparable (completion_pairs activities) ↔
   ∃ stats,
     _calculate_productivity_stats user_id activities start_date end_date
     = Ok stats)
  ∧ ∀ stats,
      _calculate_productivity_stats user_id activities start_date end_date
      = Ok stats →
      total_tasks stats = Z.of_nat (length (distinct_tasks activities))
      ∧ completed_tasks stats = Z.of_nat (length (completions activities))
      ∧ (completion_rate stats ==
         if 0 <? total_tasks stats
         then inject_Z (completed_tasks stats) / inject_Z (total_tasks stats)
         else 0)%Q
      ∧ match average_completion_time_hours stats with
        | None => completion_pairs activities = []
        | Some avg =>
            completion_pairs activities ≠ []
            ∧ (avg == mean (map duration (completion_pairs activities)))%Q
        end
      ∧ match most_productive_hour stats with
        | None => completions activities = []
        | Some h =>
            h ∈ map hour_of (completions activities)
            ∧ ∀ h', occurrences h' (map hour_of (completions activities))
                    ≤ occurrences h (map hour_of (completions activities))
        end.
Proof.
  unfold _calculate_productivity_stats. split.
  - split.
    + intros Hcmp.
      destruct (scan_groups_ok (group_by_task activities) tally0) as (t & -> & _).
      { by rewrite pairs_of_groups_group_by_task. }
      by eexists.
    + intros [stats Hstats].
      destruct (scan_groups _ _) as [t|] eqn:Ht; [|done].
      rewrite <- pairs_of_groups_group_by_task. by eapply scan_groups_comparable.
  - intros stats Hstats.
    destruct (scan_groups _ _) as [t|] eqn:Ht; [|done].
    destruct (scan_groups_group_by_task _ _ Ht) as (H1 & H2 & H3 & H4 & H5).
    injection Hstats as <-. simpl.
    split; [done|]. split; [done|]. split; [reflexivity|]. split.
    + destruct (completion_times t) as [|x times] eqn:Htimes.
      * apply Permutation_nil in H4. by apply map_eq_nil in H4.
      * split.
        -- intros Hnil. rewrite Hnil in H4. symmetry in H4.
           by apply Permutation_nil in H4.
        -- by apply mean_Permutation.
    + assert (match completion_hours t with
              | [] => None
              | _ :: _ => max_by_count (hour_counts (completion_hours t))
              end = max_by_count (hour_counts (completion_hours t))) as ->
        by by destruct (completion_hours t).
      pose proof (max_by_count_hour_counts (completion_hours t)) as Hmax.
      destruct (max_by_count _) as [h|].
      * destruct Hmax as [Hin Hmax]. split; [by rewrite <- H5|].
        intros h'. rewrite <- !(occurrences_Permutation _ _ _ H5). apply Hmax.
      * rewrite Hmax in H5. apply Permutation_nil in H5.
        by apply map_eq_nil in H5.
Qed.

(** C9 fails on the code.  A task that is completed, reopened and completed
    again contributes one task and two completions: [completed_tasks]
    exceeds [total_tasks], the completion rate is 2 and the "todo" entry of
    [tasks_by_status] is -1. *)
Lemma recompleted_task_breaks_bounds :
  ∃ stats,
    _calculate_productivity_stats 7 recompleted_task day0 day0 = Ok stats
    ∧ total_tasks stats = 1
    ∧ completed_tasks stats = 2
    ∧ cancelled_tasks stats = 0
    ∧ (completion_rate stats == 2)%Q
    ∧ lookup_count "todo" (tasks_by_status stats) = -1.
Proof.
  eexists. split; [reflexivity|]. cbn.
  repeat split; reflexivity.
Qed.

Lemma calc_user_id user_id activities s e stats :
  _calculate_productivity_stats user_id activities s e = Ok stats →
  stats_user_id stats = user_id.
Proof.
  unfold _calculate_productivity_stats.
  destruct (scan_groups _ _); [|done]. by intros [= <-].
Qed.

(** **** _generate_analytics_for_user *)

Lemma store_productivity_stats_run env stats w :
  _store_productivity_stats env stats w
  = (Ok tt, {| redis := redis w; steps := S (steps w);
               trace := trace w ++ [StoreStats stats] |}).
Proof.
  unfold _store_productivity_stats, try_except, mbind, M_bind, tick, emit,
    or_raise, pass, mret, M_ret, raise.
  simpl. by destruct (mongo_api env (steps w)).
Qed.

Lemma cache_user_stats_run env stats w :
  let key := "user_analytics:" +:+ pretty (stats_user_id stats) in
  let data :=
    {| cached_completion_rate := completion_rate stats;
       cached_total_tasks := total_tasks stats;
       cached_completed_tasks := completed_tasks stats;
       cached_average_completion_time := average_completion_time_hours stats;
       cached_most_productive_hour := most_productive_hour stats;
       generated_at := naive (clock env (steps w)) |} in
  _cache_user_stats env stats w
  = (Ok tt, {| redis := <[key := (data, REDIS_CACHE_TTL)]> (redis w);
               steps := S (steps w);
               trace := trace w ++ [CacheStats key REDIS_CACHE_TTL data] |}).
Proof. reflexivity. Qed.

(** C10.  [_generate_analytics_for_user] reads the clock, fetches the
    user's activities for the period and then:
    - with fewer than MIN_TASKS_FOR_ANALYSIS (5) activities it returns having
      stored and cached nothing;
    - with at least 5 it computes the statistics, posts them to the store and
      caches them under [user_analytics:{user_id}];
    - so anything stored or cached means there were at least 5 activities. *)
Theorem analytics_needs_minimum_data env user_id period_days w :
  let end_date := naive (clock env (steps w)) in
  let start_date :=
    {| wall := wall end_date - hours (24 * period_days); tzinfo := None |} in
  let activities := activities_of env (S (steps w)) user_id start_date end_date in
  let w' := run (_generate_analytics_for_user env user_id period_days) w in
  (Z.of_nat (length activities) < MIN_TASKS_FOR_ANALYSIS →
     trace w' = trace w ∧ redis w' = redis w)
  ∧ (MIN_TASKS_FOR_ANALYSIS ≤ Z.of_nat (length activities) →
     ∀ stats,
       _calculate_productivity_stats user_id activities start_date end_date
       = Ok stats →
       ∃ key data,
         key = "user_analytics:" +:+ pretty user_id
         ∧ cached_completion_rate data = completion_rate stats
         ∧ cached_total_tasks data = total_tasks stats
         ∧ trace w' = trace w ++ [StoreStats stats;
                                  CacheStats key REDIS_CACHE_TTL data]
         ∧ redis w' = <[key := (data, REDIS_CACHE_TTL)]> (redis w))
  ∧ (trace w' ≠ trace w ∨ redis w' ≠ redis w →
     MIN_TASKS_FOR_ANALYSIS ≤ Z.of_nat (length activities)).
Proof.
  intros end_date start_date activities w'.
  set (w2 := {| redis := redis w; steps := S (S (steps w)); trace := trace w |}).
  set (key := "user_analytics:" +:+ pretty user_id).
  set (data := λ stats,
    {| cached_completion_rate := completion_rate stats;
       cached_total_tasks := total_tasks stats;
       cached_completed_tasks := completed_tasks stats;
       cached_average_completion_time := average_completion_time_hours stats;
       cached_most_productive_hour := most_productive_hour stats;
       generated_at := naive (clock env (S (S (S (steps w))))) |}).
  assert (Hrun :
    w' = if Z.of_nat (length activities) <? MIN_TASKS_FOR_ANALYSIS then w2
         else match _calculate_productivity_stats user_id activities
                      start_date end_date with
              | Ok stats =>
                  {| redis := <[key := (data stats, REDIS_CACHE_TTL)]> (redis w);
                     steps := S (S (S (S (steps w))));
                     trace := trace w ++ [StoreStats stats;
                                          CacheStats key REDIS_CACHE_TTL (data stats)] |}
              | Raised _ => w2
              end).
  { subst w'.
    unfold run, _generate_analytics_for_user, try_except, utcnow,
      _get_user_activities, mbind, M_bind, tick, mret, M_ret, pass.
    simpl. fold end_date. change (activities_of env _ _ _ _) with activities.
    destruct (Z.of_nat (length activities) <? MIN_TASKS_FOR_ANALYSIS); [done|].
    change {| wall := _; tzinfo := None |} with start_date.
    destruct (_calculate_productivity_stats user_id activities start_date end_date)
      as [stats|e] eqn:Hstats; [|done].
    rewrite store_productivity_stats_run, cache_user_stats_run. simpl.
    rewrite (calc_user_id _ _ _ _ _ Hstats). by rewrite <- app_assoc. }
  clearbody w'. subst w'.
  destruct (Z.ltb_spec (Z.of_nat (length activities)) MIN_TASKS_FOR_ANALYSIS)
    as [Hfew|Henough].
  - split; [done|]. split; [lia|]. intros [H|H]; by destruct H.
  - split; [lia|]. split; [|done]. intros _ stats ->.
    exists key, (data stats). done.
Qed.

End AnalyticsFacts.

Module ReminderFacts.
Import Reminder.

Section Runs.

Variable env : Env.

(** **** Single steps *)

Lemma publish_task_event_run event_type event_data w :
  _publish_task_event env event_type event_data w
  = (Ok tt, {| redis := redis w; steps := S (steps w);
               trace := trace w
                 ++ [Publish event_type event_data (exchange_accepts env (steps w))] |}).
Proof.
  unfold _publish_task_event, try_except, mbind, M_bind, tick, emit, raise, pass.
  simpl. by destruct (exchange_accepts env (steps w)).
Qed.

Lemma send_telegram_notification_run telegram_id msg w :
  _send_telegram_notification env telegram_id msg w
  = (Ok tt, {| redis := redis w; steps := S (steps w);
               trace := trace w ++ [Telegram telegram_id msg (clock env (steps w))] |}).
Proof.
  unfold _send_telegram_notification, try_except, mbind, M_bind, tick, emit,
    raise, pass.
  simpl. by destruct (bot_api env (steps w)).
Qed.

Lemma redis_get_run key w :
  redis_get env key w
  = (Ok (visible (clock env (steps w)) (redis w) key),
     {| redis := redis w; steps := S (steps w); trace := trace w |}).
Proof. reflexivity. Qed.

Lemma utcnow_run w :
  utcnow env w
  = (Ok (naive (clock env (steps w))),
     {| redis := redis w; steps := S (steps w); trace := trace w |}).
Proof. reflexivity. Qed.

Lemma redis_setex_run key secs v w :
  redis_setex env key secs v w
  = (Ok tt,
     {| redis := <[key := {| value := v;
                             expires_at := Some (clock env (steps w) + seconds secs) |}]>
                   (redis w);
        steps := S (steps w);
        trace := trace w ++ [Setex key secs v] |}).
Proof. reflexivity. Qed.

Lemma redis_delete_run key w :
  redis_delete key w
  = (Ok tt, {| redis := delete key (redis w); steps := S (steps w);
               trace := trace w ++ [Delete key] |}).
Proof. reflexivity. Qed.

(** **** Looking up the Telegram session only reads *)

Lemma session_among_reads user_id keys : ∀ w,
  ∃ o k, session_among env user_id keys w
         = (o, {| redis := redis w; steps := (steps w + k)%nat; trace := trace w |}).
Proof.
  induction keys as [|key keys IH]; intros w; simpl.
  - exists (Ok None), 0%nat. destruct w. simpl. by rewrite Nat.add_0_r.
  - unfold mbind, M_bind. rewrite redis_get_run.
    set (w1 := {| redis := redis w; steps := S (steps w); trace := trace w |}).
    destruct (visible _ _ _) as [v|].
    + destruct (truthy (Some v)).
      * destruct v as [s|d|o]; simpl; try by (eexists _, 1%nat; rewrite Nat.add_1_r).
        case_decide.
        -- eexists _, 1%nat. by rewrite Nat.add_1_r.
        -- destruct (IH w1) as (o' & k & ->). exists o', (S k). simpl. f_equal.
           f_equal. lia.
      * destruct (IH w1) as (o' & k & ->). exists o', (S k). simpl. f_equal.
        f_equal. lia.
    + destruct (IH w1) as (o' & k & ->). exists o', (S k). simpl. f_equal.
      f_equal. lia.
Qed.

Lemma get_user_telegram_session_reads user_id w :
  ∃ session k,
    _get_user_telegram_session env user_id w
    = (Ok session,
       {| redis := redis w; steps := S (steps w + k); trace := trace w |}).
Proof.
  unfold _get_user_telegram_session, try_except, scan_iter, mbind, M_bind,
    tick, get_redis. simpl.
  edestruct (session_among_reads user_id) as (o & k & ->). simpl.
  destruct o as [session|e]; by eexists _, k.
Qed.

(** **** The notification routines *)

Lemma send_due_soon_notification_run task m w :
  ∃ w' posts,
    _send_due_soon_notification env task m w = (Ok tt, w')
    ∧ redis w' = redis w
    ∧ (steps w ≤ steps w')%nat
    ∧ trace w' = trace w ++ Notify (DueSoonNotification task m) :: posts
    ∧ (posts = []
       ∨ ∃ telegram_id n,
           posts = [Telegram telegram_id
                      (DueSoonMessage task (due_soon_time_str m)) (clock env n)]
           ∧ (steps w ≤ n < steps w')%nat).
Proof.
  unfold _send_due_soon_notification, try_except, mbind, M_bind, emit. simpl.
  edestruct (get_user_telegram_session_reads (JInt (user_id task)))
    as (session & k & ->). simpl.
  destruct session as [session|]; [destruct (no_session (Some session))|].
  - eexists _, []. rewrite <- ?app_assoc. simpl. repeat split; [simpl; lia|by left].
  - unfold getitem. destruct (session !! "telegram_id") as [tid|]; simpl.
    + rewrite send_telegram_notification_run. simpl.
      eexists _, [_]. rewrite <- ?app_assoc. simpl.
      repeat split; [simpl; lia|right]. eexists _, _. split; [done|simpl; lia].
    + eexists _, []. rewrite <- ?app_assoc. simpl. repeat split; [simpl; lia|by left].
  - eexists _, []. rewrite <- ?app_assoc. simpl. repeat split; [simpl; lia|by left].
Qed.

Lemma send_overdue_notification_run task m w :
  ∃ w' posts,
    _send_overdue_notification env task m w = (Ok tt, w')
    ∧ redis w' = redis w
    ∧ (steps w ≤ steps w')%nat
    ∧ trace w' = trace w ++ Notify (OverdueNotification task m) :: posts
    ∧ (posts = []
       ∨ ∃ telegram_id n,
           posts = [Telegram telegram_id
                      (OverdueMessage task (overdue_time_str m)) (clock env n)]
           ∧ (steps w ≤ n < steps w')%nat).
Proof.
  unfold _send_overdue_notification, try_except, mbind, M_bind, emit. simpl.
  edestruct (get_user_telegram_session_reads (JInt (user_id task)))
    as (session & k & ->). simpl.
  destruct session as [session|]; [destruct (no_session (Some session))|].
  - eexists _, []. rewrite <- ?app_assoc. simpl. repeat split; [simpl; lia|by left].
  - unfold getitem. destruct (session !! "telegram_id") as [tid|]; simpl.
    + rewrite send_telegram_notification_run. simpl.
      eexists _, [_]. rewrite <- ?app_assoc. simpl.
      repeat split; [simpl; lia|right]. eexists _, _. split; [done|simpl; lia].
    + eexists _, []. rewrite <- ?app_assoc. simpl. repeat split; [simpl; lia|by left].
  - eexists _, []. rewrite <- ?app_assoc. simpl. repeat split; [simpl; lia|by left].
Qed.

(* every way [_send_scheduled_reminder] can end: it always returns, leaves
   Redis alone, and posts at most one message, for a task it fetched with
   status 200 and found neither completed nor cancelled *)
Lemma send_scheduled_reminder_run reminder_data w :
  ∃ w' posts,
    _send_scheduled_reminder env reminder_data w = (Ok tt, w')
    ∧ redis w' = redis w
    ∧ (steps w ≤ steps w')%nat
    ∧ trace w' = trace w ++ Notify (ScheduledReminder reminder_data) :: posts
    ∧ (posts = []
       ∨ ∃ task_id user_id task telegram_id n,
           reminder_data !! "task_id" = Some task_id
           ∧ reminder_data !! "user_id" = Some user_id
           ∧ task_api env (steps w) task_id user_id = Some (200, Some task)
           ∧ status task ≠ COMPLETED ∧ status task ≠ CANCELLED
           ∧ posts = [Telegram telegram_id
                        (ReminderMessage task (reminder_body reminder_data task))
                        (clock env n)]).
Proof.
  unfold _send_scheduled_reminder, try_except, mbind, M_bind, emit, getitem. simpl.
  destruct (reminder_data !! "task_id") as [tid|] eqn:Htid; simpl;
    [|eexists _, []; repeat split; by left].
  destruct (reminder_data !! "user_id") as [uid|] eqn:Huid; simpl;
    [|eexists _, []; repeat split; by left].
  destruct (task_api env (steps w) tid uid) as [[code body]|] eqn:Hapi; simpl;
    [|eexists _, []; repeat split; [simpl; lia|by left]].
  destruct (Z.eqb_spec code 200) as [->|Hcode]; simpl;
    [|eexists _, []; repeat split; [simpl; lia|by left]].
  destruct body as [task|]; simpl; [|eexists _, []; repeat split; [simpl; lia|by left]].
  destruct (finished (status task)) eqn:Hfin; simpl;
    [eexists _, []; repeat split; [simpl; lia|by left]|].
  edestruct (get_user_telegram_session_reads uid) as (session & k & ->). simpl.
  destruct session as [session|]; [destruct (no_session (Some session))|];
    try (eexists _, []; simpl; repeat split; [simpl; lia|by left]).
  destruct (session !! "telegram_id") as [telegram_id|]; simpl;
    [|eexists _, []; simpl; repeat split; [simpl; lia|by left]].
  rewrite send_telegram_notification_run. simpl.
  eexists _, [_]. rewrite <- ?app_assoc. simpl. repeat split; [simpl; lia|right].
  exists tid, uid, task, telegram_id. eexists. repeat split; try done.
  - intros Hs. unfold finished in Hfin. rewrite Hs in Hfin. done.
  - intros Hs. unfold finished in Hfin. rewrite Hs in Hfin. done.
Qed.

(** **** _process_due_soon_task *)

Lemma sub_align_now_due due_date reading :
  sub due_date (align_now due_date (naive reading))
  = Some (wall due_date - reading).
Proof.
  unfold sub, align_now. destruct due_date as [w [tz|]]; simpl; f_equal; lia.
Qed.

Lemma sub_align_now_overdue due_date reading :
  sub (align_now due_date (naive reading)) due_date
  = Some (reading - wall due_date).
Proof.
  unfold sub, align_now. destruct due_date as [w [tz|]]; simpl; f_equal; lia.
Qed.

(* the three ways a run of [_process_due_soon_task] can go *)
Lemma process_due_soon_task_run task w :
  let key := due_soon_key task in
  let seen := visible (clock env (steps w)) (redis w) key in
  let now := clock env (S (steps w)) in
  ∃ w',
    _process_due_soon_task env task w = (Ok tt, w')
    ∧ (steps w < steps w')%nat
    ∧ ((truthy seen = true
        ∧ w' = {| redis := redis w; steps := S (steps w); trace := trace w |})
       ∨ (truthy seen = false
          ∧ (due_date task = None
             ∨ ∃ d, due_date task = Some d
                    ∧ ¬ (0 < whole_minutes (wall d - now) ≤ DUE_SOON_MINUTES))
          ∧ redis w' = redis w ∧ trace w' = trace w)
       ∨ (truthy seen = false
          ∧ ∃ d m accepted posts n,
              due_date task = Some d
              ∧ m = whole_minutes (wall d - now)
              ∧ 0 < m ≤ DUE_SOON_MINUTES
              ∧ trace w'
                = trace w
                  ++ [Publish "task.due_soon"
                        (DueSoonBody
                           {| due_soon_task_id := id task;
                              due_soon_user_id := user_id task;
                              due_soon_timestamp := naive (clock env (S (S (steps w))));
                              due_soon_task_data := task;
                              due_in_minutes := m |})
                        accepted;
                      Notify (DueSoonNotification task m)]
                  ++ posts
                  ++ [Setex key (Z.max (m * 60 + 86400) 3600) (RText "sent")]
              ∧ (posts = []
                 ∨ ∃ telegram_id k,
                     posts = [Telegram telegram_id
                                (DueSoonMessage task (due_soon_time_str m))
                                (clock env k)])
              ∧ (steps w < n < steps w')%nat
              ∧ redis w'
                = <[key := {| value := RText "sent";
                              expires_at :=
                                Some (clock env n
                                      + seconds (Z.max (m * 60 + 86400) 3600)) |}]>
                    (redis w))).
Proof.
  intros key seen now.
  unfold _process_due_soon_task, try_except, mbind, M_bind.
  rewrite redis_get_run. fold key seen.
  destruct (truthy seen) eqn:Hseen.
  { eexists. split; [done|]. split; [simpl; lia|]. by left. }
  rewrite utcnow_run. cbn [steps redis trace].
  destruct (due_date task) as [d|] eqn:Hdue; simpl.
  2:{ eexists. split; [done|]. split; [simpl; lia|]. right; left. auto. }
  rewrite sub_align_now_due. simpl. fold now.
  set (m := whole_minutes (wall d - now)).
  destruct (Z.leb_spec m DUE_SOON_MINUTES) as [Hle|Hgt]; simpl.
  2:{ eexists. split; [done|]. split; [simpl; lia|]. right; left.
      repeat split; try done. right. exists d. split; [done|]. fold m. lia. }
  destruct (Z.ltb_spec 0 m) as [Hpos|Hneg]; simpl.
  2:{ eexists. split; [done|]. split; [simpl; lia|]. right; left.
      repeat split; try done. right. exists d. split; [done|]. fold m. lia. }
  rewrite publish_task_event_run. cbn [steps redis trace].
  edestruct (send_due_soon_notification_run task m) as
    (w1 & posts & -> & Hredis & Hsteps & Htrace & Hposts).
  rewrite redis_setex_run. cbn [steps redis trace] in *.
  eexists. split; [done|]. split; [simpl; lia|]. right; right.
  split; [done|]. exists d, m. eexists _, posts, (steps w1).
  split; [done|]. split; [done|]. split; [lia|]. simpl.
  rewrite Htrace, Hredis, <- !app_assoc. simpl. split; [done|]. split.
  - destruct Hposts as [->|(tid & k & -> & _)]; [by left|right; eauto].
  - split; [lia|done].
Qed.

(** **** _process_overdue_task *)

Lemma report_overdue_run task w :
  ∃ o w',
    report_overdue env task (overdue_key task) w = (o, w')
    ∧ (steps w < steps w')%nat
    ∧ ((redis w' = redis w ∧ trace w' = trace w)
       ∨ (o = Ok tt ∧ reported env task w w' (steps w))).
Proof.
  unfold report_overdue, mbind, M_bind.
  rewrite utcnow_run. cbn [steps redis trace].
  destruct (due_date task) as [d|] eqn:Hdue; simpl.
  2:{ eexists _, _. split; [done|]. split; [simpl; lia|]. by left. }
  rewrite sub_align_now_overdue. simpl.
  set (m := whole_minutes (clock env (steps w) - wall d)).
  destruct (Z.ltb_spec 0 m) as [Hpos|Hneg]; simpl.
  2:{ eexists _, _. split; [done|]. split; [simpl; lia|]. by left. }
  rewrite publish_task_event_run. cbn [steps redis trace].
  edestruct (send_overdue_notification_run task m) as
    (w1 & posts & -> & Hredis & Hsteps & Htrace & Hposts).
  cbv beta iota. rewrite redis_setex_run.
  cbn [steps redis trace] in *.
  eexists _, _. split; [done|]. split; [simpl; lia|]. right.
  split; [done|]. exists d, m. eexists _, posts, (steps w1).
  split; [done|]. split; [done|]. split; [done|]. simpl.
  rewrite Htrace, Hredis, <- !app_assoc. simpl. split; [done|]. split.
  - destruct Hposts as [->|(tid & k & -> & Hk)]; [by left|right].
    exists tid, k. split; [done|lia].
  - split; [lia|done].
Qed.

(* a run either changes nothing, or passes the rate limit, finds the task
   overdue, publishes, notifies and records the time *)
Lemma process_overdue_task_run task w :
  let last_sent := visible (clock env (steps w)) (redis w) (overdue_key task) in
  ∃ w',
    _process_overdue_task env task w = (Ok tt, w')
    ∧ (steps w < steps w')%nat
    ∧ ((redis w' = redis w ∧ trace w' = trace w)
       ∨ (truthy last_sent = false
          ∧ reported env task w w' (S (steps w)))
       ∨ (∃ s, last_sent = Some (RTime (naive s))
               ∧ hours 6 ≤ clock env (S (steps w)) - s
               ∧ reported env task w w' (S (S (steps w))))).
Proof.
  intros last_sent.
  unfold _process_overdue_task, try_except, mbind, M_bind.
  rewrite redis_get_run. fold last_sent.
  assert (∀ w', redis w' = redis w ∧ trace w' = trace w →
    (steps w < steps w')%nat →
    ∃ w'', (Ok (), w') = (Ok (), w'') ∧ (steps w < steps w'')%nat
           ∧ ((redis w'' = redis w ∧ trace w'' = trace w)
              ∨ (truthy last_sent = false
                 ∧ reported env task w w'' (S (steps w)))
              ∨ (∃ s, last_sent = Some (RTime (naive s))
                      ∧ hours 6 ≤ clock env (S (steps w)) - s
                      ∧ reported env task w w'' (S (S (steps w)))))) as Hquiet.
  { intros w' Hw' Hsteps. exists w'. split; [done|]. split; [done|]. by left. }
  assert (∀ base,
    (steps w < base)%nat →
    (truthy last_sent = false ∧ base = S (steps w)
     ∨ ∃ s, last_sent = Some (RTime (naive s))
            ∧ hours 6 ≤ clock env (S (steps w)) - s
            ∧ base = S (S (steps w))) →
    ∃ w'',
      (let (o, w'0) :=
         report_overdue env task (overdue_key task)
           {| redis := redis w; steps := base; trace := trace w |} in
       match o with
       | Ok a => (Ok a, w'0)
       | Raised _ => pass w'0
       end) = (Ok (), w'')
      ∧ (steps w < steps w'')%nat
      ∧ ((redis w'' = redis w ∧ trace w'' = trace w)
         ∨ (truthy last_sent = false
            ∧ reported env task w w'' (S (steps w)))
         ∨ (∃ s, last_sent = Some (RTime (naive s))
                 ∧ hours 6 ≤ clock env (S (steps w)) - s
                 ∧ reported env task w w'' (S (S (steps w)))))) as Hrest.
  { intros base Hbase Hgate.
    destruct (report_overdue_run task
                {| redis := redis w; steps := base; trace := trace w |})
      as (o & w' & -> & Hsteps & Hcases). simpl in Hsteps, Hcases.
    destruct Hcases as [Hq|[-> Hrep]].
    - destruct o as [[]|e]; (eexists; split; [done|]; split; [simpl; lia|]);
        by left.
    - eexists. split; [done|]. split; [lia|]. right.
      destruct Hgate as [[Hf ->]|(s & Hs & Hold & ->)]; [left|right]; eauto. }
  destruct last_sent as [v|] eqn:Hlast.
  2:{ simpl. apply Hrest; [lia|by left]. }
  destruct (truthy (Some v)) eqn:Htruthy.
  2:{ simpl. apply Hrest; [lia|by left]. }
  destruct v as [txt|s|o]; simpl; try (apply Hquiet; simpl; [done|lia]).
  destruct s as [sw [tz|]]; simpl; try (apply Hquiet; simpl; [done|lia]).
  destruct (Z.ltb_spec (clock env (S (steps w)) - sw) (hours 6)) as [Hrecent|Hold];
    simpl; [apply Hquiet; simpl; [done|lia]|].
  apply Hrest; [lia|]. right. exists sw. done.
Qed.

End Runs.

Lemma new_effects_app w w' l : trace w' = trace w ++ l → new_effects w w' = l.
Proof. intros H. unfold new_effects. by rewrite H, drop_app_length. Qed.

(** **** _publish_task_event *)

(** C1 fails on the code.  The broker rejects the first publish and would
    accept a second one; [_publish_task_event] makes the one attempt, does
    not sleep and returns, leaving the event unpublished. *)
Lemma failed_publish_is_not_retried :
  exchange_accepts broker_down_once 0 = false
  ∧ exchange_accepts broker_down_once 1 = true
  ∧ _publish_task_event broker_down_once "task.due_soon" sample_event idle
    = (Ok tt,
       {| redis := redis idle; steps := 1;
          trace := [Publish "task.due_soon" sample_event false] |}).
Proof. by vm_compute. Qed.

(** C1, amended.  [_publish_task_event] calls [publish] on the exchange
    exactly once, whatever the outcome: a failure is swallowed, it is not
    re-attempted, no delay is taken, and REMINDER_RETRY_ATTEMPTS and
    REMINDER_RETRY_DELAY play no part. *)
Theorem publish_task_event_single_attempt env event_type event_data w :
  let w' := run (_publish_task_event env event_type event_data) w in
  _publish_task_event env event_type event_data w = (Ok tt, w')
  ∧ new_effects w w'
    = [Publish event_type event_data (exchange_accepts env (steps w))]
  ∧ redis w' = redis w
  ∧ steps w' = S (steps w).
Proof.
  intros w'. subst w'. unfold run. rewrite publish_task_event_run. simpl.
  split; [done|]. split; [|done]. by apply new_effects_app.
Qed.

(** **** _send_scheduled_reminder *)

(** C8.  [_send_scheduled_reminder] always returns and never writes to
    Redis; whatever it posts to Telegram is a reminder for the task it has
    just fetched with status 200, and that task is neither COMPLETED nor
    CANCELLED.  So when the fetched task is COMPLETED or CANCELLED nothing
    is posted, for every reminder payload. *)
Theorem finished_task_gets_no_scheduled_reminder env reminder_data w :
  let w' := run (_send_scheduled_reminder env reminder_data) w in
  _send_scheduled_reminder env reminder_data w = (Ok tt, w')
  ∧ redis w' = redis w
  ∧ (∀ telegram_id msg sent_at,
       Telegram telegram_id msg sent_at ∈ new_effects w w' →
       ∃ task_id user_id task,
         reminder_data !! "task_id" = Some task_id
         ∧ reminder_data !! "user_id" = Some user_id
         ∧ task_api env (steps w) task_id user_id = Some (200, Some task)
         ∧ msg = ReminderMessage task (reminder_body reminder_data task)
         ∧ status task ≠ COMPLETED ∧ status task ≠ CANCELLED)
  ∧ (∀ task_id user_id code task,
       reminder_data !! "task_id" = Some task_id →
       reminder_data !! "user_id" = Some user_id →
       task_api env (steps w) task_id user_id = Some (code, Some task) →
       status task = COMPLETED ∨ status task = CANCELLED →
       ∀ e, e ∈ new_effects w w' → ¬ is_telegram e).
Proof.
  intros w'. subst w'. unfold run.
  destruct (send_scheduled_reminder_run env reminder_data w) as
    (w' & posts & -> & Hredis & _ & Htrace & Hposts). simpl.
  rewrite (new_effects_app _ _ _ Htrace).
  assert (∀ telegram_id msg sent_at,
    Telegram telegram_id msg sent_at
      ∈ Notify (ScheduledReminder reminder_data) :: posts →
    ∃ task_id user_id task,
      reminder_data !! "task_id" = Some task_id
      ∧ reminder_data !! "user_id" = Some user_id
      ∧ task_api env (steps w) task_id user_id = Some (200, Some task)
      ∧ msg = ReminderMessage task (reminder_body reminder_data task)
      ∧ status task ≠ COMPLETED ∧ status task ≠ CANCELLED) as Hsent.
  { intros tg msg sent_at [?|Hin]%elem_of_cons; [done|].
    destruct Hposts as [->|(tid & uid & task & tg' & n & ? & ? & ? & ? & ? & ->)].
    - by apply elem_of_nil in Hin.
    - apply list_elem_of_singleton in Hin as [= -> -> ->]. by exists tid, uid, task. }
  split; [done|]. split; [done|]. split; [done|].
  intros tid uid code task Htid Huid Hapi Hfin e He (tg & msg & sent_at & ->).
  destruct (Hsent _ _ _ He) as (tid' & uid' & task' & Htid' & Huid' & Hapi' & _ & H1 & H2).
  rewrite Htid in Htid'. rewrite Huid in Huid'.
  injection Htid' as <-. injection Huid' as <-. rewrite Hapi in Hapi'.
  injection Hapi' as _ <-. by destruct Hfin.
Qed.

(** **** _process_due_soon_task *)


Lemma truthy_Some v : truthy (Some v) = true ↔ v ≠ RText "".
Proof.
  destruct v as [s| |]; simpl; try (split; [done|done]).
  destruct (String.eqb_spec s ""); simpl; split; try done; congruence.
Qed.



(** **** De-duplication of due-soon notifications *)


Lemma overdue_key_inj t1 t2 : overdue_key t1 = overdue_key t2 → id t1 = id t2.
Proof.
  unfold overdue_key. intros H%String.app_inj. by apply pretty_Z_inj in H.
Qed.





(** **** Rate limit of overdue notifications *)


Lemma monotone_le env n m : monotone env → (n ≤ m)%nat → clock env n ≤ clock env m.
Proof.
  intros Hmono Hle. induction Hle as [|m _ IH]; [lia|].
  specialize (Hmono m). lia.
Qed.

Lemma spaced_app tr new :
  spaced tr → spaced new →
  (∀ e1 e2 task_id t1 t2,
     e1 ∈ tr → e2 ∈ new →
     overdue_post e1 = Some (task_id, t1) →
     overdue_post e2 = Some (task_id, t2) →
     hours 6 ≤ t2 - t1) →
  spaced (tr ++ new).
Proof.
  intros Htr Hnew Hcross i j e1 e2 tk t1 t2 Hij Hi Hj H1 H2.
  destruct (decide (j < length tr)%nat) as [Hjl|Hjl].
  - rewrite lookup_app_l in Hi, Hj by lia.
    exact (Htr i j e1 e2 tk t1 t2 Hij Hi Hj H1 H2).
  - rewrite lookup_app_r in Hj by lia.
    destruct (decide (i < length tr)%nat) as [Hil|Hil].
    + rewrite lookup_app_l in Hi by lia.
      apply list_elem_of_lookup_2 in Hi, Hj.
      exact (Hcross e1 e2 tk t1 t2 Hi Hj H1 H2).
    + rewrite lookup_app_r in Hi by lia.
      refine (Hnew (i - length tr)%nat (j - length tr)%nat e1 e2 tk t1 t2
                _ Hi Hj H1 H2). lia.
Qed.

(* the effects of one reporting run hold at most one overdue message *)
Lemma spaced_report p n posts s k :
  overdue_post p = None → overdue_post n = None → overdue_post s = None →
  (posts = [] ∨ posts = [k]) →
  spaced ([p; n] ++ posts ++ [s]).
Proof.
  intros Hp Hn Hs Hposts i j e1 e2 tk t1 t2 Hij Hi Hj H1 H2.
  destruct Hposts as [->| ->]; simpl in Hi, Hj.
  - destruct i as [|[|[|i]]]; simpl in Hi; try done;
      injection Hi as <-; congruence.
  - destruct i as [|[|[|[|i]]]]; simpl in Hi; try done;
      injection Hi as <-; try congruence.
    destruct j as [|[|[|[|j]]]]; simpl in Hj; try done; try lia;
      injection Hj as <-; congruence.
Qed.

Lemma overdue_key_pretty task : overdue_key task = "overdue_sent:" +:+ pretty (id task).
Proof. reflexivity. Qed.

(* one run keeps the two invariants *)
Lemma process_overdue_task_keeps env task w :
  monotone env → spaced (trace w) → covered env w →
  ∃ w', _process_overdue_task env task w = (Ok tt, w')
        ∧ spaced (trace w') ∧ covered env w'.
Proof.
  intros Hmono Hspaced Hcov.
  destruct (process_overdue_task_run env task w) as (w' & Hrun & Hsteps & Hcases).
  exists w'. split; [done|].
  assert (∀ base, (steps w < base)%nat →
    (truthy (visible (clock env (steps w)) (redis w) (overdue_key task)) = false
     ∨ ∃ s, visible (clock env (steps w)) (redis w) (overdue_key task)
            = Some (RTime (naive s))
            ∧ hours 6 ≤ clock env (S (steps w)) - s) →
    reported env task w w' base →
    spaced (trace w') ∧ covered env w') as Hreport.
  { intros base Hbase Hgate
      (d & m & acc & posts & i & _ & _ & _ & Htrace & Hposts & Hi & Hsteps' & Hredis).
    (* an earlier message about this task is at least six hours old *)
    assert (∀ e a, e ∈ trace w → overdue_post e = Some (id task, a) →
                   a + hours 6 ≤ clock env (S (steps w))) as Hold.
    { intros e a He Hpost.
      destruct (Hcov e (id task) a He Hpost) as (_ & s & x & Hentry & Has & Hsx).
      rewrite <- overdue_key_pretty in Hentry.
      unfold visible in Hgate. rewrite Hentry in Hgate. unfold live in Hgate.
      simpl in Hgate.
      pose proof (Hmono (steps w)) as Hstep.
      destruct (Z.ltb_spec (clock env (steps w)) x) as [Hlive|Hdead].
      - destruct Hgate as [?|(s' & [= <-] & Hsix)]; [done|lia].
      - lia. }
    split.
    - rewrite Htrace. apply spaced_app; [done| |].
      + destruct Hposts as [Hp|(tid & k & Hp & _)].
        * apply (spaced_report _ _ posts _ (Sleep 0)); try done. by left.
        * eapply spaced_report; try done. right. exact Hp.
      + intros e1 e2 tk t1 t2 He1 He2 H1 H2.
        destruct Hposts as [->|(tid & k & -> & Hk)].
        * simpl in He2. repeat (apply elem_of_cons in He2 as [->|He2]; [done|]).
          by apply elem_of_nil in He2.
        * simpl in He2.
          repeat (apply elem_of_cons in He2 as [->|He2]; try done).
          2:{ by apply elem_of_nil in He2. }
          simpl in H2. injection H2 as <- <-.
          pose proof (Hold e1 t1 He1 H1).
          pose proof (monotone_le env (S (steps w)) k Hmono). lia.
    - intros e tk a He Hpost. rewrite Htrace in He. rewrite Hsteps', Hredis.
      pose proof (monotone_le env i (S (S i)) Hmono) as Hi2.
      pose proof (monotone_le env i (S i) Hmono) as Hi1.
      assert (clock env i + hours 6 ≤ clock env (S i) + seconds 86400)
        by (unfold hours, seconds, us_per_second; lia).
      apply elem_of_app in He as [He|He].
      + destruct (Hcov e tk a He Hpost) as (Hpast & s & x & Hentry & Has & Hsx).
        pose proof (monotone_le env (steps w) i Hmono).
        split; [lia|].
        destruct (decide (tk = id task)) as [->|Hne].
        * rewrite <- overdue_key_pretty, lookup_insert_eq.
          eexists _, _. split; [done|]. lia.
        * rewrite lookup_insert_ne.
          -- by exists s, x.
          -- rewrite overdue_key_pretty. intros Heq%String.app_inj.
             by apply pretty_Z_inj in Heq.
      + destruct Hposts as [->|(tid & k & -> & Hk)]; simpl in He.
        * repeat (apply elem_of_cons in He as [->|He]; [done|]).
          by apply elem_of_nil in He.
        * repeat (apply elem_of_cons in He as [->|He]; try done).
          2:{ by apply elem_of_nil in He. }
          simpl in Hpost. injection Hpost as <- <-.
          pose proof (monotone_le env k i Hmono).
          split; [lia|]. rewrite <- overdue_key_pretty, lookup_insert_eq.
          eexists _, _. split; [done|]. lia. }
  destruct Hcases as [[Hredis Htrace]|[[Hf Hrep]|(s & Hs & Hsix & Hrep)]].
  - rewrite Htrace. split; [done|].
    intros e tk a He Hpost. rewrite Htrace in He.
    destruct (Hcov e tk a He Hpost) as (Hpast & Hentry).
    rewrite Hredis. split; [|done].
    pose proof (monotone_le env (steps w) (steps w') Hmono). lia.
  - eapply Hreport; [|by left|exact Hrep]. lia.
  - eapply Hreport; [|right; by exists s|exact Hrep]. lia.
Qed.




(** **** _process_scheduled_reminders *)

(* one turn of the loop over the scanned keys *)
Lemma process_reminder_key_run env check key w :
  ∃ w',
    process_reminder_key env check key w = (Ok tt, w')
    ∧ ((redis w' = redis w ∧ trace w' = trace w
        ∧ ¬ ∃ o, visible (clock env (steps w)) (redis w) key = Some (RJson o)
                 ∧ due_reminder check o)
       ∨ ∃ o posts,
           visible (clock env (steps w)) (redis w) key = Some (RJson o)
           ∧ due_reminder check o
           ∧ trace w' = trace w ++ Notify (ScheduledReminder o) :: posts ++ [Delete key]
           ∧ Forall is_telegram posts
           ∧ redis w' = delete key (redis w)).
Proof.
  unfold process_reminder_key, try_except, mbind, M_bind.
  rewrite redis_get_run.
  destruct (visible _ _ _) as [v|] eqn:Hv.
  2:{ eexists. split; [done|]. left. simpl. repeat split. by intros (o & ? & _). }
  destruct (truthy (Some v)) eqn:Htruthy.
  2:{ eexists. split; [done|]. left. simpl. repeat split.
      intros (o & [= ->] & _). done. }
  destruct v as [txt|t|o]; simpl;
    try (eexists; split; [done|]; left; simpl; repeat split;
         by intros (o & ? & _)).
  unfold getitem.
  destruct (o !! "remind_at") as [j|] eqn:Hat; simpl.
  2:{ eexists. split; [done|]. left. simpl. repeat split.
      intros (o' & [= <-] & d & Hd & _). congruence. }
  destruct j as [|n|txt|d]; simpl;
    try (eexists; split; [done|]; left; simpl; repeat split;
         intros (o' & [= <-] & d' & Hd & _); congruence).
  destruct (le d check) as [[|]|] eqn:Hle; simpl.
  - edestruct (send_scheduled_reminder_run env o)
      as (w1 & posts & -> & Hredis & _ & Htrace & Hposts).
    rewrite redis_delete_run. simpl in *.
    eexists. split; [done|]. right. exists o, posts. simpl.
    split; [done|]. split; [by exists d|].
    rewrite Htrace, Hredis, <- app_assoc. simpl. split; [done|]. split; [|done].
    destruct Hposts as [->|(? & ? & ? & ? & ? & _ & _ & _ & _ & _ & ->)];
      repeat constructor.
    by eexists _, _, _.
  - eexists. split; [done|]. left. simpl. repeat split.
    intros (o' & [= <-] & d' & Hd & Hle'). congruence.
  - eexists. split; [done|]. left. simpl. repeat split.
    intros (o' & [= <-] & d' & Hd & Hle'). congruence.
Qed.

Lemma not_telegram_notify what : ¬ is_telegram (Notify what).
Proof. by intros (? & ? & ? & ?). Qed.

Lemma not_telegram_delete key : ¬ is_telegram (Delete key).
Proof. by intros (? & ? & ? & ?). Qed.

(* the whole loop, over keys that are pairwise different *)
Lemma reminder_keys_run env check keys : ∀ w,
  NoDup keys →
  ∃ w' new,
    for_each (process_reminder_key env check) keys w = (Ok tt, w')
    ∧ trace w' = trace w ++ new
    ∧ (∀ k, k ∉ keys → redis w' !! k = redis w !! k)
    ∧ (∀ k, Delete k ∈ new → redis w' !! k = None)
    ∧ (∀ o, Notify (ScheduledReminder o) ∈ new → due_reminder check o)
    ∧ (∀ k e o d,
         k ∈ keys → redis w !! k = Some e →
         (∀ n, live (clock env n) e = true) →
         value e = RJson o → o !! "remind_at" = Some (JTime d) →
         (le d check = Some true →
            redis w' !! k = None
            ∧ ∃ pre post, new = pre ++ Notify (ScheduledReminder o) :: post
                          ∧ Delete k ∈ post)
         ∧ (le d check = Some false → redis w' !! k = Some e)).
Proof.
  induction keys as [|key keys IH]; intros w Hnd; simpl.
  - exists w, []. rewrite app_nil_r. repeat split; try done.
    + intros k H. by apply elem_of_nil in H.
    + intros o H. by apply elem_of_nil in H.
    + by apply elem_of_nil in H.
    + by apply elem_of_nil in H.
  - apply NoDup_cons in Hnd as [Hkey Hnd].
    destruct (process_reminder_key_run env check key w) as (w1 & Hrun & Hstep).
    destruct (IH w1 Hnd) as (w' & new & Hrest & Htrace & Hframe & Hdel & Hnot & Hmain).
    unfold mbind, M_bind. rewrite Hrun, Hrest.
    (* what the first turn did, in a form common to both cases *)
    assert (∃ new1,
      trace w1 = trace w ++ new1
      ∧ (∀ k, k ≠ key → redis w1 !! k = redis w !! k)
      ∧ (∀ k, Delete k ∈ new1 → k = key ∧ redis w1 !! key = None)
      ∧ (∀ o, Notify (ScheduledReminder o) ∈ new1 → due_reminder check o)
      ∧ (∀ e o d,
           redis w !! key = Some e → (∀ n, live (clock env n) e = true) →
           value e = RJson o → o !! "remind_at" = Some (JTime d) →
           (le d check = Some true →
              redis w1 !! key = None
              ∧ ∃ post, new1 = Notify (ScheduledReminder o) :: post
                        ∧ Delete key ∈ post)
           ∧ (le d check = Some false → redis w1 !! key = redis w !! key)))
      as (new1 & Htrace1 & Hframe1 & Hdel1 & Hnot1 & Hmain1).
    { destruct Hstep as [(Hredis & Htr & Hno)|(o & posts & Hv & Hdue & Htr & Hposts & Hredis)].
      - exists []. rewrite app_nil_r. split; [done|]. split; [by rewrite Hredis|].
        split; [intros k H; by apply elem_of_nil in H|].
        split; [intros o H; by apply elem_of_nil in H|].
        intros e o d He Hlive Hval Hat. split; [|by rewrite Hredis].
        intros Hle. exfalso. apply Hno. exists o. split; [|by exists d].
        unfold visible. by rewrite He, Hlive, Hval.
      - exists (Notify (ScheduledReminder o) :: posts ++ [Delete key]).
        split; [done|].
        split; [intros k Hk; by rewrite Hredis, lookup_delete_ne|].
        assert (∀ x, x ∈ posts → is_telegram x) as Htel by by apply Forall_forall.
        split; [|split].
        + intros k [?|[Hin|Hin]%elem_of_app]%elem_of_cons; [done| |].
          * by apply Htel, not_telegram_delete in Hin.
          * apply list_elem_of_singleton in Hin as [= ->].
            by rewrite Hredis, lookup_delete_eq.
        + intros o' [[= ->]|[Hin|Hin]%elem_of_app]%elem_of_cons; [done| |].
          * by apply Htel, not_telegram_notify in Hin.
          * by apply list_elem_of_singleton in Hin.
        + intros e o' d He Hlive Hval Hat.
          assert (o' = o) as ->.
          { unfold visible in Hv. rewrite He, Hlive, Hval in Hv. congruence. }
          split.
          * intros _. split; [by rewrite Hredis, lookup_delete_eq|].
            eexists. split; [done|]. apply elem_of_app. right. left.
          * intros Hle. destruct Hdue as (d' & Hd' & Hle'). congruence. }
    exists w', (new1 ++ new). split; [done|].
    split; [by rewrite Htrace, Htrace1, app_assoc|].
    split; [|split; [|split]].
    + intros k Hk. apply not_elem_of_cons in Hk as [Hne Hk].
      by rewrite Hframe, Hframe1.
    + intros k [Hin|Hin]%elem_of_app; [|by apply Hdel].
      destruct (Hdel1 k Hin) as [-> Hnone]. by rewrite Hframe.
    + intros o [Hin|Hin]%elem_of_app; [by apply Hnot1|by apply Hnot].
    + intros k e o d Hk He Hlive Hval Hat.
      apply elem_of_cons in Hk as [->|Hk].
      * destruct (Hmain1 e o d He Hlive Hval Hat) as [Hdue1 Hlater1].
        split.
        -- intros Hle. destruct (Hdue1 Hle) as (Hnone & post & -> & Hin).
           split; [by rewrite Hframe|].
           exists [], (post ++ new). split; [done|]. apply elem_of_app. by left.
        -- intros Hle. by rewrite Hframe, Hlater1.
      * assert (k ≠ key) as Hne by (intros ->; done).
        assert (redis w1 !! k = Some e) as He1 by by rewrite Hframe1.
        destruct (Hmain k e o d Hk He1 Hlive Hval Hat) as [Hdue Hlater].
        split; [|done].
        intros Hle. destruct (Hdue Hle) as (Hnone & pre & post & -> & Hin).
        split; [done|]. exists (new1 ++ pre), post.
        split; [by rewrite <- app_assoc|done].
Qed.



End ReminderFacts.

Module AnalyticsBounds.
Import Analytics AnalyticsViews AnalyticsFacts.

(** **** Counters that the loops keep in step *)

Lemma total_count_bump {K} `{EqDecision K} (key : K) counts :
  total_count (bump key counts) = total_count counts + 1.
Proof.
  induction counts as [|[k n] counts IH]; simpl; [done|].
  case_decide; simpl; [lia|]. rewrite IH. lia.
Qed.

(* the outer loop counts one priority per task and one overdue completion
   per overdue completion activity *)
Lemma scan_groups_side_counters groups : ∀ t t',
  scan_groups groups t = Ok t' →
  total_count (priority_counts t')
  = total_count (priority_counts t) + Z.of_nat (length groups)
  ∧ n_overdue t'
    = n_overdue t + Z.of_nat (length (overdue_completions (members groups))).
Proof.
  induction groups as [|[k l] groups IH]; intros t t'; simpl.
  - intros [= <-]. simpl. lia.
  - destruct (scan_task l None "medium" _) as [[prio t1]|e] eqn:Hl; [|done].
    intros Hrest.
    destruct (scan_task_ok l None "medium"
                {| n_total := n_total t + 1; n_completed := n_completed t;
                   n_cancelled := n_cancelled t; n_overdue := n_overdue t;
                   completion_times := completion_times t;
                   completion_hours := completion_hours t;
                   priority_counts := priority_counts t |})
      as (prio' & t1' & Hl' & _ & _ & _ & Hov & _ & _ & Hprio).
    { by eapply scan_task_comparable. }
    rewrite Hl in Hl'. injection Hl' as <- <-. simpl in *.
    apply IH in Hrest as [Hp Ho]. simpl in *.
    rewrite Hp, Ho, total_count_bump, Hprio, Hov.
    unfold members. simpl. rewrite overdue_completions_app, length_app. lia.
Qed.

Lemma overdue_completions_group_by_task acts :
  length (overdue_completions (members (group_by_task acts)))
  = length (overdue_completions acts).
Proof.
  apply Permutation_length, filter_Permutation_list, members_group_by_task.
Qed.

Lemma length_filter_le {A} (f : A → bool) l :
  (length (List.filter f l) ≤ length l)%nat.
Proof. induction l as [|a l IH]; simpl; [done|]. destruct (f a); simpl; lia. Qed.

Lemma filter_filter_le {A} (f g : A → bool) l :
  (∀ a, f a = true → g a = true) →
  (length (List.filter f l) ≤ length (List.filter g l))%nat.
Proof.
  intros Hfg. induction l as [|a l IH]; simpl; [done|].
  destruct (f a) eqn:Hf.
  - rewrite (Hfg a Hf). simpl. lia.
  - destruct (g a); simpl; lia.
Qed.

Lemma closings_split l :
  (length (completions l) + length (cancellations l) = length (closings l))%nat.
Proof.
  unfold completions, cancellations, closings.
  induction l as [|a l IH]; simpl; [done|].
  destruct (is_completed a) eqn:Hc.
  - rewrite (completed_not_cancelled a Hc). simpl. lia.
  - destruct (is_cancelled a); simpl; lia.
Qed.

Lemma distinct_tasks_nil acts : distinct_tasks acts = [] ↔ acts = [].
Proof.
  split; [|by intros ->]. destruct acts as [|a acts]; [done|]. intros H.
  assert (task_id a ∈ distinct_tasks (a :: acts)) as Hin.
  { unfold distinct_tasks. apply elem_of_remove_dups. simpl. left. }
  rewrite H in Hin. by apply elem_of_nil in Hin.
Qed.

Lemma length_distinct_tasks acts :
  (length (distinct_tasks acts) ≤ length acts)%nat.
Proof.
  unfold distinct_tasks. rewrite <- (length_map task_id acts).
  generalize (map task_id acts). intros l.
  induction l as [|x l IH]; simpl; [done|]. case_decide; simpl; lia.
Qed.


Lemma elem_of_bump {K} `{EqDecision K} (key k : K) n counts :
  (k, n) ∈ bump key counts →
  (k, n) ∈ counts ∨ (k = key ∧ (n = 1 ∨ ∃ m, (k, m) ∈ counts ∧ n = m + 1)).
Proof.
  induction counts as [|[k' n'] counts IH]; simpl.
  - intros [= -> ->]%list_elem_of_singleton. right. split; [done|by left].
  - case_decide as Hk.
    + intros [[= -> ->]|Hin]%elem_of_cons.
      * right. split; [done|]. right. exists n'. split; [left|done].
      * left. by right.
    + intros [[= -> ->]|Hin]%elem_of_cons; [left; left|].
      destruct (IH Hin) as [?|(-> & [->|(m & Hm & ->)])].
      * left. by right.
      * right. split; [done|by left].
      * right. split; [done|]. right. exists m. split; [by right|done].
Qed.

(* where the priority filed for a task comes from *)
Lemma scan_task_priority l : ∀ created prio t prio' t',
  scan_task l created prio t = Ok (prio', t') →
  prio' = prio ∨ prio' = "medium"
  ∨ ∃ a, a ∈ l ∧ is_created a = true ∧ priority a = Some prio'.
Proof.
  induction l as [|a l IH]; intros created prio t prio' t'; simpl.
  - intros [= <- <-]. by left.
  - assert (∀ created prio t,
      scan_task l created prio t = Ok (prio', t') →
      prio' = prio ∨ prio' = "medium"
      ∨ ∃ b, b ∈ a :: l ∧ is_created b = true ∧ priority b = Some prio') as IH'.
    { intros c p t0 H. destruct (IH _ _ _ _ _ H) as [?|[?|(b & ? & ? & ?)]]; eauto.
      right. right. exists b. split; [by right|done]. }
    destruct (String.eqb (action a) "created") eqn:Hcr.
    { intros H. destruct (IH' _ _ _ H) as [Hp|[?|?]]; eauto.
      destruct (priority a) as [p|] eqn:Hpa; simpl in Hp; [|by right; left].
      right. right. exists a. split; [left|]. split; [done|]. by rewrite Hpa, Hp. }
    destruct (String.eqb (action a) "completed").
    { destruct created as [c|]; [destruct (sub _ _); [|done]|]; apply IH'. }
    destruct (String.eqb (action a) "cancelled"); apply IH'.
Qed.

Lemma scan_task_counters l : ∀ created prio t prio' t',
  scan_task l created prio t = Ok (prio', t') →
  n_total t' = n_total t ∧ priority_counts t' = priority_counts t
  ∧ n_overdue t' = n_overdue t + Z.of_nat (length (overdue_completions l)).
Proof.
  intros created prio t prio' t' H.
  destruct (scan_task_ok l created prio t)
    as (p & t1 & Hl & Htot & _ & _ & Hov & _ & _ & Hprio).
  { by eapply scan_task_comparable. }
  rewrite H in Hl. by injection Hl as <- <-.
Qed.

Lemma scan_groups_priorities acts groups : ∀ t t',
  (∀ a, a ∈ members groups → a ∈ acts) →
  (∀ k n, (k, n) ∈ priority_counts t → 0 < n ∧ priority_from acts k) →
  scan_groups groups t = Ok t' →
  ∀ k n, (k, n) ∈ priority_counts t' → 0 < n ∧ priority_from acts k.
Proof.
  induction groups as [|[tid l] groups IH]; intros t t' Hsub Hinv; simpl.
  - by intros [= <-].
  - destruct (scan_task l None "medium" _) as [[prio t1]|e] eqn:Hl; [|done].
    apply IH.
    + intros a Ha. apply Hsub. unfold members. simpl.
      apply elem_of_app. by right.
    + simpl. intros k n Hkn.
      destruct (scan_task_counters _ _ _ _ _ _ Hl) as (_ & Hprio & _).
      simpl in Hprio. rewrite Hprio in Hkn.
      apply elem_of_bump in Hkn as [Hkn|[-> Hn]]; [by apply Hinv|].
      split.
      * destruct Hn as [->|(m & Hm & ->)]; [lia|].
        destruct (Hinv _ _ Hm). lia.
      * destruct (scan_task_priority _ _ _ _ _ _ Hl) as [->|[->|(a & Ha & Hc & Hp)]];
          [by left|by left|].
        right. exists a. split; [|done]. apply Hsub. unfold members. simpl.
        apply elem_of_app. by left.
Qed.

(** X1.  The statistics [_calculate_productivity_stats] returns have
    [cancelled_tasks] equal to the number of "cancelled" activities and
    [overdue_tasks] equal to the number of "completed" activities flagged
    [was_overdue]; hence 0 <= overdue_tasks <= completed_tasks,
    completed_tasks + cancelled_tasks <= len(activities),
    total_tasks <= len(activities), total_tasks is 0 only for an empty
    activity list, and the completion rate is never negative. *)
Theorem statistics_counters user_id activities start_date end_date stats :
  _calculate_productivity_stats user_id activities start_date end_date
  = Ok stats →
  cancelled_tasks stats = Z.of_nat (length (cancellations activities))
  ∧ overdue_tasks stats = Z.of_nat (length (overdue_completions activities))
  ∧ 0 <= overdue_tasks stats <= completed_tasks stats
  ∧ completed_tasks stats + cancelled_tasks stats
    <= Z.of_nat (length activities)
  ∧ 0 <= total_tasks stats <= Z.of_nat (length activities)
  ∧ (total_tasks stats = 0 ↔ activities = [])
  ∧ (0 <= completion_rate stats)%Q.
Proof.
  unfold _calculate_productivity_stats. intros Hstats.
  destruct (scan_groups _ _) as [t|] eqn:Ht; [|done].
  destruct (scan_groups_group_by_task _ _ Ht) as (H1 & H2 & H3 & _ & _).
  destruct (scan_groups_side_counters _ _ _ Ht) as [_ Hov].
  rewrite overdue_completions_group_by_task in Hov. simpl in Hov.
  injection Hstats as <-. simpl.
  rewrite H1, H2, H3, Hov.
  pose proof (length_distinct_tasks activities) as Hd.
  pose proof (closings_split activities) as Hsplit.
  pose proof (length_filter_le (λ a, is_completed a || is_cancelled a) activities)
    as Hcl. fold (closings activities) in Hcl.
  assert (length (overdue_completions activities)
          ≤ length (completions activities))%nat as Hoc.
  { apply filter_filter_le. by intros a [? _]%andb_prop. }
  split; [done|]. split; [done|]. split; [lia|]. split; [lia|].
  split; [lia|]. split.
  { split; [|by intros ->].
    intros H0. apply distinct_tasks_nil, length_zero_iff_nil. lia. }
  destruct (0 <? _) eqn:Hpos; [|done].
  apply Z.ltb_lt in Hpos.
  apply Qle_shift_div_l.
  - change 0%Q with (inject_Z 0). rewrite <- Zlt_Qlt. lia.
  - rewrite Qmult_0_l. change 0%Q with (inject_Z 0).
    rewrite <- Zle_Qle. lia.
Qed.

Lemma statistics_counters_witness :
  match _calculate_productivity_stats 3 tidy_history day0 day0 with
  | Ok stats =>
      overdue_tasks stats = 1 ∧ cancelled_tasks stats = 1
      ∧ 0 <= overdue_tasks stats <= completed_tasks stats
  | Raised _ => False
  end.
Proof.
  pose proof (statistics_counters 3 tidy_history day0 day0) as H.
  destruct (_calculate_productivity_stats _ _ _ _) as [stats|e] eqn:E.
  - destruct (H stats eq_refl) as (_ & _ & Hle & _).
    vm_compute in E. injection E as <-. split; [done|]. split; [done|exact Hle].
  - vm_compute in E. discriminate.
Defined.

(** X2.  In the statistics [_calculate_productivity_stats] returns,
    [tasks_by_priority] files every task under exactly one priority: its
    counts are positive and add up to [total_tasks], and each key is either
    "medium" (the default) or the priority recorded in some "created"
    activity of the input. *)
Theorem priority_counts_cover_tasks user_id activities start_date end_date stats :
  _calculate_productivity_stats user_id activities start_date end_date
  = Ok stats →
  total_count (tasks_by_priority stats) = total_tasks stats
  ∧ ∀ k n, (k, n) ∈ tasks_by_priority stats →
      0 < n
      ∧ (k = "medium"
         ∨ ∃ a, a ∈ activities ∧ action a = "created" ∧ priority a = Some k).
Proof.
  unfold _calculate_productivity_stats. intros Hstats.
  destruct (scan_groups _ _) as [t|] eqn:Ht; [|done].
  destruct (scan_groups_group_by_task _ _ Ht) as (H1 & _).
  destruct (scan_groups_side_counters _ _ _ Ht) as [Hsum _].
  injection Hstats as <-. simpl. split.
  - rewrite Hsum, H1, length_group_by_task. simpl. lia.
  - intros k n Hkn.
    assert (∀ a, a ∈ members (group_by_task activities) → a ∈ activities) as Hsub.
    { intros a Ha. by rewrite <- (members_group_by_task activities). }
    assert (∀ k n, (k, n) ∈ priority_counts tally0
                   → 0 < n ∧ priority_from activities k) as Hinv.
    { by intros ? ? ?%elem_of_nil. }
    destruct (scan_groups_priorities activities _ _ _ Hsub Hinv Ht k n Hkn)
      as [Hn Hk].
    split; [done|]. destruct Hk as [->|(a & Ha & Hc & Hp)]; [by left|].
    right. exists a. split; [done|]. split; [|done].
    by apply String.eqb_eq.
Qed.

Lemma priority_counts_cover_tasks_witness :
  match _calculate_productivity_stats 3 tidy_history day0 day0 with
  | Ok stats =>
      tasks_by_priority stats = [("high", 1); ("medium", 1)]
      ∧ total_count (tasks_by_priority stats) = total_tasks stats
  | Raised _ => False
  end.
Proof.
  pose proof (priority_counts_cover_tasks 3 tidy_history day0 day0) as H.
  destruct (_calculate_productivity_stats _ _ _ _) as [stats|e] eqn:E.
  - destruct (H stats eq_refl) as [Hsum _].
    vm_compute in E. injection E as <-. split; [done|exact Hsum].
  - vm_compute in E. discriminate.
Defined.

Lemma group_of_elem k l groups :
  NoDup (map fst groups) → (k, l) ∈ groups → group_of k groups = l.
Proof.
  induction groups as [|[k' l'] groups IH]; simpl.
  - by intros _ ?%elem_of_nil.
  - intros [Hk' Hnd]%NoDup_cons [[= -> ->]|Hin]%elem_of_cons.
    + by rewrite decide_True.
    + rewrite decide_False; [by apply IH|].
      intros ->. apply Hk'. apply list_elem_of_In.
      apply list_elem_of_In in Hin. by apply (in_map fst) in Hin.
Qed.

Lemma closings_app l l' : closings (l ++ l') = closings l ++ closings l'.
Proof. apply List.filter_app. Qed.

Lemma closings_members groups :
  Forall (λ g, (length (closings (snd g)) ≤ 1)%nat) groups →
  (length (closings (members groups)) ≤ length groups)%nat.
Proof.
  induction 1 as [|[k l] groups Hl _ IH]; [done|].
  unfold members in *. simpl in *. rewrite closings_app, length_app. lia.
Qed.

(** X3.  When no task of the input has more than one closing activity (a
    "completed" or a "cancelled" one), the statistics of
    [_calculate_productivity_stats] are within the documented bounds:
    completed_tasks + cancelled_tasks <= total_tasks, the "todo" entry of
    [tasks_by_status] is not negative, and the completion rate is at most
    1. *)
Theorem single_closing_keeps_bounds user_id activities start_date end_date stats :
  (∀ tid, (length (closings (of_task tid activities)) ≤ 1)%nat) →
  _calculate_productivity_stats user_id activities start_date end_date
  = Ok stats →
  completed_tasks stats + cancelled_tasks stats <= total_tasks stats
  ∧ 0 <= lookup_count "todo" (tasks_by_status stats)
  ∧ (completion_rate stats <= 1)%Q.
Proof.
  unfold _calculate_productivity_stats. intros Hone Hstats.
  destruct (scan_groups _ _) as [t|] eqn:Ht; [|done].
  destruct (scan_groups_group_by_task _ _ Ht) as (H1 & H2 & H3 & _ & _).
  injection Hstats as <-. simpl.
  assert (length (closings activities) ≤ length (distinct_tasks activities))%nat
    as Hle.
  { rewrite <- length_group_by_task.
    assert (closings (members (group_by_task activities)) ≡ₚ closings activities)
      as Hp by apply filter_Permutation_list, members_group_by_task.
    rewrite <- (Permutation_length Hp). apply closings_members.
    apply Forall_forall. intros [k l] Hin. simpl.
    rewrite <- (group_of_elem k l (group_by_task activities));
      [|apply keys_group_by_task|done].
    rewrite group_of_group_by_task. apply Hone. }
  pose proof (closings_split activities) as Hsplit.
  rewrite H1, H2, H3.
  split; [lia|]. split; [unfold lookup_count; simpl; lia|].
  destruct (0 <? _) eqn:Hpos; [|done].
  apply Z.ltb_lt in Hpos.
  apply Qle_shift_div_r.
  - change 0%Q with (inject_Z 0). rewrite <- Zlt_Qlt. lia.
  - rewrite Qmult_1_l. rewrite <- Zle_Qle. lia.
Qed.

Lemma single_closing_keeps_bounds_witness :
  (∀ tid, (length (closings (of_task tid tidy_history)) ≤ 1)%nat)
  ∧ match _calculate_productivity_stats 3 tidy_history day0 day0 with
    | Ok stats =>
        completed_tasks stats + cancelled_tasks stats <= total_tasks stats
        ∧ (completion_rate stats <= 1)%Q
    | Raised _ => False
    end.
Proof.
  assert (∀ tid, (length (closings (of_task tid tidy_history)) ≤ 1)%nat) as Hone.
  { intros tid. unfold of_task, tidy_history, closings. simpl.
    repeat case_bool_decide; simpl; lia. }
  split; [exact Hone|].
  pose proof (single_closing_keeps_bounds 3 tidy_history day0 day0) as H.
  destruct (_calculate_productivity_stats _ _ _ _) as [stats|e] eqn:E.
  - destruct (H stats Hone eq_refl) as (H1 & _ & H2). split; [exact H1|exact H2].
  - vm_compute in E. discriminate.
Defined.

End AnalyticsBounds.

Module NamingShape.
Import Naming NamingViews NamingFacts.

(** **** What the parts of the pattern denote *)

Lemma denotes_cat_inv r1 r2 s :
  denotes (Cat r1 r2) s ↔ ∃ s1 s2, s = s1 ++ s2 ∧ denotes r1 s1 ∧ denotes r2 s2.
Proof.
  split.
  - intros H. remember (Cat r1 r2) as r eqn:Hr.
    destruct H as [ |p c Hp|q1 q2 s1 s2 H1 H2| | | | ]; try discriminate.
    injection Hr as -> ->. by exists s1, s2.
  - intros (s1 & s2 & -> & H1 & H2). by constructor.
Qed.

Lemma denotes_class_inv p s :
  denotes (Class p) s ↔ ∃ c, s = [c] ∧ p c = true.
Proof.
  split.
  - intros H. remember (Class p) as r eqn:Hr.
    destruct H as [ |q c Hq| | | | | ]; try discriminate.
    injection Hr as ->. by exists c.
  - intros (c & -> & Hc). by constructor.
Qed.

Lemma denotes_star_class p s :
  denotes (Star (Class p)) s ↔ forallb p s = true.
Proof.
  split.
  - intros H. remember (Star (Class p)) as r eqn:Hr.
    induction H as [ | | | | | |r s1 s2 H1 _ H2 IH]; try discriminate; [done|].
    injection Hr as ->. apply denotes_class_inv in H1 as (c & -> & Hc).
    simpl. rewrite Hc. by apply IH.
  - induction s as [|c s IH]; simpl; [constructor|].
    intros [Hc Hs]%andb_prop. apply (denotes_star_more _ [c] s); [|by apply IH].
    by constructor.
Qed.

Lemma denotes_plus_class p s :
  denotes (Plus (Class p)) s ↔ s ≠ [] ∧ forallb p s = true.
Proof.
  unfold Plus. rewrite denotes_cat_inv. split.
  - intros (s1 & s2 & -> & (c & -> & Hc)%denotes_class_inv & H2%denotes_star_class).
    simpl. by rewrite Hc, H2.
  - destruct s as [|c s]; [by intros [? _]|]. simpl.
    intros [_ [Hc Hs]%andb_prop]. exists [c], s. split; [done|].
    split; [by apply denotes_class_inv; exists c|by apply denotes_star_class].
Qed.

Lemma denotes_lit str s : denotes (Lit str) s ↔ s = chars str.
Proof.
  revert s. induction str as [|c str IH]; intros s; simpl.
  - split; [|intros ->; constructor]. intros H. remember Eps as r eqn:Hr.
    by destruct H.
  - rewrite denotes_cat_inv. split.
    + intros (s1 & s2 & -> & (c' & -> & Hc)%denotes_class_inv & H2%IH).
      apply Ascii.eqb_eq in Hc as <-. simpl. by rewrite H2.
    + intros ->. exists [c], (chars str). split; [done|].
      split; [|by apply IH]. apply denotes_class_inv. exists c.
      split; [done|apply Ascii.eqb_refl].
Qed.

Lemma denotes_anyof l s : denotes (AnyOf l) s ↔ ∃ t, t ∈ l ∧ s = chars t.
Proof.
  induction l as [|t l IH]; simpl.
  - split; [|by intros (t & ?%elem_of_nil & _)]. intros H.
    remember Void as r eqn:Hr. by destruct H.
  - split.
    + intros H. remember (Alt (Lit t) (AnyOf l)) as r eqn:Hr.
      destruct H as [ | | |r1 r2 s H|r1 r2 s H| | ]; try discriminate;
        injection Hr as -> ->.
      * apply denotes_lit in H. exists t. split; [left|done].
      * apply IH in H as (t' & Ht' & ->). exists t'. split; [by right|done].
    + intros (t' & [->|Ht']%elem_of_cons & ->).
      * apply denotes_alt_l. by apply denotes_lit.
      * apply denotes_alt_r. apply IH. by exists t'.
Qed.

Lemma service_regex_shape l :
  accepts service_regex l = true ↔ well_formed_name l.
Proof.
  rewrite accepts_denotes. unfold service_regex, well_formed_name.
  rewrite denotes_cat_inv. split.
  - intros (ctx & s1 & -> & [Hctx Hlow]%denotes_plus_class & H).
    apply denotes_cat_inv in H as (u1 & s2 & -> & ->%denotes_lit & H).
    apply denotes_cat_inv in H as (dom & s3 & -> & [Hdom Hlu]%denotes_plus_class & H).
    apply denotes_cat_inv in H as (u2 & s4 & -> & ->%denotes_lit & H).
    apply denotes_anyof in H as (ty & Hty & ->).
    by exists ctx, dom, ty.
  - intros (ctx & dom & ty & -> & Hctx & Hlow & Hdom & Hlu & Hty).
    exists ctx, ("_"%char :: dom ++ "_"%char :: chars ty).
    split; [done|]. split; [by apply denotes_plus_class|].
    apply denotes_cat_inv. exists ["_"%char], (dom ++ "_"%char :: chars ty).
    split; [done|]. split; [by apply denotes_lit|].
    apply denotes_cat_inv. exists dom, ("_"%char :: chars ty).
    split; [done|]. split; [by apply denotes_plus_class|].
    apply denotes_cat_inv. exists ["_"%char], (chars ty).
    split; [done|]. split; [by apply denotes_lit|].
    apply denotes_anyof. by exists ty.
Qed.

(** X4.  [VALID_SERVICE_PATTERN] matches exactly the names of the shape
    context_domain_type - a non-empty run of a-z, an underscore, a non-empty
    run of a-z and underscores, an underscore and one of the eight service
    types - and the same names followed by one newline (the [$] anchor
    matches before a final newline). *)
Theorem valid_service_pattern_shape (s : string) :
  VALID_SERVICE_PATTERN s = true ↔
  well_formed_name (chars s)
  ∨ ∃ l, chars s = l ++ [newline] ∧ well_formed_name l.
Proof.
  unfold VALID_SERVICE_PATTERN. rewrite orb_true_iff, service_regex_shape.
  apply or_iff_compat_l.
  destruct (rev (chars s)) as [|c before] eqn:Hrev.
  - split; [done|]. intros (l & Hl & _). rewrite Hl, rev_app_distr in Hrev.
    discriminate.
  - rewrite andb_true_iff, Ascii.eqb_eq, service_regex_shape.
    apply (f_equal (@rev ascii)) in Hrev. rewrite rev_involutive in Hrev.
    simpl in Hrev. split.
    + intros [-> Hwf]. by exists (rev before).
    + intros (l & Hl & Hwf). rewrite Hl in Hrev.
      apply app_inj_tail in Hrev as [-> ->]. done.
Qed.

Lemma pattern_without_final_newline (s : string) :
  (∀ l, chars s ≠ l ++ [newline]) →
  VALID_SERVICE_PATTERN s = true ↔ well_formed_name (chars s).
Proof.
  intros Hnl. unfold VALID_SERVICE_PATTERN.
  rewrite orb_true_iff, service_regex_shape. split; [|by left].
  intros [?|H]; [done|].
  destruct (rev (chars s)) as [|c before] eqn:Hrev; [done|].
  apply andb_true_iff in H as [->%Ascii.eqb_eq _].
  apply (f_equal (@rev ascii)) in Hrev. rewrite rev_involutive in Hrev.
  simpl in Hrev. by apply Hnl in Hrev.
Qed.

(** **** Names read from compose files and nginx configurations *)

Lemma chars_text l : chars (text l) = l.
Proof. apply list_ascii_of_string_of_list_ascii. Qed.

Lemma forallb_take_while p l : forallb p (take_while p l) = true.
Proof.
  induction l as [|c l IH]; simpl; [done|].
  destruct (p c) eqn:Hc; simpl; [by rewrite Hc|done].
Qed.

Lemma compose_service_plain line name :
  compose_service line = Some name → plain_name name.
Proof.
  unfold compose_service, plain_name.
  destruct (chars line) as [|c1 [|c2 rest]]; [done| |].
  { by destruct c1 as [[] [] [] [] [] [] [] []]. }
  destruct c1 as [[] [] [] [] [] [] [] []]; try done.
  destruct c2 as [[] [] [] [] [] [] [] []]; try done.
  destruct (take_while lower_or_underscore rest) as [|c name'] eqn:Hname;
    [done|].
  assert (forallb lower_or_underscore (c :: name') = true) as Hall.
  { rewrite <- Hname. apply forallb_take_while. }
  destruct (drop_while lower_or_underscore rest) as [|d after]; [done|].
  destruct d as [[] [] [] [] [] [] [] []]; try done.
  intros [= <-]. change (String c (text name')) with (text (c :: name')).
  by rewrite chars_text.
Qed.

Lemma compose_names_plain lines : ∀ b ns,
  Forall plain_name ns →
  Forall plain_name (snd (fold_left compose_names lines (b, ns))).
Proof.
  induction lines as [|line lines IH]; intros b ns Hns; simpl; [done|].
  destruct (startswith (strip line) "services:"); [by apply IH|].
  destruct (_ && startswith line "  " && _); [|by apply IH].
  destruct (compose_service line) as [name|] eqn:Hline; apply IH; [|done].
  apply Forall_app. split; [done|]. apply Forall_singleton.
  by eapply compose_service_plain.
Qed.

Lemma upstream_at_plain l name len :
  upstream_at l = Some (name, len) → plain_name name.
Proof.
  unfold upstream_at, plain_name.
  destruct (strip_prefix _ l) as [after_kw|]; [|done].
  set (after1 := drop_while isspace after_kw).
  set (after_name := drop_while lower_or_underscore after1).
  destruct (take_while isspace after_kw); [done|].
  destruct (take_while lower_or_underscore after1) as [|c name'] eqn:Hname;
    [done|].
  assert (forallb lower_or_underscore (c :: name') = true) as Hall.
  { rewrite <- Hname. apply forallb_take_while. }
  destruct (drop_while isspace after_name) as [|d after]; [done|].
  destruct d as [[] [] [] [] [] [] [] []]; try done.
  intros [= <- _]. change (String c (text name')) with (text (c :: name')).
  by rewrite chars_text.
Qed.

Lemma upstreams_plain l : ∀ line_start skip,
  Forall plain_name (upstreams line_start skip l).
Proof.
  induction l as [|c l IH]; intros line_start skip; simpl; [done|].
  destruct skip; [|apply IH].
  destruct line_start; [|apply IH].
  destruct (upstream_at (c :: l)) as [[name len]|] eqn:Hat; [|apply IH].
  apply Forall_cons. split; [by eapply upstream_at_plain|apply IH].
Qed.

Lemma forallb_last_newline l :
  forallb lower_or_underscore (l ++ [newline]) = false.
Proof. rewrite forallb_app. simpl. by rewrite andb_false_r. Qed.

(** X5.  Every name [check_docker_compose_files] reads from a compose file
    and every upstream name [check_nginx_configs] reads from a
    configuration is a non-empty run of the characters a-z and underscore:
    a service or upstream whose name has a digit, a hyphen or a capital is
    never examined.  For such a name the pattern test succeeds exactly when
    the name has the shape context_domain_type. *)
Theorem scanned_names_are_plain (body name : string) :
  name ∈ compose_services body ∨ name ∈ upstreams true 0 (chars body) →
  chars name ≠ []
  ∧ forallb lower_or_underscore (chars name) = true
  ∧ (VALID_SERVICE_PATTERN name = true ↔ well_formed_name (chars name)).
Proof.
  intros Hname.
  assert (plain_name name) as [Hne Hall].
  { destruct Hname as [Hc|Hu].
    - pose proof (compose_names_plain (split newline body) false []
                    (Forall_nil_2 _)) as H. rewrite Forall_forall in H. by apply H.
    - pose proof (upstreams_plain (chars body) true 0%nat) as H.
      rewrite Forall_forall in H. by apply H. }
  split; [done|]. split; [done|].
  apply pattern_without_final_newline. intros l Hl.
  rewrite Hl, forallb_last_newline in Hall. discriminate.
Qed.

Lemma scanned_names_are_plain_witness :
  "billing" ∈ compose_services sample_compose
  ∧ VALID_SERVICE_PATTERN "billing" = false
  ∧ forallb lower_or_underscore (chars "billing") = true.
Proof.
  assert ("billing" ∈ compose_services sample_compose) as Hin.
  { vm_compute. apply list_elem_of_In. simpl. auto. }
  split; [exact Hin|]. split; [reflexivity|].
  apply (scanned_names_are_plain sample_compose "billing" (or_introl Hin)).
Defined.

Lemma drop_spaces_head l c rest :
  drop_spaces l = c :: rest → isspace c = false.
Proof.
  induction l as [|d l IH]; simpl; [done|].
  destruct (isspace d) eqn:Hd; [done|]. by intros [= <- _].
Qed.

Lemma strip_not_newline_ended s l : chars (strip s) ≠ l ++ [newline].
Proof.
  unfold strip. rewrite chars_text. intros H.
  apply (f_equal (@rev ascii)) in H.
  rewrite rev_involutive, rev_app_distr in H. simpl in H.
  by apply drop_spaces_head in H.
Qed.

(** X6.  Every service reference [check_makefile] tests has been stripped
    of surrounding white space, so it never ends in a newline, and the
    pattern test succeeds on it exactly when the reference has the shape
    context_domain_type. *)
Theorem makefile_reference_test (body name : string) :
  name ∈ makefile_references body →
  (∀ l, chars name ≠ l ++ [newline])
  ∧ (VALID_SERVICE_PATTERN name = true ↔ well_formed_name (chars name)).
Proof.
  unfold makefile_references.
  intros (piece & -> & _)%list_elem_of_fmap.
  split; [intros l; apply strip_not_newline_ended|].
  apply pattern_without_final_newline. intros l.
  apply strip_not_newline_ended.
Qed.

Lemma makefile_reference_test_witness :
  "redis" ∈ makefile_references "mkdir -p services/{redis, template_business_api}"
  ∧ (VALID_SERVICE_PATTERN "redis" = true ↔ well_formed_name (chars "redis")).
Proof.
  assert ("redis" ∈ makefile_references
                      "mkdir -p services/{redis, template_business_api}") as Hin.
  { vm_compute. apply list_elem_of_In. simpl. auto. }
  split; [exact Hin|].
  apply (makefile_reference_test _ _ Hin).
Defined.

End NamingShape.

Module ReminderLoopFacts.
Import Reminder ReminderLoops ReminderFacts.

(** **** Keys and the list of announced tasks *)

Lemma notified_app l l' : notified (l ++ l') = notified l ++ notified l'.
Proof. apply omap_app. Qed.

Lemma due_soon_key_of_inj a b : due_soon_key_of a = due_soon_key_of b → a = b.
Proof.
  unfold due_soon_key_of. intros H%String.app_inj. by apply pretty_Z_inj in H.
Qed.

Lemma overdue_key_not_marker task tid : overdue_key task ≠ due_soon_key_of tid.
Proof. unfold overdue_key, due_soon_key_of. simpl. discriminate. Qed.

Lemma whole_minutes_negative td : td < 0 → whole_minutes td <= 0.
Proof.
  unfold whole_minutes. intros Hneg.
  assert (minutes 1 = 60000000) as Hm1 by done. rewrite Hm1.
  pose proof (Z.quot_rem' td 60000000) as Heq.
  pose proof (Z.rem_bound_pos_neg td 60000000) as Hr. lia.
Qed.

Lemma whole_minutes_positive td :
  0 < whole_minutes td → td < (whole_minutes td + 1) * minutes 1.
Proof.
  intros Hpos.
  destruct (Z.le_gt_cases 0 td) as [Hnn|Hneg].
  - unfold whole_minutes in *.
    assert (minutes 1 = 60000000) as Hm1 by done. rewrite Hm1 in *.
    pose proof (Z.quot_rem' td 60000000) as Heq.
    pose proof (Z.rem_bound_pos td 60000000 Hnn). lia.
  - apply whole_minutes_negative in Hneg. lia.
Qed.

(** **** Routines that keep the announcements unique *)

Section Once.

Variable env : Env.
Variable due_of : Z → option datetime.

Lemma marker_covers_redis w w' tid :
  redis w' = redis w → marker_covers due_of w tid → marker_covers due_of w' tid.
Proof. unfold marker_covers. by intros ->. Qed.

Lemma silent_keeps_once {A} (m : M A) : silent m → keeps_once due_of m.
Proof.
  intros Hm w P HP. destruct (Hm w) as (o & w' & new & Hrun & Hredis & Htrace & Hn).
  exists o, w', new. rewrite Hn. repeat split; try done.
  - constructor.
  - intros tid _ ?%elem_of_nil. done.
  - intros tid [Htid|?%elem_of_nil]; [|done].
    eapply marker_covers_redis; [done|by apply HP].
Qed.

Lemma keeps_once_bind {A B} (m : M A) (k : A → M B) :
  keeps_once due_of m →
  (∀ a, (∃ w w', m w = (Ok a, w')) → keeps_once due_of (k a)) →
  keeps_once due_of (m ≫= k).
Proof.
  intros Hm Hk w P HP.
  destruct (Hm w P HP) as (o & w1 & new1 & Hrun1 & Htr1 & Hnd1 & Hout1 & Hcov1).
  unfold mbind, M_bind. rewrite Hrun1. destruct o as [a|e].
  - destruct (Hk a (ex_intro _ w (ex_intro _ w1 Hrun1)) w1
                (λ tid, P tid ∨ tid ∈ notified new1) Hcov1)
      as (o & w2 & new2 & Hrun2 & Htr2 & Hnd2 & Hout2 & Hcov2).
    exists o, w2, (new1 ++ new2). split; [done|].
    split; [by rewrite Htr2, Htr1, app_assoc|].
    rewrite notified_app. split; [|split].
    + apply NoDup_app. split; [done|]. split; [|done].
      intros tid H1. apply Hout2. by right.
    + intros tid Htid [H1|H2]%elem_of_app; [by apply (Hout1 tid)|].
      apply (Hout2 tid); [by left|done].
    + intros tid [Htid|[H1|H2]%elem_of_app]; apply Hcov2; auto.
  - exists (Raised e), w1, new1. done.
Qed.

Lemma keeps_once_try {A} (m h : M A) :
  keeps_once due_of m → keeps_once due_of h →
  keeps_once due_of (try_except m h).
Proof.
  intros Hm Hh w P HP.
  destruct (Hm w P HP) as (o & w1 & new1 & Hrun1 & Htr1 & Hnd1 & Hout1 & Hcov1).
  unfold try_except. rewrite Hrun1. destruct o as [a|e].
  - exists (Ok a), w1, new1. done.
  - destruct (Hh w1 (λ tid, P tid ∨ tid ∈ notified new1) Hcov1)
      as (o & w2 & new2 & Hrun2 & Htr2 & Hnd2 & Hout2 & Hcov2).
    exists o, w2, (new1 ++ new2). split; [done|].
    split; [by rewrite Htr2, Htr1, app_assoc|].
    rewrite notified_app. split; [|split].
    + apply NoDup_app. split; [done|]. split; [|done].
      intros tid H1. apply Hout2. by right.
    + intros tid Htid [H1|H2]%elem_of_app; [by apply (Hout1 tid)|].
      apply (Hout2 tid); [by left|done].
    + intros tid [Htid|[H1|H2]%elem_of_app]; apply Hcov2; auto.
Qed.

Lemma silent_ret {A} (a : A) : silent (mret a : M A).
Proof. intros w. exists (Ok a), w, []. by rewrite app_nil_r. Qed.

Lemma silent_raise {A} e : silent (raise e : M A).
Proof. intros w. exists (Raised e), w, []. by rewrite app_nil_r. Qed.

Lemma silent_tick : silent tick.
Proof. intros w. eexists _, _, []. simpl. by rewrite app_nil_r. Qed.

Lemma silent_utcnow : silent (utcnow env).
Proof. intros w. eexists _, _, []. rewrite utcnow_run. simpl. by rewrite app_nil_r. Qed.

Lemma silent_or_raise {A} (o : option A) e : silent (or_raise o e : M A).
Proof. destruct o; [apply silent_ret|apply silent_raise]. Qed.

Lemma silent_sleep secs : silent (sleep secs).
Proof. intros w. by eexists _, _, [_]. Qed.

Lemma silent_validate_all items : silent (validate_all items).
Proof.
  induction items as [|[task|] items IH]; simpl;
    [apply silent_ret| |apply silent_raise].
  intros w. destruct (IH w) as (o & w' & new & Hrun & Hredis & Htrace & Hn).
  unfold mbind, M_bind. rewrite Hrun. destruct o; by eexists _, _, new.
Qed.

Lemma validate_all_items items w : ∀ tasks w',
  validate_all items w = (Ok tasks, w') → ∀ t, t ∈ tasks → Some t ∈ items.
Proof.
  induction items as [|[task|] items IH]; simpl; intros tasks w'.
  - intros [= <- _] t ?%elem_of_nil. done.
  - unfold mbind, M_bind.
    destruct (validate_all items w) as [[tasks'|e] w1] eqn:Hrest; [|done].
    intros [= <- _] t [->|Ht]%elem_of_cons; apply elem_of_cons; [by left|right].
    by eapply IH.
  - done.
Qed.

Lemma keeps_once_for_each {A} (body : A → M unit) l :
  (∀ x, x ∈ l → keeps_once due_of (body x)) →
  keeps_once due_of (for_each body l).
Proof.
  induction l as [|x l IH]; intros Hbody; simpl.
  - apply silent_keeps_once, silent_ret.
  - apply keeps_once_bind; [apply Hbody; apply elem_of_cons; by left|].
    intros _ _. apply IH. intros y Hy. apply Hbody. apply elem_of_cons. by right.
Qed.

(* a run of [_process_due_soon_task] for a task whose due date is the one
   on record *)
Lemma process_due_soon_task_once task :
  monotone env → due_date task = due_of (id task) →
  keeps_once due_of (_process_due_soon_task env task).
Proof.
  intros Hmono Hdue w P HP.
  destruct (process_due_soon_task_run env task w) as (w' & Hrun & Hsteps & Hcases).
  assert (∀ w', redis w' = redis w → trace w' = trace w →
    ∃ new, trace w' = trace w ++ new ∧ NoDup (notified new)
           ∧ (∀ tid, P tid → tid ∉ notified new)
           ∧ (∀ tid, P tid ∨ tid ∈ notified new → marker_covers due_of w' tid))
    as Hquiet.
  { intros w1 Hr Ht. exists []. rewrite app_nil_r. split; [done|].
    split; [constructor|]. split; [by intros tid _ ?%elem_of_nil|].
    intros tid [Htid|?%elem_of_nil]; [|done].
    eapply marker_covers_redis; [done|by apply HP]. }
  exists (Ok tt), w'. rewrite Hrun.
  destruct Hcases as [[_ ->]|[(_ & _ & Hredis & Htrace)|(Hseen & Hsent)]].
  - destruct (Hquiet {| redis := redis w; steps := S (steps w); trace := trace w |})
      as (new & ?); [done..|]. by exists new.
  - destruct (Hquiet w') as (new & ?); [done..|]. by exists new.
  - destruct Hsent as (d & m & acc & posts & n & Hd & Hm & Hwin & Htrace & Hposts
                       & Hn & Hredis).
    (* no marker covers this task: a live one would have stopped the run,
       an expired one lies after the due date *)
    assert (¬ P (id task)) as HnotP.
    { intros (v & x & Hkey & Hv & Hx)%HP.
      change (due_soon_key_of (id task)) with (due_soon_key task) in Hkey.
      unfold visible in Hseen. rewrite Hkey in Hseen. unfold live in Hseen.
      simpl in Hseen.
      destruct (Z.ltb_spec (clock env (steps w)) x) as [Hlive|Hdead].
      - apply truthy_Some in Hv. congruence.
      - specialize (Hx d). rewrite <- Hdue in Hx. specialize (Hx Hd).
        pose proof (monotone_le env (steps w) (S (steps w)) Hmono) as Hle.
        assert (wall d - clock env (S (steps w)) < 0) as Hneg by lia.
        apply whole_minutes_negative in Hneg. lia. }
    eexists. split; [done|]. split; [exact Htrace|].
    assert (notified ([Publish "task.due_soon"
                         (DueSoonBody
                            {| due_soon_task_id := id task;
                               due_soon_user_id := user_id task;
                               due_soon_timestamp :=
                                 naive (clock env (S (S (steps w))));
                               due_soon_task_data := task;
                               due_in_minutes := m |}) acc;
                       Notify (DueSoonNotification task m)]
                      ++ posts
                      ++ [Setex (due_soon_key task)
                            (Z.max (m * 60 + 86400) 3600) (RText "sent")])
            = [id task]) as ->.
    { rewrite !notified_app.
      destruct Hposts as [->|(tid & k & ->)]; reflexivity. }
    split; [apply NoDup_singleton|].
    split; [by intros tid Htid ->%list_elem_of_singleton|].
    intros tid Htid. unfold marker_covers. rewrite Hredis.
    destruct (decide (tid = id task)) as [->|Hne].
    + change (due_soon_key task) with (due_soon_key_of (id task)).
      rewrite lookup_insert_eq. eexists _, _. split; [done|]. split; [done|].
      intros d'. rewrite <- Hdue, Hd. intros [= <-].
      pose proof (whole_minutes_positive (wall d - clock env (S (steps w)))) as Hb.
      rewrite <- Hm in Hb. specialize (Hb (proj1 Hwin)).
      pose proof (monotone_le env (S (steps w)) n Hmono) as Hle.
      unfold DUE_SOON_MINUTES in Hwin.
      assert (minutes 1 = 60000000) as Hm1 by done. rewrite Hm1 in Hb.
      unfold seconds, us_per_second. lia.
    + change (due_soon_key task) with (due_soon_key_of (id task)).
      rewrite lookup_insert_ne by (intros H%due_soon_key_of_inj; done).
      destruct Htid as [Htid|Htid%list_elem_of_singleton]; [|done].
      by apply HP.
Qed.

(* [_process_overdue_task] writes under its own key only *)
Lemma process_overdue_task_once task :
  keeps_once due_of (_process_overdue_task env task).
Proof.
  intros w P HP.
  destruct (process_overdue_task_run env task w) as (w' & Hrun & Hsteps & Hcases).
  exists (Ok tt), w'. rewrite Hrun.
  assert (reported env task w w' (S (steps w))
          ∨ reported env task w w' (S (S (steps w))) →
    ∃ new, trace w' = trace w ++ new ∧ NoDup (notified new)
           ∧ (∀ tid, P tid → tid ∉ notified new)
           ∧ (∀ tid, P tid ∨ tid ∈ notified new → marker_covers due_of w' tid))
    as Hrep.
  { intros Hr.
    assert (∃ base, reported env task w w' base) as [base Hb]
      by (destruct Hr; eauto).
    destruct Hb as (d & m & acc & posts & i & _ & _ & _ & Htrace & Hposts & _ & _
                    & Hredis).
    eexists. split; [exact Htrace|].
    assert (∀ l, notified (l ++ posts
                           ++ [Setex (overdue_key task) 86400
                                 (RTime (naive (clock env i)))])
                 = notified l) as Hn.
    { intros l. rewrite !notified_app.
      destruct Hposts as [->|(tid & k & -> & _)]; simpl; by rewrite app_nil_r. }
    rewrite Hn. simpl.
    split; [constructor|]. split; [by intros tid _ ?%elem_of_nil|].
    intros tid [Htid|?%elem_of_nil]; [|done].
    destruct (HP tid Htid) as (v & x & Hkey & Hv & Hx).
    exists v, x. rewrite Hredis, lookup_insert_ne; [done|].
    apply overdue_key_not_marker. }
  destruct Hcases as [[Hredis Htrace]|[[_ Hr]|(s & _ & _ & Hr)]].
  - exists []. rewrite app_nil_r. split; [done|]. split; [done|].
    split; [constructor|]. split; [by intros tid _ ?%elem_of_nil|].
    intros tid [Htid|?%elem_of_nil]; [|done].
    eapply marker_covers_redis; [done|by apply HP].
  - destruct Hrep as (new & ?); [by left|]. by exists new.
  - destruct Hrep as (new & ?); [by right|]. by exists new.
Qed.

Variable feeds : Feeds.

Lemma check_due_soon_tasks_once :
  monotone env → due_dates_fixed feeds due_of →
  keeps_once due_of (_check_due_soon_tasks env feeds).
Proof.
  intros Hmono Hfixed. unfold _check_due_soon_tasks.
  apply keeps_once_try; [|apply silent_keeps_once, silent_ret].
  apply keeps_once_bind; [apply silent_keeps_once, silent_utcnow|]. intros now _.
  apply keeps_once_bind; [apply silent_keeps_once, silent_tick|]. intros n _.
  apply keeps_once_bind; [apply silent_keeps_once, silent_or_raise|].
  intros [code body] (w & w' & Hreply).
  destruct (due_soon_api feeds n now _) as [r|] eqn:Hr; [|done].
  injection Hreply as -> _. simpl.
  destruct (code =? 200); [|apply silent_keeps_once, silent_ret].
  apply keeps_once_bind; [apply silent_keeps_once, silent_or_raise|].
  intros items (w1 & w1' & Hitems).
  destruct body as [items'|]; [|done]. injection Hitems as -> _.
  apply keeps_once_bind; [apply silent_keeps_once, silent_validate_all|].
  intros tasks (w2 & w2' & Htasks).
  apply keeps_once_for_each. intros task Htask.
  apply process_due_soon_task_once; [done|].
  eapply Hfixed; [exact Hr|]. by eapply validate_all_items.
Qed.

Lemma check_overdue_tasks_once :
  keeps_once due_of (_check_overdue_tasks env feeds).
Proof.
  unfold _check_overdue_tasks.
  apply keeps_once_try; [|apply silent_keeps_once, silent_ret].
  apply keeps_once_bind; [apply silent_keeps_once, silent_utcnow|]. intros now _.
  apply keeps_once_bind; [apply silent_keeps_once, silent_tick|]. intros n _.
  apply keeps_once_bind; [apply silent_keeps_once, silent_or_raise|].
  intros [code body] _. simpl.
  destruct (code =? 200); [|apply silent_keeps_once, silent_ret].
  apply keeps_once_bind; [apply silent_keeps_once, silent_or_raise|].
  intros items _.
  apply keeps_once_bind; [apply silent_keeps_once, silent_validate_all|].
  intros tasks _.
  apply keeps_once_for_each. intros task _. apply process_overdue_task_once.
Qed.

Lemma periodic_reminder_check_once rounds :
  monotone env → due_dates_fixed feeds due_of →
  keeps_once due_of (_periodic_reminder_check env feeds rounds).
Proof.
  intros Hmono Hfixed. induction rounds as [|rounds IH]; simpl.
  - apply silent_keeps_once, silent_ret.
  - apply keeps_once_bind; [|done].
    apply keeps_once_try; [|apply silent_keeps_once, silent_sleep].
    apply keeps_once_bind; [by apply check_due_soon_tasks_once|]. intros _ _.
    apply keeps_once_bind; [by apply check_overdue_tasks_once|]. intros _ _.
    apply silent_keeps_once, silent_sleep.
Qed.

(* the checks swallow every exception *)
Lemma try_pass_returns (m : M unit) w : ∃ w', try_except m pass w = (Ok tt, w').
Proof. unfold try_except. destruct (m w) as [[[]|e] w']; by eexists. Qed.

Lemma check_due_soon_tasks_returns w :
  ∃ w', _check_due_soon_tasks env feeds w = (Ok tt, w').
Proof. apply try_pass_returns. Qed.

Lemma check_overdue_tasks_returns w :
  ∃ w', _check_overdue_tasks env feeds w = (Ok tt, w').
Proof. apply try_pass_returns. Qed.

Lemma periodic_reminder_check_returns rounds : ∀ w,
  ∃ w', _periodic_reminder_check env feeds rounds w = (Ok tt, w').
Proof.
  induction rounds as [|rounds IH]; intros w; simpl; [by eexists|].
  unfold mbind, M_bind, try_except.
  destruct (check_due_soon_tasks_returns w) as (w1 & ->).
  destruct (check_overdue_tasks_returns w1) as (w2 & ->).
  simpl. apply IH.
Qed.

End Once.


Lemma monotone_broker_down_once : monotone broker_down_once.
Proof. intros n. unfold broker_down_once, seconds, us_per_second. simpl. lia. Qed.


(** X8.  [_periodic_reminder_check], run for any number of rounds, always
    returns, and as long as the clock never goes back and the due date the
    task API reports for a task does not change, it announces no task as
    due soon more than once - even when the API lists the task in every
    round or several times in one reply. *)
Theorem due_soon_announced_once env feeds due_of rounds w :
  monotone env →
  due_dates_fixed feeds due_of →
  _periodic_reminder_check env feeds rounds w
  = (Ok tt, run (_periodic_reminder_check env feeds rounds) w)
  ∧ NoDup (notified
             (new_effects w (run (_periodic_reminder_check env feeds rounds) w))).
Proof.
  intros Hmono Hfixed. unfold run.
  destruct (periodic_reminder_check_returns env feeds rounds w) as (w' & Hrun).
  rewrite Hrun. simpl. split; [done|].
  destruct (periodic_reminder_check_once env due_of feeds rounds Hmono Hfixed
              w (λ _, False)) as (o & w'' & new & Hrun' & Htrace & Hnd & _);
    [done|].
  rewrite Hrun in Hrun'. injection Hrun' as _ <-.
  by rewrite (new_effects_app _ _ _ Htrace).
Qed.

Lemma due_soon_announced_once_witness :
  notified (new_effects idle
              (run (_periodic_reminder_check broker_down_once listing_twice 2) idle))
  = [7]
  ∧ NoDup (notified
             (new_effects idle
                (run (_periodic_reminder_check broker_down_once listing_twice 2)
                   idle))).
Proof.
  split; [by vm_compute|].
  apply (due_soon_announced_once broker_down_once listing_twice
           (λ _, Some (naive (minutes 30))) 2 idle monotone_broker_down_once).
  intros n a b code items task [= _ <-] Hin.
  repeat (apply elem_of_cons in Hin as [[= ->]|Hin]; [reflexivity|]).
  by apply elem_of_nil in Hin.
Defined.

(** **** _cleanup_old_reminders *)

Lemma redis_ttl_run env key w :
  ∃ ttl,
    redis_ttl env key w
    = (Ok ttl, {| redis := redis w; steps := S (steps w); trace := trace w |})
    ∧ (ttl = -1 ↔ unexpiring (redis w) key = true).
Proof.
  unfold redis_ttl, unexpiring, mbind, M_bind, tick, get_redis. simpl.
  eexists. split; [done|].
  destruct (redis w !! key) as [e|]; [|done].
  unfold live. destruct (expires_at e) as [t|]; [|done].
  destruct (Z.ltb_spec (clock env (steps w)) t) as [Hlive|Hdead]; [|done].
  split; [|by case_bool_decide]. intros H.
  assert (0 <= (t - clock env (steps w) + 500000) / us_per_second); [|lia].
  apply Z.div_pos; unfold us_per_second; lia.
Qed.

Lemma collect_expired_run env keys : ∀ expired_keys w,
  collect_expired env keys expired_keys w
  = (Ok (expired_keys ++ List.filter (unexpiring (redis w)) keys),
     {| redis := redis w; steps := (steps w + length keys)%nat;
        trace := trace w |}).
Proof.
  induction keys as [|key keys IH]; intros acc w; simpl.
  - rewrite app_nil_r, Nat.add_0_r. by destruct w.
  - unfold mbind, M_bind.
    destruct (redis_ttl_run env key w) as (ttl & -> & Httl).
    destruct (Z.eqb_spec ttl (-1)) as [Heq|Hne].
    + rewrite IH. simpl. rewrite (proj1 Httl Heq), <- app_assoc. simpl.
      do 3 f_equal. lia.
    + rewrite IH. simpl.
      destruct (unexpiring (redis w) key) eqn:Hu; [by destruct Hne; apply Httl|].
      do 3 f_equal. lia.
Qed.

Lemma lookup_foldr_delete (r : gmap string entry) keys k :
  foldr delete r keys !! k = if decide (k ∈ keys) then None else r !! k.
Proof.
  induction keys as [|key keys IH]; simpl; [done|].
  destruct (decide (key = k)) as [->|Hne].
  - rewrite lookup_delete_eq. rewrite decide_True; [done|]. apply elem_of_cons. by left.
  - rewrite lookup_delete_ne by done. rewrite IH.
    destruct (decide (k ∈ keys)) as [Hin|Hout].
    + rewrite decide_True; [done|]. apply elem_of_cons. by right.
    + rewrite decide_False; [done|]. intros [->|?]%elem_of_cons; done.
Qed.

Lemma emit_deletes_run keys : ∀ w,
  for_each (λ key, emit (Delete key)) keys w
  = (Ok tt, {| redis := redis w; steps := steps w;
               trace := trace w ++ map Delete keys |}).
Proof.
  induction keys as [|key keys IH]; intros w; simpl.
  - rewrite app_nil_r. by destruct w.
  - unfold mbind, M_bind, emit. rewrite IH. simpl. by rewrite <- app_assoc.
Qed.

(* the keys one pass removes *)
Lemma cleanup_pass_run env w :
  let stale := List.filter (unexpiring (redis w))
                 (filter (λ key, String.prefix "due_soon_sent:" key = true
                                 ∧ is_Some (visible (clock env (S (steps w)))
                                              (redis w) key))
                         (map fst (map_to_list (redis w)))) in
  ∃ n,
    cleanup_pass env w
    = (Ok tt, {| redis := foldr delete (redis w) stale; steps := n;
                 trace := trace w ++ Sleep 3600 :: map Delete stale |}).
Proof.
  intros stale.
  unfold cleanup_pass, try_except, sleep, scan_iter, mbind, M_bind, tick, emit,
    get_redis. simpl.
  rewrite collect_expired_run. simpl. fold stale.
  destruct stale as [|key stale'] eqn:Hstale.
  - eexists. simpl. done.
  - unfold redis_delete_all, mbind, M_bind, tick, get_redis, put_redis.
    cbn [redis steps trace].
    rewrite emit_deletes_run. simpl. eexists. by rewrite <- app_assoc.
Qed.

Lemma elem_of_stale env w k :
  k ∈ List.filter (unexpiring (redis w))
        (filter (λ key, String.prefix "due_soon_sent:" key = true
                        ∧ is_Some (visible (clock env (S (steps w)))
                                     (redis w) key))
                (map fst (map_to_list (redis w))))
  ↔ String.prefix "due_soon_sent:" k = true ∧ unexpiring (redis w) k = true.
Proof.
  rewrite list_elem_of_In, filter_In, <- list_elem_of_In, list_elem_of_filter.
  split.
  - intros [[[Hp _] _] Hu]. done.
  - intros [Hp Hu]. split; [|done].
    unfold unexpiring in Hu.
    destruct (redis w !! k) as [e|] eqn:He; [|done].
    apply bool_decide_eq_true in Hu.
    split.
    + split; [done|]. unfold visible, live. rewrite He, Hu. eauto.
    + apply list_elem_of_fmap. exists (k, e). split; [done|].
      by apply elem_of_map_to_list.
Qed.

(** X9.  One pass of [_cleanup_old_reminders] always returns; it sleeps an
    hour and then deletes exactly the keys matching [due_soon_sent:*] that
    have no expiry.  Every other entry - in particular every entry that
    carries an expiry - is left as it was, and nothing is sent or
    published: the effects of the pass are the sleep of 3600 seconds
    followed by the deletions. *)
Theorem cleanup_removes_unexpiring_markers env w :
  cleanup_pass env w = (Ok tt, run (cleanup_pass env) w)
  ∧ (∀ k, redis (run (cleanup_pass env) w) !! k
          = if String.prefix "due_soon_sent:" k && unexpiring (redis w) k
            then None else redis w !! k)
  ∧ (∀ e, e ∈ new_effects w (run (cleanup_pass env) w) →
          e = Sleep 3600
          ∨ ∃ k, e = Delete k ∧ String.prefix "due_soon_sent:" k = true
                 ∧ unexpiring (redis w) k = true)
  ∧ (∃ deleted,
       new_effects w (run (cleanup_pass env) w)
       = Sleep 3600 :: map Delete deleted
       ∧ ∀ k, k ∈ deleted ↔ String.prefix "due_soon_sent:" k = true
                            ∧ unexpiring (redis w) k = true).
Proof.
  unfold run. destruct (cleanup_pass_run env w) as (n & ->). simpl.
  split; [done|]. split; [|split].
  - intros k. rewrite lookup_foldr_delete.
    destruct (decide _) as [Hin|Hout].
    + apply elem_of_stale in Hin as [-> ->]. done.
    + destruct (String.prefix "due_soon_sent:" k) eqn:Hp; [|done].
      destruct (unexpiring (redis w) k) eqn:Hu; [|done].
      destruct Hout. by apply elem_of_stale.
  - intros e. rewrite (new_effects_app _ _ (Sleep 3600 :: _)) by done.
    intros [->|Hin]%elem_of_cons; [by left|]. right.
    apply list_elem_of_fmap in Hin as (k & -> & Hk).
    apply elem_of_stale in Hk as [Hp Hu]. by exists k.
  - eexists. split.
    + by apply (new_effects_app _ _ (Sleep 3600 :: _)).
    + intros k. apply elem_of_stale.
Qed.

Lemma cleanup_keeps_expiring env rounds : ∀ w k e x,
  redis w !! k = Some e → expires_at e = Some x →
  ∃ w', _cleanup_old_reminders env rounds w = (Ok tt, w')
        ∧ redis w' !! k = Some e.
Proof.
  induction rounds as [|rounds IH]; intros w k e x He Hx; simpl.
  - by exists w.
  - unfold mbind, M_bind.
    destruct (cleanup_pass_run env w) as (n & ->).
    apply (IH _ k e x); [|done]. simpl. rewrite lookup_foldr_delete.
    rewrite decide_False; [done|].
    intros [_ Hu]%elem_of_stale. unfold unexpiring in Hu.
    rewrite He, Hx in Hu. done.
Qed.

(** X10.  The marker a run of [_process_due_soon_task] leaves when it
    announces a task is never removed by [_cleanup_old_reminders], however
    many passes it makes: the marker carries an expiry, and the cleanup
    deletes only keys without one. *)
Theorem cleanup_spares_fresh_marker env task w m rounds :
  Notify (DueSoonNotification task m)
    ∈ new_effects w (run (_process_due_soon_task env task) w) →
  ∃ e,
    redis (run (_process_due_soon_task env task) w) !! due_soon_key task = Some e
    ∧ value e = RText "sent"
    ∧ redis (run (_cleanup_old_reminders env rounds)
               (run (_process_due_soon_task env task) w))
        !! due_soon_key task = Some e.
Proof.
  unfold run at 1 2 3.
  destruct (process_due_soon_task_run env task w) as (w' & Hrun & Hsteps & Hcases).
  rewrite Hrun. simpl.
  destruct Hcases as [[_ ->]|[(_ & _ & Hredis & Htrace)|(_ & Hsent)]].
  - rewrite (new_effects_app _ _ []); [|by rewrite app_nil_r].
    by intros ?%elem_of_nil.
  - rewrite (new_effects_app _ _ []); [|by rewrite app_nil_r].
    by intros ?%elem_of_nil.
  - intros _.
    destruct Hsent as (d & m' & acc & posts & n & _ & _ & _ & _ & _ & _ & Hredis).
    eexists. rewrite Hredis, lookup_insert_eq. split; [done|]. split; [done|].
    unfold run. rewrite Hrun. simpl.
    edestruct (cleanup_keeps_expiring env rounds w') as (w'' & -> & Hkept).
    { by rewrite Hredis, lookup_insert_eq. }
    { done. }
    exact Hkept.
Qed.

Lemma cleanup_spares_fresh_marker_witness :
  ∃ e,
    redis (run (_process_due_soon_task broker_down_once sample_task) idle)
      !! due_soon_key sample_task = Some e
    ∧ value e = RText "sent"
    ∧ redis (run (_cleanup_old_reminders broker_down_once 3)
               (run (_process_due_soon_task broker_down_once sample_task) idle))
        !! due_soon_key sample_task = Some e.
Proof.
  apply (cleanup_spares_fresh_marker broker_down_once sample_task idle 29 3).
  vm_compute. apply list_elem_of_In. simpl. auto.
Defined.

(** **** _get_user_telegram_session *)

(* what the loop over the scanned keys can return *)
Lemma session_among_found env user_id keys : ∀ w session w',
  session_among env user_id keys w = (Ok (Some session), w') →
  dict_get session "user_id" = user_id
  ∧ ∃ key e, key ∈ keys ∧ redis w !! key = Some e ∧ value e = RJson session.
Proof.
  induction keys as [|key keys IH]; intros w session w'; simpl; [done|].
  unfold mbind, M_bind. rewrite redis_get_run.
  set (w1 := {| redis := redis w; steps := S (steps w); trace := trace w |}).
  assert (session_among env user_id keys w1 = (Ok (Some session), w') →
          dict_get session "user_id" = user_id
          ∧ ∃ key0 e, key0 ∈ key :: keys ∧ redis w !! key0 = Some e
                      ∧ value e = RJson session) as Hrest.
  { intros (Hid & key0 & e & Hin & He & Hv)%IH. split; [done|].
    exists key0, e. split; [apply elem_of_cons; by right|done]. }
  destruct (visible _ _ key) as [v|] eqn:Hvis; [|done].
  destruct (truthy (Some v)); [|done].
  destruct v as [s|d|o]; simpl; try done.
  case_decide as Hid; [|done].
  intros [= <- _]. split; [done|].
  unfold visible in Hvis. destruct (redis w !! key) as [e|] eqn:He; [|done].
  destruct (live _ e); [|done]. injection Hvis as Hv.
  exists key, e. split; [apply elem_of_cons; by left|done].
Qed.

(* with JSON objects that do not expire under every key, the loop finds a
   session of the user whenever there is one *)
Lemma session_among_finds env user_id keys : ∀ w,
  (∀ key, key ∈ keys →
     ∃ e o, redis w !! key = Some e ∧ expires_at e = None ∧ value e = RJson o) →
  ∃ result w',
    session_among env user_id keys w = (Ok result, w')
    ∧ (result = None →
       ∀ key e o, key ∈ keys → redis w !! key = Some e → value e = RJson o →
                  dict_get o "user_id" ≠ user_id).
Proof.
  induction keys as [|key keys IH]; intros w Hjson; simpl.
  - eexists _, _. split; [done|]. by intros _ key e o ?%elem_of_nil.
  - unfold mbind, M_bind. rewrite redis_get_run.
    destruct (Hjson key) as (e & o & He & Hx & Hv); [apply elem_of_cons; by left|].
    unfold visible, live. rewrite He, Hx, Hv. simpl.
    case_decide as Hid.
    + eexists _, _. split; [done|]. done.
    + destruct (IH {| redis := redis w; steps := S (steps w); trace := trace w |})
        as (result & w' & -> & Hnone).
      { intros key' Hin. apply Hjson. apply elem_of_cons. by right. }
      exists result, w'. split; [done|]. intros Hr key' e' o'.
      intros [->|Hin]%elem_of_cons He' Hv'.
      * rewrite He in He'. injection He' as <-. rewrite Hv in Hv'.
        by injection Hv' as <-.
      * by apply (Hnone Hr key' e' o').
Qed.

(** X11.  [_get_user_telegram_session] always returns, and only reads: Redis
    and the trace are as before.  A session it returns is the JSON object
    stored under some key matching [bot_session:*], and its "user_id" equals
    the id asked for.  When every [bot_session:*] entry is a JSON object
    without expiry, it returns None only if none of them has that
    "user_id". *)
Theorem telegram_session_lookup env user_id w :
  ∃ result w',
    _get_user_telegram_session env user_id w = (Ok result, w')
    ∧ redis w' = redis w ∧ trace w' = trace w
    ∧ (∀ session, result = Some session →
         dict_get session "user_id" = user_id
         ∧ ∃ key e, String.prefix "bot_session:" key = true
                    ∧ redis w !! key = Some e ∧ value e = RJson session)
    ∧ ((∀ key e, String.prefix "bot_session:" key = true →
                 redis w !! key = Some e →
                 expires_at e = None ∧ ∃ o, value e = RJson o) →
       result = None →
       ∀ key e o, String.prefix "bot_session:" key = true →
                  redis w !! key = Some e → value e = RJson o →
                  dict_get o "user_id" ≠ user_id).
Proof.
  destruct (get_user_telegram_session_reads env user_id w)
    as (result & k & Hrun).
  exists result. eexists. split; [exact Hrun|]. simpl.
  split; [done|]. split; [done|].
  revert Hrun.
  unfold _get_user_telegram_session, try_except, scan_iter, mbind, M_bind,
    tick, get_redis. simpl.
  set (keys := filter _ _).
  set (w1 := {| redis := redis w; steps := S (steps w); trace := trace w |}).
  assert (∀ key, key ∈ keys ↔
            String.prefix "bot_session:" key = true
            ∧ is_Some (visible (clock env (steps w)) (redis w) key)) as Hkeys.
  { intros key. unfold keys. rewrite list_elem_of_filter. split; [by intros [? _]|].
    intros [Hp Hvis]. split; [done|].
    unfold visible in Hvis. destruct (redis w !! key) as [e|] eqn:He;
      [|by destruct Hvis].
    apply list_elem_of_fmap. exists (key, e). split; [done|].
    by apply elem_of_map_to_list. }
  intros Hrun. split.
  - intros session ->.
    destruct (session_among env user_id keys w1) as [[r|e] w'] eqn:Hloop;
      [|done].
    injection Hrun as -> _.
    apply session_among_found in Hloop as (Hid & key & e & Hin & He & Hv).
    split; [done|]. exists key, e. split; [by apply Hkeys|done].
  - intros Hjson ->.
    destruct (session_among_finds env user_id keys w1) as (r & w' & Hloop & Hnone).
    { intros key [Hp Hvis]%Hkeys. simpl.
      unfold visible in Hvis. destruct (redis w !! key) as [e|] eqn:He;
        [|by destruct Hvis].
      destruct (Hjson key e Hp He) as (Hx & o & Hv). by exists e, o. }
    rewrite Hloop in Hrun. injection Hrun as -> _.
    intros key e o Hp He Hv. apply (Hnone eq_refl key e o); [|done..].
    apply Hkeys. split; [done|].
    destruct (Hjson key e Hp He) as (Hx & _).
    unfold visible, live. rewrite He, Hx. eauto.
Qed.

End ReminderLoopFacts.

Module AnalyticsCacheFacts.
Import Analytics AnalyticsCache AnalyticsFacts.

Lemma cache_key_inj a b : cache_key a = cache_key b → a = b.
Proof.
  unfold cache_key. intros H%String.app_inj. by apply pretty_Z_inj in H.
Qed.

(** X12.  [_invalidate_user_stats_cache] always returns and removes the
    entry [_cache_user_stats] writes for that user, and nothing else: after
    caching the statistics of one user and invalidating the cache of a
    user, the first user's entry is gone when the two are the same and is
    the entry just written, with the REDIS_CACHE_TTL, when they differ;
    every other key is as [_cache_user_stats] left it. *)
Theorem invalidation_clears_cached_stats env stats user_id w :
  ∃ w1 w2 data,
    _cache_user_stats env stats w = (Ok tt, w1)
    ∧ _invalidate_user_stats_cache user_id w1 = (Ok tt, w2)
    ∧ redis w1 !! cache_key (stats_user_id stats) = Some (data, REDIS_CACHE_TTL)
    ∧ cached_completion_rate data = completion_rate stats
    ∧ redis w2 !! cache_key user_id = None
    ∧ (∀ k, k ≠ cache_key user_id → redis w2 !! k = redis w1 !! k)
    ∧ (user_id ≠ stats_user_id stats →
       redis w2 !! cache_key (stats_user_id stats)
       = Some (data, REDIS_CACHE_TTL))
    ∧ trace w2 = trace w1.
Proof.
  pose proof (cache_user_stats_run env stats w) as Hcache. simpl in Hcache.
  eexists _, _, _. split; [exact Hcache|].
  unfold _invalidate_user_stats_cache, try_except, mbind, M_bind, tick, del_redis.
  simpl. split; [done|].
  fold (cache_key (stats_user_id stats)). fold (cache_key user_id).
  cbn [redis trace].
  split; [by rewrite lookup_insert_eq|]. split; [done|].
  split; [by rewrite lookup_delete_eq|].
  split; [by intros k Hk; rewrite lookup_delete_ne|].
  split; [|done].
  intros Hne. rewrite lookup_delete_ne, lookup_insert_eq; [done|].
  intros H%cache_key_inj. done.
Qed.

End AnalyticsCacheFacts.

Module MetricsFacts.
Import Metrics.

(** **** Keys *)

Lemma find_insert_ne now r k k' e :
  k ≠ k' → find now (<[k := e]> r) k' = find now r k'.
Proof. intros Hne. unfold find. by rewrite lookup_insert_ne. Qed.

Lemma find_insert_eq now r k e :
  find now (<[k := e]> r) k = if live now e then Some e else None.
Proof. unfold find. by rewrite lookup_insert_eq. Qed.

Lemma lookup_after_deletes (r : gmap string entry) keys k :
  foldr delete r keys !! k = if decide (k ∈ keys) then None else r !! k.
Proof.
  induction keys as [|key keys IH]; simpl; [done|].
  destruct (decide (key = k)) as [->|Hne].
  - rewrite lookup_delete_eq. rewrite decide_True; [done|].
    apply elem_of_cons. by left.
  - rewrite lookup_delete_ne by done. rewrite IH.
    destruct (decide (k ∈ keys)) as [Hin|Hout].
    + rewrite decide_True; [done|]. apply elem_of_cons. by right.
    + rewrite decide_False; [done|]. intros [->|?]%elem_of_cons; done.
Qed.

(* a routine wrapped in try/except-pass returns *)
Lemma try_pass_ok (m : M unit) w :
  try_except m pass w = (Ok tt, (try_except m pass w).2).
Proof. unfold try_except. by destruct (m w) as [[[]|e] w']. Qed.

Section Runs.

Variable env : Env.

(** **** _update_completion_metrics *)

(* INCR followed by EXPIRE on the same key: either INCR raises and nothing
   changes, or only this key changes and it ends up with an expiry *)
Lemma incr_expire_run key secs w :
  (∃ e w', (redis_incr env key;; redis_expire env key secs) w = (Raised e, w')
           ∧ redis w' = redis w ∧ trace w' = trace w)
  ∨ (∃ w' v x,
       (redis_incr env key;; redis_expire env key secs) w = (Ok tt, w')
       ∧ redis w' = <[key := {| value := RInt v; expires_at := Some x |}]> (redis w)
       ∧ trace w' = trace w
       ∧ (find (clock env (steps w)) (redis w) key = None → v = 1)
       ∧ (∀ e u, find (clock env (steps w)) (redis w) key = Some e →
                 value e = RInt u → v = u + 1)).
Proof.
  unfold redis_incr, redis_expire, mbind, M_bind, tick, get_redis, put_redis,
    pass, raise. simpl.
  destruct (find (clock env (steps w)) (redis w) key) as [e|] eqn:Hfind; simpl.
  - destruct (value e) as [v|s|l] eqn:Hv; simpl;
      try (left; eexists _, _; by split).
    destruct (Z.ltb_spec v INT64_MAX); simpl;
      [|left; eexists _, _; by split].
    right. rewrite find_insert_eq.
    destruct (live _ _) eqn:Hlive; simpl.
    + eexists _, _, _. split; [done|]. simpl. rewrite insert_insert_eq.
      split; [done|]. split; [done|]. split; [done|].
      intros e' u [= <-] Hu. congruence.
    + unfold find in Hfind. destruct (redis w !! key) as [e0|] eqn:He0; [|done].
      destruct (live (clock env (steps w)) e0) eqn:Hl0; [|done].
      injection Hfind as ->.
      unfold live in Hlive, Hl0. simpl in Hlive.
      destruct (expires_at e) as [x|] eqn:Hx; [|done].
      eexists _, _, _. split; [done|]. simpl.
      split; [done|]. split; [done|]. split; [done|].
      intros e' u [= <-] Hu. congruence.
  - right. rewrite find_insert_eq. simpl.
    eexists _, _, _. split; [done|]. simpl. rewrite insert_insert_eq.
    split; [done|]. split; [done|]. split; [done|]. done.
Qed.

(* LPUSH, LTRIM and EXPIRE on one key, starting without the key *)
Lemma push_trim_expire_new key x secs w :
  redis w !! key = None →
  (redis_lpush env key x;; redis_ltrim_head env key 99;;
   redis_expire env key secs) w
  = (Ok tt,
     {| redis := <[key := {| value := RList [x];
                             expires_at := Some (clock env (S (S (steps w)))
                                                 + seconds secs) |}]> (redis w);
        steps := S (S (S (steps w))); trace := trace w |}).
Proof.
  intros Hnone.
  unfold redis_lpush, redis_ltrim_head, redis_expire, mbind, M_bind, tick,
    get_redis, put_redis. simpl.
  unfold find at 1. rewrite Hnone. simpl.
  rewrite find_insert_eq. simpl. rewrite find_insert_eq. simpl.
  by rewrite !insert_insert_eq.
Qed.

(* the same on a list that does not expire meanwhile *)
Lemma push_trim_expire_list key x secs w e l :
  redis w !! key = Some e → value e = RList l →
  (∀ n, live (clock env n) e = true) →
  (redis_lpush env key x;; redis_ltrim_head env key 99;;
   redis_expire env key secs) w
  = (Ok tt,
     {| redis := <[key := {| value := RList (take 100 (x :: l));
                             expires_at := Some (clock env (S (S (steps w)))
                                                 + seconds secs) |}]> (redis w);
        steps := S (S (S (steps w))); trace := trace w |}).
Proof.
  intros He Hv Hlive.
  assert (∀ n v, live (clock env n) {| value := v; expires_at := expires_at e |}
                 = true) as Hlive'.
  { intros n v. specialize (Hlive n). by unfold live in *. }
  unfold redis_lpush, redis_ltrim_head, redis_expire, mbind, M_bind, tick,
    get_redis, put_redis. simpl.
  unfold find at 1. rewrite He, Hlive, Hv. simpl.
  rewrite find_insert_eq, Hlive'. simpl.
  rewrite find_insert_eq, Hlive'. simpl.
  by rewrite !insert_insert_eq.
Qed.

Lemma productive_hour_key_not_times a h b :
  productive_hour_key a h ≠ completion_times_key b.
Proof. unfold productive_hour_key, completion_times_key. simpl. discriminate. Qed.

(* what the rest of [_update_completion_metrics] does to another key *)
Lemma incr_expire_frame key secs w k :
  k ≠ key →
  ∃ o w', (redis_incr env key;; redis_expire env key secs) w = (o, w')
          ∧ redis w' !! k = redis w !! k.
Proof.
  intros Hne.
  destruct (incr_expire_run key secs w)
    as [(e & w' & Hrun & Hredis & _)|(w' & v & x & Hrun & Hredis & _)].
  - eexists _, _. split; [exact Hrun|]. by rewrite Hredis.
  - eexists _, _. split; [exact Hrun|]. by rewrite Hredis, lookup_insert_ne.
Qed.

End Runs.

(* the list of a user without one, after [_update_completion_metrics] *)
Lemma completion_times_list_new env user_id activity w :
  redis w !! completion_times_key user_id = None →
  redis (run (_update_completion_metrics env user_id activity) w)
    !! completion_times_key user_id
  = Some {| value :=
              RList [default 0%Q (get_completion_time_hours (metadata activity))];
            expires_at :=
              Some (clock env (S (S (steps w))) + seconds (86400 * 30)) |}.
Proof.
  intros Hnone. unfold run, _update_completion_metrics, try_except.
  set (key := completion_times_key user_id).
  set (x := default 0%Q _).
  pose proof (push_trim_expire_new env key x (86400 * 30) w Hnone) as Hrun.
  unfold mbind, M_bind in *.
  destruct (redis_lpush env key x w) as [[[]|e1] w1]; [|done].
  destruct (redis_ltrim_head env key 99 w1) as [[[]|e2] w2]; [|done].
  rewrite Hrun.
  match goal with
  | |- context [redis_incr env ?k ?w0] =>
      destruct (incr_expire_frame env k (86400 * 30) w0 key)
        as (o & w3 & Hrest & Hkey);
        [apply not_eq_sym, productive_hour_key_not_times|]
  end.
  unfold mbind, M_bind in Hrest. rewrite Hrest.
  destruct o as [[]|e3]; simpl; rewrite Hkey; simpl;
    by rewrite lookup_insert_eq.
Qed.

(** X13.  [_update_completion_metrics] always returns.  When the list
    [completion_times:{user_id}] is absent it becomes the one-element list
    of the new completion time; when it holds a list that does not expire
    meanwhile it becomes the new time followed by the old elements, cut to
    the first 100; in both cases it expires 30 days after the EXPIRE
    command.  When the key holds something that is not a list, LPUSH fails
    and the whole update is dropped: Redis is left as it was, the hour
    counter included. *)
Theorem completion_times_keep_latest env user_id activity w :
  let key := completion_times_key user_id in
  let x := default 0%Q (get_completion_time_hours (metadata activity)) in
  let expiry := Some (clock env (S (S (steps w))) + seconds THIRTY_DAYS) in
  let w' := run (_update_completion_metrics env user_id activity) w in
  _update_completion_metrics env user_id activity w = (Ok tt, w')
  ∧ (redis w !! key = None →
     redis w' !! key = Some {| value := RList [x]; expires_at := expiry |})
  ∧ (∀ e l,
       redis w !! key = Some e → value e = RList l →
       (∀ n, live (clock env n) e = true) →
       redis w' !! key
       = Some {| value := RList (take 100 (x :: l)); expires_at := expiry |}
       ∧ (length (take 100 (x :: l)) ≤ 100)%nat)
  ∧ (∀ e,
       find (clock env (steps w)) (redis w) key = Some e →
       (∀ l, value e ≠ RList l) →
       redis w' = redis w).
Proof.
  intros key x expiry w'. subst w'. unfold run.
  split; [|split; [|split]].
  - apply try_pass_ok.
  - intros Hnone.
    unfold _update_completion_metrics, try_except.
    pose proof (push_trim_expire_new env key x (86400 * 30) w Hnone) as Hrun.
    unfold mbind, M_bind in *. fold key. fold x.
    destruct (redis_lpush env key x w) as [[[]|e1] w1]; [|done].
    destruct (redis_ltrim_head env key 99 w1) as [[[]|e2] w2]; [|done].
    rewrite Hrun.
    match goal with
    | |- context [redis_incr env ?k ?w0] =>
        destruct (incr_expire_frame env k (86400 * 30) w0 key)
          as (o & w3 & Hrest & Hkey);
          [apply not_eq_sym, productive_hour_key_not_times|]
    end.
    unfold mbind, M_bind in Hrest. rewrite Hrest.
    destruct o as [[]|e3]; simpl; rewrite Hkey; simpl;
      by rewrite lookup_insert_eq.
  - intros e l He Hv Hlive. split; [|rewrite length_take; lia].
    unfold _update_completion_metrics, try_except.
    pose proof (push_trim_expire_list env key x (86400 * 30) w e l He Hv Hlive)
      as Hrun.
    unfold mbind, M_bind in *. fold key. fold x.
    destruct (redis_lpush env key x w) as [[[]|e1] w1]; [|done].
    destruct (redis_ltrim_head env key 99 w1) as [[[]|e2] w2]; [|done].
    rewrite Hrun.
    match goal with
    | |- context [redis_incr env ?k ?w0] =>
        destruct (incr_expire_frame env k (86400 * 30) w0 key)
          as (o & w3 & Hrest & Hkey);
          [apply not_eq_sym, productive_hour_key_not_times|]
    end.
    unfold mbind, M_bind in Hrest. rewrite Hrest.
    destruct o as [[]|e3]; simpl; rewrite Hkey; simpl;
      by rewrite lookup_insert_eq.
  - intros e Hfind Hnot.
    unfold _update_completion_metrics, try_except, redis_lpush, mbind, M_bind,
      tick, get_redis. simpl. fold key. rewrite Hfind.
    destruct (value e) as [v|s|l] eqn:Hv; try done. by destruct (Hnot l).
Qed.

(** **** _cleanup_old_data *)

Section Cleanup.

Variable env : Env.

Lemma metrics_ttl_run key w :
  ∃ ttl,
    redis_ttl env key w
    = (Ok ttl, {| redis := redis w; steps := S (steps w); trace := trace w |})
    ∧ (ttl = -1 ↔ unexpiring (redis w) key = true).
Proof.
  unfold redis_ttl, unexpiring, find, mbind, M_bind, tick, get_redis. simpl.
  eexists. split; [done|].
  destruct (redis w !! key) as [e|]; [|done].
  unfold live. destruct (expires_at e) as [t|] eqn:Hx; [|by rewrite Hx].
  destruct (Z.ltb_spec (clock env (steps w)) t) as [Hlive|Hdead]; [|done].
  rewrite Hx. split; [|by case_bool_decide]. intros H.
  assert (0 <= (t - clock env (steps w) + 500000) / us_per_second); [|lia].
  apply Z.div_pos; unfold us_per_second; lia.
Qed.

Lemma metrics_collect_expired_run keys : ∀ expired_keys w,
  collect_expired env keys expired_keys w
  = (Ok (expired_keys ++ List.filter (unexpiring (redis w)) keys),
     {| redis := redis w; steps := (steps w + length keys)%nat;
        trace := trace w |}).
Proof.
  induction keys as [|key keys IH]; intros acc w; simpl.
  - rewrite app_nil_r, Nat.add_0_r. by destruct w.
  - unfold mbind, M_bind.
    destruct (metrics_ttl_run key w) as (ttl & -> & Httl).
    destruct (Z.eqb_spec ttl (-1)) as [Heq|Hne].
    + rewrite IH. simpl. rewrite (proj1 Httl Heq), <- app_assoc. simpl.
      do 3 f_equal. lia.
    + rewrite IH. simpl.
      destruct (unexpiring (redis w) key) eqn:Hu; [by destruct Hne; apply Httl|].
      do 3 f_equal. lia.
Qed.

(* one pattern: the keys deleted are at most 100, match the pattern and
   have no expiry *)
Lemma cleanup_pattern_run prefix w :
  ∃ w' new,
    cleanup_pattern env prefix w = (Ok tt, w')
    ∧ trace w' = trace w ++ new
    ∧ (length (deleted_keys new) ≤ 100)%nat
    ∧ (∀ k, k ∈ deleted_keys new →
            String.prefix prefix k = true ∧ unexpiring (redis w) k = true)
    ∧ (∀ k, redis w' !! k
            = if decide (k ∈ deleted_keys new) then None else redis w !! k).
Proof.
  unfold cleanup_pattern, scan_iter, mbind, M_bind, tick, get_redis. simpl.
  rewrite metrics_collect_expired_run. simpl.
  set (keys := filter _ _).
  set (stale := List.filter _ keys).
  assert (∀ k, k ∈ take 100 stale →
               String.prefix prefix k = true ∧ unexpiring (redis w) k = true)
    as Hstale.
  { intros k Hk%subseteq_take. unfold stale in Hk.
    apply list_elem_of_In, filter_In in Hk as [Hk Hu]. split; [|done].
    apply list_elem_of_In in Hk. unfold keys in Hk.
    by apply list_elem_of_filter in Hk as [[? _] _]. }
  destruct stale as [|key stale'] eqn:Hs.
  - eexists _, []. rewrite app_nil_r. simpl. split; [done|]. split; [done|].
    split; [lia|]. split; [by intros k ?%elem_of_nil|]. intros k.
    first [done|by rewrite decide_False by apply not_elem_of_nil].
  - unfold redis_delete_all, mbind, M_bind, tick, get_redis, put_redis, emit.
    cbn [redis steps trace].
    eexists _, [Deleted (take 100 (key :: stale'))]. split; [done|].
    cbn [trace redis deleted_keys flat_map]. rewrite app_nil_r.
    split; [done|]. split; [rewrite length_take; lia|].
    split; [exact Hstale|]. intros k. apply lookup_after_deletes.
Qed.

Lemma deleted_keys_app l l' :
  deleted_keys (l ++ l') = deleted_keys l ++ deleted_keys l'.
Proof. apply flat_map_app. Qed.

Lemma matches_cleanup_pattern_prefix prefix k :
  prefix ∈ cleanup_patterns → String.prefix prefix k = true →
  matches_cleanup_pattern k = true.
Proof.
  intros Hin Hp. unfold matches_cleanup_pattern. apply existsb_exists.
  exists prefix. split; [by apply list_elem_of_In|done].
Qed.

Lemma cleanup_patterns_run prefixes : ∀ w,
  (∀ p, p ∈ prefixes → p ∈ cleanup_patterns) →
  ∃ w' new,
    for_each (cleanup_pattern env) prefixes w = (Ok tt, w')
    ∧ trace w' = trace w ++ new
    ∧ (length (deleted_keys new) ≤ 100 * length prefixes)%nat
    ∧ (∀ k, k ∈ deleted_keys new →
            matches_cleanup_pattern k = true ∧ unexpiring (redis w) k = true)
    ∧ (∀ k, redis w' !! k
            = if decide (k ∈ deleted_keys new) then None else redis w !! k).
Proof.
  induction prefixes as [|p prefixes IH]; intros w Hsub; simpl.
  - exists w, []. rewrite app_nil_r. split; [done|]. split; [done|].
    split; [simpl; lia|]. split; [by intros k ?%elem_of_nil|]. intros k.
    first [done|by rewrite decide_False by apply not_elem_of_nil].
  - destruct (cleanup_pattern_run p w) as (w1 & new1 & Hrun1 & Htr1 & Hlen1
                                           & Hdel1 & Hlook1).
    destruct (IH w1) as (w' & new & Hrun & Htr & Hlen & Hdel & Hlook).
    { intros q Hq. apply Hsub. apply elem_of_cons. by right. }
    unfold mbind, M_bind. rewrite Hrun1, Hrun.
    exists w', (new1 ++ new). split; [done|].
    split; [by rewrite Htr, Htr1, app_assoc|].
    rewrite deleted_keys_app, length_app. split; [lia|]. split.
    + intros k [Hk|Hk]%elem_of_app.
      * destruct (Hdel1 k Hk) as [Hp Hu]. split; [|done].
        eapply matches_cleanup_pattern_prefix; [|done].
        apply Hsub. apply elem_of_cons. by left.
      * destruct (Hdel k Hk) as [Hp Hu]. split; [done|].
        unfold unexpiring in *. rewrite Hlook1 in Hu.
        by destruct (decide (k ∈ deleted_keys new1)).
    + intros k. rewrite Hlook, Hlook1.
      destruct (decide (k ∈ deleted_keys new)) as [H2|H2];
        destruct (decide (k ∈ deleted_keys new1)) as [H1|H1].
      * rewrite decide_True; [done|]. apply elem_of_app. by right.
      * rewrite decide_True; [done|]. apply elem_of_app. by right.
      * rewrite decide_True; [done|]. apply elem_of_app. by left.
      * rewrite decide_False; [done|]. by intros [?|?]%elem_of_app.
Qed.

(* every way [_cleanup_old_data] can go *)
Lemma cleanup_old_data_run command w :
  ∃ w' new,
    _cleanup_old_data env command w = (Ok tt, w')
    ∧ trace w'
      = trace w ++ CleanupRequest (completed_before command) (batch_size command)
                   :: new
    ∧ (length (deleted_keys new) ≤ 400)%nat
    ∧ (∀ k, k ∈ deleted_keys new →
            matches_cleanup_pattern k = true ∧ unexpiring (redis w) k = true)
    ∧ (∀ k, redis w' !! k
            = if decide (k ∈ deleted_keys new) then None else redis w !! k)
    ∧ (cleanup_api env (steps w) = None
       ∨ cleanup_api env (steps w) = Some (200, false) → new = []).
Proof.
  unfold _cleanup_old_data.
  remember cleanup_patterns as pats eqn:Hpats.
  assert (∀ w0 : World, redis w0 = redis w →
    trace w0 = trace w ++ [CleanupRequest (completed_before command)
                             (batch_size command)] →
    ∃ new,
      trace w0
      = trace w ++ CleanupRequest (completed_before command) (batch_size command)
                   :: new
      ∧ (length (deleted_keys new) ≤ 400)%nat
      ∧ (∀ k, k ∈ deleted_keys new →
              matches_cleanup_pattern k = true ∧ unexpiring (redis w) k = true)
      ∧ (∀ k, redis w0 !! k
              = if decide (k ∈ deleted_keys new) then None else redis w !! k)
      ∧ new = []) as Hskip.
  { intros w0 Hr Ht. exists []. split; [done|]. split; [simpl; lia|].
    split; [by intros k ?%elem_of_nil|]. split; [|done]. intros k.
    first [by rewrite Hr|rewrite decide_False by apply not_elem_of_nil; by rewrite Hr]. }
  assert (∀ w0 : World, redis w0 = redis w →
    trace w0 = trace w ++ [CleanupRequest (completed_before command)
                             (batch_size command)] →
    ∃ w' new,
      (utcnow env;; for_each (cleanup_pattern env) pats) w0
      = (Ok tt, w')
      ∧ trace w'
        = trace w ++ CleanupRequest (completed_before command) (batch_size command)
                     :: new
      ∧ (length (deleted_keys new) ≤ 400)%nat
      ∧ (∀ k, k ∈ deleted_keys new →
              matches_cleanup_pattern k = true ∧ unexpiring (redis w) k = true)
      ∧ (∀ k, redis w' !! k
              = if decide (k ∈ deleted_keys new) then None else redis w !! k))
    as Hscan.
  { intros w0 Hr Ht.
    unfold utcnow, mbind, M_bind, tick. simpl.
    edestruct (cleanup_patterns_run pats
                 {| redis := redis w0; steps := S (steps w0); trace := trace w0 |})
      as (w' & new & Hrun & Htr & Hlen & Hdel & Hlook); [by rewrite Hpats|].
    assert (length pats = 4%nat) as Hfour by by rewrite Hpats.
    rewrite Hfour in Hlen. simpl in *. exists w', new. split; [exact Hrun|].
    split; [by rewrite Htr, Ht, <- app_assoc|]. split; [exact Hlen|].
    rewrite <- Hr. done. }
  unfold try_except.
  unfold mbind at 1 2 3, M_bind at 1 2 3, tick, emit. simpl.
  destruct (cleanup_api env (steps w)) as [[code ok]|] eqn:Hapi; simpl.
  2:{ edestruct Hskip as (new & Htr & Hlen & Hdel & Hlook & ->);
        [| |eexists _, []; split; [done|]; split; [exact Htr|]]; try done. }
  destruct (code =? 200) eqn:Hcode; [destruct ok|]; simpl.
  - unfold mbind at 1, M_bind at 1. unfold pass at 1. unfold mret, M_ret.
    cbv beta iota.
    edestruct Hscan as (w' & new & Hrun & Htr & Hlen & Hdel & Hlook);
      [| |rewrite Hrun]; try done.
    exists w', new. split; [done|]. split; [done|]. split; [done|].
    split; [done|]. split; [done|]. by intros [?|?].
  - apply Z.eqb_eq in Hcode as ->.
    edestruct Hskip as (new & Htr & Hlen & Hdel & Hlook & ->);
      [| |eexists _, []; split; [done|]; split; [exact Htr|]]; try done.
  - unfold mbind at 1, M_bind at 1. unfold pass at 1. unfold mret, M_ret.
    cbv beta iota.
    edestruct Hscan as (w' & new & Hrun & Htr & Hlen & Hdel & Hlook);
      [| |rewrite Hrun]; try done.
    exists w', new. split; [done|]. split; [done|]. split; [done|].
    split; [done|]. split; [done|].
    intros [?|[= -> _]]; [done|]. done.
Qed.

End Cleanup.

(** X14.  [_cleanup_old_data] always returns, after issuing the cleanup
    request to the activity store.  In Redis it deletes at most 400 keys
    (100 for each of the four patterns), every one of them matching a
    cleanup pattern and having no expiry; all other entries are left as
    they were.  When the request raises, or answers 200 with a body that
    does not decode, the Redis cleanup is skipped altogether.  The request
    is the first effect of the run, and the only one when the Redis
    cleanup is skipped. *)
Theorem cleanup_old_data_bounds env command w :
  let w' := run (_cleanup_old_data env command) w in
  let deleted := deleted_keys (new_effects w w') in
  _cleanup_old_data env command w = (Ok tt, w')
  ∧ (length deleted ≤ 400)%nat
  ∧ (∀ k, k ∈ deleted →
          matches_cleanup_pattern k = true ∧ unexpiring (redis w) k = true)
  ∧ (∀ k, redis w' !! k = if decide (k ∈ deleted) then None else redis w !! k)
  ∧ (cleanup_api env (steps w) = None
     ∨ cleanup_api env (steps w) = Some (200, false) →
     redis w' = redis w ∧ deleted = [])
  ∧ (∃ rest,
       new_effects w w'
       = CleanupRequest (completed_before command) (batch_size command) :: rest
       ∧ (cleanup_api env (steps w) = None
          ∨ cleanup_api env (steps w) = Some (200, false) → rest = [])).
Proof.
  intros w' deleted. subst w' deleted. unfold run.
  destruct (cleanup_old_data_run env command w)
    as (w' & new & -> & Htr & Hlen & Hdel & Hlook & Hskip). simpl.
  assert (new_effects w w'
          = CleanupRequest (completed_before command) (batch_size command)
            :: new) as Hnew.
  { unfold new_effects. by rewrite Htr, drop_app_length. }
  assert (deleted_keys (new_effects w w') = deleted_keys new) as ->.
  { by rewrite Hnew. }
  split; [done|]. split; [done|]. split; [done|]. split; [done|].
  split; [|by exists new].
  intros Hfail. rewrite (Hskip Hfail) in *. split; [|done].
  apply map_eq. intros k. rewrite Hlook.
  first [done|by rewrite decide_False by apply not_elem_of_nil].
Qed.

(** **** _track_creation_patterns *)

Lemma counters_only_refl keys r : counters_only keys r r.
Proof. intros k. by left. Qed.

Lemma counters_only_insert keys r r' key v x :
  key ∈ keys →
  counters_only keys r r' →
  counters_only keys r
    (<[key := {| value := RInt v; expires_at := Some x |}]> r').
Proof.
  intros Hkey H k. destruct (decide (key = k)) as [<-|Hne].
  - right. split; [done|]. exists v, x. by rewrite lookup_insert_eq.
  - rewrite lookup_insert_ne by done. apply H.
Qed.

Lemma incr_expire_counters env keys key secs r w o w' :
  key ∈ keys →
  counters_only keys r (redis w) →
  (redis_incr env key;; redis_expire env key secs) w = (o, w') →
  counters_only keys r (redis w') ∧ trace w' = trace w.
Proof.
  intros Hkey Hr Hrun.
  destruct (incr_expire_run env key secs w)
    as [(e & w1 & Hrun1 & Hredis & Htr)|(w1 & v & x & Hrun1 & Hredis & Htr & _)];
    rewrite Hrun1 in Hrun; injection Hrun as <- <-; rewrite Hredis.
  - done.
  - split; [by apply counters_only_insert|done].
Qed.

(* INCR and EXPIRE followed by more *)
Lemma incr_expire_then {A} env key secs (k : M A) w :
  (redis_incr env key;; redis_expire env key secs;; k) w
  = match (redis_incr env key;; redis_expire env key secs) w with
    | (Ok _, w') => k w'
    | (Raised e, w') => (Raised e, w')
    end.
Proof.
  unfold mbind, M_bind. destruct (redis_incr env key w) as [[v|e] w1]; [|done].
  by destruct (redis_expire env key secs w1) as [[[]|e] w2].
Qed.

(* whatever [_track_creation_patterns] writes is a counter with an expiry,
   under one of its three keys *)
Lemma track_creation_patterns_run env event w :
  ∃ w', _track_creation_patterns env event w = (Ok tt, w')
        ∧ counters_only (pattern_keys event) (redis w) (redis w')
        ∧ trace w' = trace w.
Proof.
  assert (∀ i key, pattern_keys event !! i = Some key → key ∈ pattern_keys event)
    as Hin by (intros i key; apply list_elem_of_lookup_2).
  pose proof (Hin 0%nat _ eq_refl) as Hk1.
  pose proof (Hin 1%nat _ eq_refl) as Hk2.
  pose proof (Hin 2%nat _ eq_refl) as Hk3.
  unfold _track_creation_patterns, try_except.
  rewrite incr_expire_then.
  destruct ((redis_incr env _;; redis_expire env _ _) w) as [[[]|e1] w1] eqn:H1;
    apply (incr_expire_counters _ (pattern_keys event) _ _ (redis w) _ _ _ Hk1
             (counters_only_refl _ _)) in H1 as [Hc1 Ht1].
  2:{ by exists w1. }
  rewrite incr_expire_then.
  destruct ((redis_incr env _;; redis_expire env _ _) w1) as [[[]|e2] w2] eqn:H2;
    apply (incr_expire_counters _ (pattern_keys event) _ _ (redis w) _ _ _ Hk2
             Hc1) in H2 as [Hc2 Ht2].
  2:{ exists w2. by rewrite Ht2. }
  destruct ((redis_incr env _;; redis_expire env _ _) w2) as [[[]|e3] w3] eqn:H3;
    apply (incr_expire_counters _ (pattern_keys event) _ _ (redis w) _ _ _ Hk3
             Hc2) in H3 as [Hc3 Ht3];
    exists w3; by rewrite Ht3, Ht2.
Qed.

(** X15.  Every Redis entry [_track_creation_patterns] changes ends up as a
    counter with an expiry, and [_cleanup_old_data], which deletes only
    keys without expiry, leaves it in place: the creation patterns the
    worker records are not removed by its own cleanup. *)
Theorem tracked_counters_survive_cleanup env env' event command w k :
  redis (run (_track_creation_patterns env event) w) !! k ≠ redis w !! k →
  ∃ v x,
    redis (run (_track_creation_patterns env event) w) !! k
    = Some {| value := RInt v; expires_at := Some x |}
    ∧ redis (run (_cleanup_old_data env' command)
               (run (_track_creation_patterns env event) w)) !! k
      = Some {| value := RInt v; expires_at := Some x |}.
Proof.
  unfold run.
  destruct (track_creation_patterns_run env event w) as (w1 & -> & Hc & _).
  simpl. intros Hchanged.
  destruct (Hc k) as [?|(_ & v & x & Hk)]; [done|].
  exists v, x. split; [done|].
  destruct (cleanup_old_data_run env' command w1)
    as (w2 & new & -> & _ & _ & Hdel & Hlook & _). simpl.
  rewrite Hlook. destruct (decide _) as [Hin|_]; [|done].
  apply Hdel in Hin as [_ Hu]. unfold unexpiring in Hu. by rewrite Hk in Hu.
Qed.

Lemma tracked_counters_survive_cleanup_witness :
  ∃ v x,
    redis (run (_track_creation_patterns steady sample_created) fresh)
      !! creation_hour_key 3 9
    = Some {| value := RInt v; expires_at := Some x |}
    ∧ redis (run (_cleanup_old_data steady
                    {| completed_before := naive 0; batch_size := 100 |})
               (run (_track_creation_patterns steady sample_created) fresh))
        !! creation_hour_key 3 9
      = Some {| value := RInt v; expires_at := Some x |}.
Proof.
  apply (tracked_counters_survive_cleanup steady steady sample_created
           {| completed_before := naive 0; batch_size := 100 |} fresh
           (creation_hour_key 3 9)).
  intros H. vm_compute in H. discriminate.
Defined.

(** **** The event handlers *)

Section Handlers.

Variable env : Env.

Lemma store_activity_run activity w :
  _store_activity env activity w
  = (Ok tt, {| redis := redis w; steps := S (steps w);
               trace := trace w ++ [StoreActivity activity] |}).
Proof.
  unfold _store_activity, try_except, mbind, M_bind, tick, emit, or_raise. simpl.
  by destruct (mongo_api env (steps w)).
Qed.

Lemma invalidate_user_stats_cache_run user_id w :
  _invalidate_user_stats_cache user_id w
  = (Ok tt, {| redis := delete (user_analytics_key user_id) (redis w);
               steps := S (steps w);
               trace := trace w ++ [Deleted [user_analytics_key user_id]] |}).
Proof. reflexivity. Qed.

Lemma stored_app l l' : stored (l ++ l') = stored l ++ stored l'.
Proof. apply omap_app. Qed.

Lemma user_analytics_key_not_pattern user_id event :
  user_analytics_key user_id ∉ pattern_keys event.
Proof.
  unfold pattern_keys, user_analytics_key, creation_hour_key, creation_day_key,
    priority_key.
  intros Hin. repeat (apply elem_of_cons in Hin as [Hin|Hin]; [by simpl in Hin|]).
  by apply elem_of_nil in Hin.
Qed.

(* routines that add nothing to the trace and leave the entry under [k]
   alone *)
Lemma quiet_on_bind {A B} k (m : M A) (f : A → M B) :
  quiet_on k m → (∀ a, quiet_on k (f a)) → quiet_on k (m ≫= f).
Proof.
  intros Hm Hf w. destruct (Hm w) as (o & w1 & Hrun & Ht & Hr).
  unfold mbind, M_bind. rewrite Hrun. destruct o as [a|e].
  - destruct (Hf a w1) as (o' & w2 & -> & Ht2 & Hr2).
    exists o', w2. by rewrite Ht2, Hr2.
  - by exists (Raised e), w1.
Qed.

Lemma quiet_on_try {A} k (m h : M A) :
  quiet_on k m → quiet_on k h → quiet_on k (try_except m h).
Proof.
  intros Hm Hh w. destruct (Hm w) as (o & w1 & Hrun & Ht & Hr).
  unfold try_except. rewrite Hrun. destruct o as [a|e].
  - by exists (Ok a), w1.
  - destruct (Hh w1) as (o' & w2 & -> & Ht2 & Hr2).
    exists o', w2. by rewrite Ht2, Hr2.
Qed.

Lemma quiet_on_pass k : quiet_on k pass.
Proof. intros w. by exists (Ok tt), w. Qed.

Lemma quiet_on_incr k key : k ≠ key → quiet_on k (redis_incr env key).
Proof.
  intros Hne w.
  unfold redis_incr, mbind, M_bind, tick, get_redis, put_redis, raise. simpl.
  destruct (find _ _ _) as [e|]; simpl.
  - destruct (value e) as [v|s|l]; simpl; try by eexists _, _.
    destruct (v <? INT64_MAX); simpl; eexists _, _; (split; [done|]);
      simpl; by rewrite ?lookup_insert_ne.
  - eexists _, _. split; [done|]. simpl. by rewrite lookup_insert_ne.
Qed.

Lemma quiet_on_expire k key secs : k ≠ key → quiet_on k (redis_expire env key secs).
Proof.
  intros Hne w.
  unfold redis_expire, mbind, M_bind, tick, get_redis, put_redis, pass. simpl.
  destruct (find _ _ _) as [e|]; simpl; eexists _, _; (split; [done|]); simpl;
    by rewrite ?lookup_insert_ne.
Qed.

Lemma quiet_on_lpush k key x : k ≠ key → quiet_on k (redis_lpush env key x).
Proof.
  intros Hne w.
  unfold redis_lpush, mbind, M_bind, tick, get_redis, put_redis, raise. simpl.
  destruct (find _ _ _) as [e|]; simpl.
  - destruct (value e) as [v|s|l]; simpl; eexists _, _; (split; [done|]);
      simpl; by rewrite ?lookup_insert_ne.
  - eexists _, _. split; [done|]. simpl. by rewrite lookup_insert_ne.
Qed.

Lemma quiet_on_ltrim k key stop :
  k ≠ key → quiet_on k (redis_ltrim_head env key stop).
Proof.
  intros Hne w.
  unfold redis_ltrim_head, mbind, M_bind, tick, get_redis, put_redis, raise,
    pass. simpl.
  destruct (find _ _ _) as [e|]; simpl.
  - destruct (value e) as [v|s|l]; simpl; eexists _, _; (split; [done|]);
      simpl; by rewrite ?lookup_insert_ne.
  - by eexists _, _.
Qed.

Lemma update_completion_metrics_quiet user_id activity k :
  k ≠ completion_times_key user_id →
  k ≠ productive_hour_key user_id
        (default 0 (get_completion_hour (metadata activity))) →
  quiet_on k (_update_completion_metrics env user_id activity).
Proof.
  intros Hne1 Hne2. unfold _update_completion_metrics.
  apply quiet_on_try; [|apply quiet_on_pass].
  apply quiet_on_bind; [by apply quiet_on_lpush|]. intros _.
  apply quiet_on_bind; [by apply quiet_on_ltrim|]. intros _.
  apply quiet_on_bind; [by apply quiet_on_expire|]. intros _.
  apply quiet_on_bind; [by apply quiet_on_incr|]. intros _.
  by apply quiet_on_expire.
Qed.

Lemma update_completion_metrics_ok user_id activity w :
  ∃ w', _update_completion_metrics env user_id activity w = (Ok tt, w')
        ∧ trace w' = trace w
        ∧ redis w' !! user_analytics_key user_id
          = redis w !! user_analytics_key user_id.
Proof.
  destruct (update_completion_metrics_quiet user_id activity
              (user_analytics_key user_id)) with (w := w)
    as (o & w' & Hrun & Ht & Hr); [done..|].
  exists w'. split; [|done].
  unfold _update_completion_metrics in *. rewrite try_pass_ok in Hrun |- *.
  by injection Hrun as <- <-.
Qed.

Lemma recorded_intro act task_id user_id timestamp w w' activity rest :
  trace w' = trace w ++ StoreActivity activity :: rest →
  stored rest = [] →
  action activity = act → activity_task_id activity = task_id →
  activity_user_id activity = user_id →
  activity_timestamp activity = timestamp →
  redis w' !! user_analytics_key user_id = None →
  recorded_as act task_id user_id timestamp w w'.
Proof.
  intros Ht Hrest ? ? ? ? ?. exists activity.
  rewrite Ht, drop_app_length. simpl. rewrite Hrest. done.
Qed.

Lemma process_task_created_event_run event w :
  ∃ w',
    _process_task_created_event env event w = (Ok tt, w')
    ∧ recorded_as ActionType.CREATED (created_task_id event)
        (created_user_id event) (created_timestamp event) w w'.
Proof.
  unfold _process_task_created_event, try_except, mbind, M_bind.
  rewrite store_activity_run, invalidate_user_stats_cache_run.
  cbn [redis steps trace].
  edestruct (track_creation_patterns_run env event) as (w' & -> & Hc & Ht).
  exists w'. split; [done|].
  eapply recorded_intro; [by rewrite Ht, <- app_assoc|done..|].
  destruct (Hc (user_analytics_key (created_user_id event))) as [->|[Hin _]].
  - simpl. by rewrite lookup_delete_eq.
  - by apply user_analytics_key_not_pattern in Hin.
Qed.

Lemma store_and_invalidate_run act task_id user_id timestamp meta w :
  ∃ w',
    (_store_activity env
       {| activity_task_id := task_id; activity_user_id := user_id;
          action := act; activity_timestamp := timestamp; metadata := meta;
          source := "api" |};;
     _invalidate_user_stats_cache user_id) w = (Ok tt, w')
    ∧ recorded_as act task_id user_id timestamp w w'.
Proof.
  unfold mbind, M_bind.
  rewrite store_activity_run, invalidate_user_stats_cache_run.
  cbn [redis steps trace]. eexists. split; [done|].
  eapply recorded_intro; [by rewrite <- app_assoc|done..|].
  simpl. by rewrite lookup_delete_eq.
Qed.

Lemma primary_action_run changes w :
  primary_action changes w
  = (match lookup_change "status" changes with
     | None => Ok ActionType.UPDATED
     | Some None => Raised TypeError
     | Some (Some d) =>
         match d !! "to" with
         | Some to =>
             Ok (if decide (to = Some "completed") then ActionType.COMPLETED
                 else if decide (to = Some "cancelled")
                      then ActionType.CANCELLED
                      else ActionType.STATUS_CHANGED)
         | None => Raised KeyError
         end
     end, w).
Proof.
  unfold primary_action.
  destruct (lookup_change "status" changes) as [[d|]|]; try done.
  unfold mbind, M_bind. simpl.
  destruct (d !! "to") as [to|]; simpl; [|done].
  by repeat destruct (decide _).
Qed.

Lemma process_task_updated_event_run event w :
  ∃ w',
    _process_task_updated_event env event w = (Ok tt, w')
    ∧ match lookup_change "status" (changes event) with
      | None =>
          recorded_as ActionType.UPDATED (updated_task_id event)
            (updated_user_id event) (updated_timestamp event) w w'
      | Some (Some d) =>
          match d !! "to" with
          | Some to =>
              recorded_as
                (if decide (to = Some "completed") then ActionType.COMPLETED
                 else if decide (to = Some "cancelled")
                      then ActionType.CANCELLED
                      else ActionType.STATUS_CHANGED)
                (updated_task_id event) (updated_user_id event)
                (updated_timestamp event) w w'
          | None => redis w' = redis w ∧ trace w' = trace w
          end
      | Some None => redis w' = redis w ∧ trace w' = trace w
      end.
Proof.
  unfold _process_task_updated_event, try_except.
  unfold mbind at 1, M_bind at 1. rewrite primary_action_run.
  destruct (lookup_change "status" (changes event)) as [[d|]|].
  - destruct (d !! "to") as [to|]; [|by eexists].
    edestruct (store_and_invalidate_run) as (w' & Hrun & Hrec).
    rewrite Hrun. by exists w'.
  - by eexists.
  - edestruct (store_and_invalidate_run) as (w' & Hrun & Hrec).
    rewrite Hrun. by exists w'.
Qed.

Lemma process_task_completed_event_run event w :
  ∃ w',
    _process_task_completed_event env event w = (Ok tt, w')
    ∧ match sub (completion_time event) (created_at (completed_task_data event)),
            match due_date (completed_task_data event) with
            | Some due => later (completion_time event) due
            | None => Some false
            end
      with
      | Some td, Some _ =>
          recorded_as ActionType.COMPLETED (completed_task_id event)
            (completed_user_id event) (completed_timestamp event) w w'
          ∧ ∃ activity x,
              stored (new_effects w w') = [activity]
              ∧ get_completion_time_hours (metadata activity)
                = Some (in_hours td)
              ∧ get_completion_hour (metadata activity)
                = Some (hour (completion_time event))
              ∧ (redis w !! completion_times_key (completed_user_id event)
                 = None →
                 redis w' !! completion_times_key (completed_user_id event)
                 = Some {| value := RList [in_hours td];
                           expires_at := Some x |})
      | _, _ => redis w' = redis w ∧ trace w' = trace w
      end.
Proof.
  unfold _process_task_completed_event, try_except.
  unfold mbind at 1, M_bind at 1.
  destruct (sub (completion_time event) _) as [td|]; simpl;
    [|by eexists].
  assert (∀ was_overdue, ∃ w',
    (_store_activity env
       {| activity_task_id := completed_task_id event;
          activity_user_id := completed_user_id event;
          action := ActionType.COMPLETED;
          activity_timestamp := completed_timestamp event;
          metadata :=
            CompletedMetadata (in_hours td)
              (priority_value (priority (completed_task_data event)))
              was_overdue (hour (completion_time event))
              (weekday (completion_time event));
          source := "api" |};;
     _update_completion_metrics env (completed_user_id event)
       {| activity_task_id := completed_task_id event;
          activity_user_id := completed_user_id event;
          action := ActionType.COMPLETED;
          activity_timestamp := completed_timestamp event;
          metadata :=
            CompletedMetadata (in_hours td)
              (priority_value (priority (completed_task_data event)))
              was_overdue (hour (completion_time event))
              (weekday (completion_time event));
          source := "api" |};;
     _invalidate_user_stats_cache (completed_user_id event)) w = (Ok tt, w')
    ∧ recorded_as ActionType.COMPLETED (completed_task_id event)
        (completed_user_id event) (completed_timestamp event) w w'
    ∧ ∃ activity x,
        stored (new_effects w w') = [activity]
        ∧ get_completion_time_hours (metadata activity) = Some (in_hours td)
        ∧ get_completion_hour (metadata activity)
          = Some (hour (completion_time event))
        ∧ (redis w !! completion_times_key (completed_user_id event) = None →
           redis w' !! completion_times_key (completed_user_id event)
           = Some {| value := RList [in_hours td]; expires_at := Some x |}))
    as Hgo.
  { intros was_overdue. unfold mbind, M_bind. rewrite store_activity_run.
    set (activity := {| activity_task_id := _ |}).
    set (w1 := {| redis := redis w |}).
    destruct (update_completion_metrics_ok (completed_user_id event) activity w1)
      as (w2 & Hrun2 & Ht & Hr).
    rewrite Hrun2, invalidate_user_stats_cache_run. eexists. split; [done|].
    split.
    - eapply recorded_intro;
        [simpl; rewrite Ht; unfold w1; simpl; by rewrite <- app_assoc|done..|].
      simpl. by rewrite lookup_delete_eq.
    - exists activity. eexists. unfold new_effects. simpl.
      rewrite Ht. unfold w1. simpl. rewrite <- app_assoc, drop_app_length.
      split; [done|]. split; [done|]. split; [done|].
      intros Hnone. rewrite lookup_delete_ne by done.
      pose proof (completion_times_list_new env (completed_user_id event)
                    activity w1 Hnone) as Hlist.
      unfold run in Hlist. rewrite Hrun2 in Hlist. exact Hlist. }
  destruct (due_date (completed_task_data event)) as [due|]; simpl.
  - unfold mbind at 1 2, M_bind at 1 2.
    destruct (later (completion_time event) due) as [b|]; simpl; [|by eexists].
    destruct (Hgo (Some b)) as (w' & Hrun & Hrec).
    unfold mbind, M_bind in Hrun |- *. rewrite Hrun. by exists w'.
  - unfold mbind at 1, M_bind at 1. simpl.
    destruct (Hgo None) as (w' & Hrun & Hrec).
    unfold mbind, M_bind in Hrun |- *. rewrite Hrun. by exists w'.
Qed.

End Handlers.

(** X19.  The three task-event handlers always return, and an event is
    either dropped - nothing is stored and Redis is left as it was - or
    recorded: exactly one activity is posted to the store, carrying the
    event's task, user and timestamp, and at the end the user's cached
    statistics [user_analytics:{user_id}] are gone.
    - A created event is always recorded, as CREATED.
    - An updated event is recorded as UPDATED when [changes] has no
      "status"; otherwise as COMPLETED, CANCELLED or STATUS_CHANGED
      according to changes["status"]["to"], and dropped when that value
      cannot be read.
    - A completed event is recorded as COMPLETED, and dropped when its
      completion time cannot be subtracted from the task's creation time or
      compared with its due date (one aware, the other naive). *)
Theorem task_events_recorded env w :
  (∀ event,
     let w' := run (_process_task_created_event env event) w in
     _process_task_created_event env event w = (Ok tt, w')
     ∧ recorded_as ActionType.CREATED (created_task_id event)
         (created_user_id event) (created_timestamp event) w w')
  ∧ (∀ event,
       let w' := run (_process_task_updated_event env event) w in
       let recorded act :=
         recorded_as act (updated_task_id event) (updated_user_id event)
           (updated_timestamp event) w w' in
       _process_task_updated_event env event w = (Ok tt, w')
       ∧ match lookup_change "status" (changes event) with
         | None => recorded ActionType.UPDATED
         | Some (Some d) =>
             match d !! "to" with
             | Some to =>
                 recorded
                   (if decide (to = Some "completed") then ActionType.COMPLETED
                    else if decide (to = Some "cancelled")
                         then ActionType.CANCELLED
                         else ActionType.STATUS_CHANGED)
             | None => redis w' = redis w ∧ trace w' = trace w
             end
         | Some None => redis w' = redis w ∧ trace w' = trace w
         end)
  ∧ (∀ event,
       let w' := run (_process_task_completed_event env event) w in
       let task := completed_task_data event in
       _process_task_completed_event env event w = (Ok tt, w')
       ∧ match sub (completion_time event) (created_at task),
               match due_date task with
               | Some due => later (completion_time event) due
               | None => Some false
               end
         with
         | Some _, Some _ =>
             recorded_as ActionType.COMPLETED (completed_task_id event)
               (completed_user_id event) (completed_timestamp event) w w'
         | _, _ => redis w' = redis w ∧ trace w' = trace w
         end).
Proof.
  split; [|split].
  - intros event w'. subst w'. unfold run.
    by destruct (process_task_created_event_run env event w) as (w' & -> & ?).
  - intros event w' recorded. subst w' recorded. unfold run.
    destruct (process_task_updated_event_run env event w) as (w' & -> & H).
    split; [done|]. simpl.
    destruct (lookup_change _ _) as [[d|]|]; [|done..].
    by destruct (d !! "to").
  - intros event w' task. subst w' task. unfold run.
    destruct (process_task_completed_event_run env event w) as (w' & -> & H).
    split; [done|]. simpl.
    destruct (sub _ _) as [td|]; [|done].
    destruct (match due_date _ with Some _ => _ | None => _ end); [|done].
    apply H.
Qed.

(** X20.  When [_process_task_completed_event] records an event - its
    completion time can be subtracted from the task's creation time and
    compared with the due date - the activity it stores carries
    completion_time_hours = (completion_time - created_at) in hours and
    the hour of the completion time, and when the user has no
    [completion_times] list yet, that list then holds exactly this
    completion time, with an expiry. *)
Theorem completed_event_feeds_metrics env event w td :
  sub (completion_time event) (created_at (completed_task_data event))
  = Some td →
  (∀ due, due_date (completed_task_data event) = Some due →
          is_Some (later (completion_time event) due)) →
  redis w !! completion_times_key (completed_user_id event) = None →
  ∃ activity x,
    stored (new_effects w (run (_process_task_completed_event env event) w))
    = [activity]
    ∧ get_completion_time_hours (metadata activity) = Some (in_hours td)
    ∧ get_completion_hour (metadata activity)
      = Some (hour (completion_time event))
    ∧ redis (run (_process_task_completed_event env event) w)
        !! completion_times_key (completed_user_id event)
      = Some {| value := RList [in_hours td]; expires_at := Some x |}.
Proof.
  intros Hsub Hdue Hnone. unfold run.
  destruct (process_task_completed_event_run env event w) as (w' & -> & H).
  simpl. rewrite Hsub in H.
  destruct (due_date (completed_task_data event)) as [due|].
  - destruct (Hdue due eq_refl) as [b Hb]. rewrite Hb in H.
    destruct H as (_ & activity & x & Hst & Ht & Hh & Hlist).
    exists activity, x. auto.
  - destruct H as (_ & activity & x & Hst & Ht & Hh & Hlist).
    exists activity, x. auto.
Qed.

Lemma completed_event_feeds_metrics_witness :
  ∃ activity x,
    stored (new_effects fresh
              (run (_process_task_completed_event steady sample_completed) fresh))
    = [activity]
    ∧ get_completion_time_hours (metadata activity) = Some (in_hours (hours 9))
    ∧ get_completion_hour (metadata activity)
      = Some (hour (completion_time sample_completed))
    ∧ redis (run (_process_task_completed_event steady sample_completed) fresh)
        !! completion_times_key (completed_user_id sample_completed)
      = Some {| value := RList [in_hours (hours 9)]; expires_at := Some x |}.
Proof.
  apply (completed_event_feeds_metrics steady sample_completed fresh (hours 9)
           eq_refl).
  - intros due [= <-]. by eexists.
  - reflexivity.
Defined.

End MetricsFacts.

Module ReminderEdgeFacts.
Import Reminder ReminderLoops ReminderFacts ReminderLoopFacts.

(** **** Scheduled reminders while the task API is down *)

Section ApiDown.

Variable env : Env.
Hypothesis api_down : ∀ n task_id user_id, task_api env n task_id user_id = None.

Lemma send_scheduled_reminder_api_down reminder w :
  ∃ w', _send_scheduled_reminder env reminder w = (Ok tt, w')
        ∧ redis w' = redis w
        ∧ trace w' = trace w ++ [Notify (ScheduledReminder reminder)].
Proof.
  destruct (send_scheduled_reminder_run env reminder w)
    as (w' & posts & Hrun & Hredis & _ & Htrace & Hposts).
  exists w'. split; [done|]. split; [done|].
  destruct Hposts as [->|(tid & uid & task & ? & ? & _ & _ & Hapi & _)]; [done|].
  by rewrite api_down in Hapi.
Qed.

Lemma process_reminder_key_api_down check key w :
  ∃ w' new,
    process_reminder_key env check key w = (Ok tt, w')
    ∧ trace w' = trace w ++ new
    ∧ Forall (λ x, ¬ is_telegram x) new.
Proof.
  unfold process_reminder_key, try_except, mbind, M_bind.
  rewrite redis_get_run.
  assert (∀ w0 : World, trace w0 = trace w →
            ∃ w' new, (Ok tt, w0) = (Ok tt, w') ∧ trace w' = trace w ++ new
                      ∧ Forall (λ x, ¬ is_telegram x) new) as Hquiet.
  { intros w0 Ht. exists w0, []. by rewrite app_nil_r. }
  destruct (visible _ _ _) as [v|] eqn:Hv; [|by apply Hquiet].
  destruct (truthy (Some v)); [|by apply Hquiet].
  destruct v as [txt|t|o]; simpl; try by apply Hquiet.
  unfold getitem.
  destruct (o !! "remind_at") as [j|]; simpl; [|by apply Hquiet].
  destruct j as [|n|txt|d]; simpl; try by apply Hquiet.
  destruct (le d check) as [[|]|]; simpl; try by apply Hquiet.
  destruct (send_scheduled_reminder_api_down o
              {| redis := redis w; steps := S (steps w); trace := trace w |})
    as (w1 & -> & Hredis & Htrace).
  rewrite redis_delete_run. simpl in *.
  eexists _, [_; _]. split; [done|]. simpl.
  rewrite Htrace, <- app_assoc. split; [done|].
  repeat constructor; [apply not_telegram_notify|apply not_telegram_delete].
Qed.

Lemma reminder_keys_api_down check keys : ∀ w,
  ∃ w' new,
    for_each (process_reminder_key env check) keys w = (Ok tt, w')
    ∧ trace w' = trace w ++ new
    ∧ Forall (λ x, ¬ is_telegram x) new.
Proof.
  induction keys as [|key keys IH]; intros w; simpl.
  - exists w, []. by rewrite app_nil_r.
  - destruct (process_reminder_key_api_down check key w)
      as (w1 & new1 & Hrun1 & Htr1 & Hno1).
    destruct (IH w1) as (w' & new & Hrun & Htr & Hno).
    unfold mbind, M_bind. rewrite Hrun1, Hrun.
    exists w', (new1 ++ new). split; [done|].
    split; [by rewrite Htr, Htr1, app_assoc|]. by apply Forall_app.
Qed.

End ApiDown.

(** X16.  While the task API cannot be reached,
    [_process_scheduled_reminders] still deletes every reminder that is
    due, although nothing is posted to Telegram for it: the reminder is
    dropped, and no later run can deliver it. *)
Theorem due_reminder_dropped_when_api_down
    env command w key e reminder remind_at :
  (∀ n task_id user_id, task_api env n task_id user_id = None) →
  String.prefix "reminder:" key = true →
  redis w !! key = Some e →
  value e = RJson reminder →
  (∀ n, live (clock env n) e = true) →
  reminder !! "remind_at" = Some (JTime remind_at) →
  le remind_at (check_time command) = Some true →
  redis (run (_process_scheduled_reminders env command) w) !! key = None
  ∧ Notify (ScheduledReminder reminder)
      ∈ new_effects w (run (_process_scheduled_reminders env command) w)
  ∧ Forall (λ x, ¬ is_telegram x)
      (new_effects w (run (_process_scheduled_reminders env command) w)).
Proof.
  intros Hdown Hprefix He Hval Hlive Hat Hle.
  unfold run, _process_scheduled_reminders, try_except, scan_iter, mbind, M_bind,
    tick, get_redis. simpl.
  set (keys := filter _ _).
  set (w1 := {| redis := redis w; steps := S (steps w); trace := trace w |}).
  assert (NoDup keys) as Hnd.
  { apply NoDup_filter, (NoDup_fst_map_to_list (redis w)). }
  assert (key ∈ keys) as Hkey.
  { apply list_elem_of_filter. split.
    - split; [done|]. unfold visible. rewrite He, Hlive. eauto.
    - apply list_elem_of_fmap. exists (key, e). split; [done|].
      by apply elem_of_map_to_list. }
  destruct (reminder_keys_run env (check_time command) keys w1 Hnd)
    as (w' & new & Hrun & Htrace & _ & _ & _ & Hmain).
  destruct (reminder_keys_api_down env Hdown (check_time command) keys w1)
    as (w'' & new' & Hrun' & Htrace' & Hno).
  rewrite Hrun in Hrun'. injection Hrun' as <-.
  rewrite Htrace in Htrace'. apply app_inv_head in Htrace' as <-.
  rewrite Hrun. simpl.
  rewrite (new_effects_app w w' new Htrace).
  destruct (Hmain key e reminder remind_at Hkey He Hlive Hval Hat) as [Hdue _].
  destruct (Hdue Hle) as (Hnone & pre & post & -> & _).
  split; [done|]. split; [|done].
  apply elem_of_app. right. apply elem_of_cons. by left.
Qed.

Lemma due_reminder_dropped_when_api_down_witness :
  redis (run (_process_scheduled_reminders broker_down_once check_at_20)
           with_reminders) !! "reminder:7:early" = None
  ∧ Notify (ScheduledReminder (reminder_at 10))
      ∈ new_effects with_reminders
          (run (_process_scheduled_reminders broker_down_once check_at_20)
             with_reminders)
  ∧ Forall (λ x, ¬ is_telegram x)
      (new_effects with_reminders
         (run (_process_scheduled_reminders broker_down_once check_at_20)
            with_reminders)).
Proof.
  apply (due_reminder_dropped_when_api_down broker_down_once check_at_20
           with_reminders "reminder:7:early"
           {| value := RJson (reminder_at 10); expires_at := None |}
           (reminder_at 10) (naive (minutes 10))
           (λ _ _ _, eq_refl) eq_refl eq_refl eq_refl (λ _, eq_refl) eq_refl
           eq_refl).
Defined.

(** **** _check_due_soon_tasks *)

Lemma validate_all_run items w :
  validate_all items w
  = (match mapM (λ x : option TaskResponse, x) items with
     | Some tasks => Ok tasks
     | None => Raised ValueError
     end, w).
Proof.
  induction items as [|[task|] items IH]; simpl; try done.
  unfold mbind, M_bind. rewrite IH.
  by destruct (mapM _ items).
Qed.

Lemma for_each_due_soon_returns env tasks : ∀ w,
  for_each (_process_due_soon_task env) tasks w
  = (Ok tt, run (for_each (_process_due_soon_task env) tasks) w).
Proof.
  induction tasks as [|t tasks IH]; intros w; simpl; [done|].
  unfold run, mbind, M_bind.
  destruct (process_due_soon_task_run env t w) as (w1 & -> & _). apply IH.
Qed.

(** X17.  [_check_due_soon_tasks] always returns.  It asks the task API for
    the tasks due between the current time and DUE_SOON_MINUTES later, and
    processes the listed tasks, in order, only when the reply has status
    200 and every listed item validates as a task.  On a transport error,
    another status, an undecodable body, or a single invalid item among
    the listed ones, it processes none of them: Redis and the trace are
    left as they were. *)
Theorem check_due_soon_all_or_nothing env feeds w :
  let now := naive (clock env (steps w)) in
  let reply :=
    due_soon_api feeds (S (steps w)) now (plus_minutes now DUE_SOON_MINUTES) in
  let w' := run (_check_due_soon_tasks env feeds) w in
  _check_due_soon_tasks env feeds w = (Ok tt, w')
  ∧ match reply with
    | Some (200, Some items) =>
        match mapM (λ x : option TaskResponse, x) items with
        | Some tasks =>
            w' = run (for_each (_process_due_soon_task env) tasks)
                   {| redis := redis w; steps := S (S (steps w));
                      trace := trace w |}
        | None => redis w' = redis w ∧ trace w' = trace w
        end
    | _ => redis w' = redis w ∧ trace w' = trace w
    end.
Proof.
  intros now reply w'. subst w'. unfold run.
  destruct (check_due_soon_tasks_returns env feeds w) as (w' & Hrun).
  rewrite Hrun. simpl. split; [done|]. revert Hrun.
  unfold _check_due_soon_tasks, try_except, mbind, M_bind, utcnow, tick.
  simpl. fold now. fold reply.
  destruct reply as [[code body]|]; simpl; [|by intros [= <-]].
  destruct (Z.eqb_spec code 200) as [->|Hcode].
  2:{ intros [= <-].
      destruct code as [|p|p]; try done.
      repeat (destruct p as [p|p|]; try done). }
  destruct body as [items|]; simpl; [|by intros [= <-]].
  rewrite validate_all_run.
  destruct (mapM _ items) as [tasks|]; simpl; [|by intros [= <-]].
  rewrite for_each_due_soon_returns. by intros [= <-].
Qed.

(** **** The text of a due-soon message *)

(** X18.  Whatever [_process_due_soon_task] posts to Telegram is the
    due-soon message of its task, and the time it states is
    "<m> minutes" for some m in 1..59 or "1h": the "<h>h <m>m" form of
    [_send_due_soon_notification] is never produced from here. *)
Theorem due_soon_message_time env task w :
  Forall (λ x,
            ∀ telegram_id msg sent_at,
              x = Telegram telegram_id msg sent_at →
              ∃ m, 0 < m <= 60
                   ∧ msg = DueSoonMessage task
                             (if m <? 60 then pretty m +:+ " minutes" else "1h"))
    (new_effects w (run (_process_due_soon_task env task) w)).
Proof.
  unfold run.
  destruct (process_due_soon_task_run env task w) as (w' & -> & _ & Hcases).
  simpl.
  destruct Hcases as [[_ ->]|[(_ & _ & Hredis & Htrace)|(_ & Hsent)]].
  - rewrite (new_effects_app _ _ []); [done|by rewrite app_nil_r].
  - rewrite (new_effects_app _ _ []); [done|by rewrite app_nil_r].
  - destruct Hsent as (d & m & acc & posts & n & _ & _ & Hwin & Htrace & Hposts
                       & _).
    rewrite (new_effects_app _ _ _ Htrace).
    apply Forall_app. split; [by repeat constructor|].
    apply Forall_app. split; [|by repeat constructor].
    destruct Hposts as [->|(tid & k & ->)]; [done|].
    repeat constructor. intros telegram_id msg sent_at [= _ <- _].
    exists m. unfold DUE_SOON_MINUTES in Hwin. split; [lia|]. f_equal.
    unfold due_soon_time_str.
    destruct (Z.ltb_spec m 60) as [Hlt|Hge]; [done|].
    assert (m = 60) as -> by lia. reflexivity.
Qed.

End ReminderEdgeFacts.

Module ReminderSpacingFacts.
Import Reminder ReminderLoops ReminderSpacing ReminderFacts ReminderLoopFacts.

Section Spacing.

Variable env : Env.
Hypothesis clock_monotone : monotone env.

Lemma spaced_without_posts new :
  Forall (λ e, overdue_post e = None) new → spaced new.
Proof.
  intros Hnew i j e1 e2 tk t1 t2 _ Hi _ H1 _.
  apply list_elem_of_lookup_2 in Hi. rewrite Forall_forall in Hnew.
  rewrite (Hnew e1 Hi) in H1. done.
Qed.

Lemma harmless_keeps_spacing {A} (m : M A) : harmless m → keeps_spacing env m.
Proof.
  intros Hm w Hspaced Hcov.
  destruct (Hm w) as (o & w' & new & Hrun & Htrace & Hnew & Hredis & Hsteps).
  exists o, w'. split; [done|]. rewrite Forall_forall in Hnew. split.
  - rewrite Htrace. apply spaced_app; [done|by apply spaced_without_posts;
      apply Forall_forall|].
    intros e1 e2 tk t1 t2 _ H2 _ Hp. by rewrite (Hnew e2 H2) in Hp.
  - intros e tk sent_at Hin Hp. rewrite Htrace in Hin.
    apply elem_of_app in Hin as [Hin|Hin]; [|by rewrite (Hnew e Hin) in Hp].
    destruct (Hcov e tk sent_at Hin Hp) as (Hle & s & x & Hkey & Hs & Hx).
    split.
    + pose proof (monotone_le env (steps w) (steps w') clock_monotone Hsteps).
      lia.
    + exists s, x. by rewrite Hredis.
Qed.

Lemma keeps_spacing_bind {A B} (m : M A) (f : A → M B) :
  keeps_spacing env m → (∀ a, keeps_spacing env (f a)) →
  keeps_spacing env (m ≫= f).
Proof.
  intros Hm Hf w Hs Hc. destruct (Hm w Hs Hc) as (o & w1 & Hrun & Hs1 & Hc1).
  unfold mbind, M_bind. rewrite Hrun. destruct o as [a|e].
  - apply Hf; done.
  - by exists (Raised e), w1.
Qed.

Lemma keeps_spacing_try {A} (m h : M A) :
  keeps_spacing env m → keeps_spacing env h →
  keeps_spacing env (try_except m h).
Proof.
  intros Hm Hh w Hs Hc. destruct (Hm w Hs Hc) as (o & w1 & Hrun & Hs1 & Hc1).
  unfold try_except. rewrite Hrun. destruct o as [a|e].
  - by exists (Ok a), w1.
  - apply Hh; done.
Qed.

Lemma keeps_spacing_for_each {A} (body : A → M unit) l :
  (∀ x, keeps_spacing env (body x)) → keeps_spacing env (for_each body l).
Proof.
  intros Hbody. induction l as [|x l IH]; simpl.
  - intros w Hs Hc. by exists (Ok tt), w.
  - apply keeps_spacing_bind; [apply Hbody|]. by intros _.
Qed.

Lemma harmless_ret {A} (a : A) : harmless (mret a : M A).
Proof. intros w. exists (Ok a), w, []. by rewrite app_nil_r. Qed.

Lemma harmless_raise {A} e : harmless (raise e : M A).
Proof. intros w. exists (Raised e), w, []. by rewrite app_nil_r. Qed.

Lemma harmless_or_raise {A} (o : option A) e : harmless (or_raise o e : M A).
Proof. destruct o; [apply harmless_ret|apply harmless_raise]. Qed.

Lemma harmless_tick : harmless tick.
Proof.
  intros w. eexists _, _, []. simpl. rewrite app_nil_r.
  split; [done|]. split; [done|]. split; [done|]. split; [done|]. simpl; lia.
Qed.

Lemma harmless_utcnow : harmless (utcnow env).
Proof.
  intros w. eexists _, _, []. rewrite utcnow_run. simpl. rewrite app_nil_r.
  split; [done|]. split; [done|]. split; [done|]. split; [done|]. simpl; lia.
Qed.

Lemma harmless_sleep secs : harmless (sleep secs).
Proof.
  intros w. eexists _, _, [_]. unfold sleep, mbind, M_bind, tick, emit. simpl.
  split; [done|]. split; [done|]. split; [by repeat constructor|].
  split; [done|]. simpl; lia.
Qed.

Lemma harmless_validate_all items : harmless (validate_all items).
Proof.
  induction items as [|[task|] items IH]; simpl;
    [apply harmless_ret| |apply harmless_raise].
  intros w. destruct (IH w) as (o & w' & new & Hrun & Htr & Hnew & Hr & Hst).
  unfold mbind, M_bind. rewrite Hrun. destruct o; by eexists _, _, new.
Qed.

Lemma due_soon_key_not_overdue task (tid : Z) :
  due_soon_key task ≠ "overdue_sent:" +:+ pretty tid.
Proof. unfold due_soon_key. simpl. discriminate. Qed.

Lemma harmless_process_due_soon_task task :
  harmless (_process_due_soon_task env task).
Proof.
  intros w.
  destruct (process_due_soon_task_run env task w) as (w' & Hrun & Hsteps & Hcases).
  exists (Ok tt), w'.
  destruct Hcases as [[_ ->]|[(_ & _ & Hredis & Htrace)|(_ & Hsent)]].
  - exists []. simpl. rewrite app_nil_r.
    split; [done|]. split; [done|]. split; [done|]. split; [done|]. simpl; lia.
  - exists []. rewrite app_nil_r, Hredis.
    split; [done|]. split; [done|]. split; [done|]. split; [done|]. simpl; lia.
  - destruct Hsent as (d & m & acc & posts & n & _ & _ & _ & Htrace & Hposts
                       & _ & Hredis).
    eexists. split; [done|]. split; [exact Htrace|]. split; [|split; [|lia]].
    + apply Forall_app. split; [by repeat constructor|].
      apply Forall_app. split; [|by repeat constructor].
      destruct Hposts as [->|(tid & k & ->)]; by repeat constructor.
    + intros tid. rewrite Hredis, lookup_insert_ne; [done|].
      apply due_soon_key_not_overdue.
Qed.

Variable feeds : Feeds.

Lemma check_due_soon_tasks_spacing :
  keeps_spacing env (_check_due_soon_tasks env feeds).
Proof.
  unfold _check_due_soon_tasks.
  apply keeps_spacing_try; [|apply harmless_keeps_spacing, harmless_ret].
  apply keeps_spacing_bind; [apply harmless_keeps_spacing, harmless_utcnow|].
  intros now.
  apply keeps_spacing_bind; [apply harmless_keeps_spacing, harmless_tick|].
  intros n.
  apply keeps_spacing_bind; [apply harmless_keeps_spacing, harmless_or_raise|].
  intros response.
  destruct (fst response =? 200); [|apply harmless_keeps_spacing, harmless_ret].
  apply keeps_spacing_bind; [apply harmless_keeps_spacing, harmless_or_raise|].
  intros items.
  apply keeps_spacing_bind;
    [apply harmless_keeps_spacing, harmless_validate_all|].
  intros tasks. apply keeps_spacing_for_each. intros task.
  apply harmless_keeps_spacing, harmless_process_due_soon_task.
Qed.

Lemma check_overdue_tasks_spacing :
  keeps_spacing env (_check_overdue_tasks env feeds).
Proof.
  unfold _check_overdue_tasks.
  apply keeps_spacing_try; [|apply harmless_keeps_spacing, harmless_ret].
  apply keeps_spacing_bind; [apply harmless_keeps_spacing, harmless_utcnow|].
  intros now.
  apply keeps_spacing_bind; [apply harmless_keeps_spacing, harmless_tick|].
  intros n.
  apply keeps_spacing_bind; [apply harmless_keeps_spacing, harmless_or_raise|].
  intros response.
  destruct (fst response =? 200); [|apply harmless_keeps_spacing, harmless_ret].
  apply keeps_spacing_bind; [apply harmless_keeps_spacing, harmless_or_raise|].
  intros items.
  apply keeps_spacing_bind;
    [apply harmless_keeps_spacing, harmless_validate_all|].
  intros tasks. apply keeps_spacing_for_each. intros task w Hs Hc.
  destruct (process_overdue_task_keeps env task w clock_monotone Hs Hc)
    as (w' & Hrun & ?). by exists (Ok tt), w'.
Qed.

Lemma periodic_reminder_check_spacing rounds :
  keeps_spacing env (_periodic_reminder_check env feeds rounds).
Proof.
  induction rounds as [|rounds IH]; simpl.
  - apply harmless_keeps_spacing, harmless_ret.
  - apply keeps_spacing_bind; [|done].
    apply keeps_spacing_try; [|apply harmless_keeps_spacing, harmless_sleep].
    apply keeps_spacing_bind; [apply check_due_soon_tasks_spacing|]. intros _.
    apply keeps_spacing_bind; [apply check_overdue_tasks_spacing|]. intros _.
    apply harmless_keeps_spacing, harmless_sleep.
Qed.

End Spacing.

(** X21.  Over any number of rounds of [_periodic_reminder_check], started
    with an empty trace on a clock that never goes back, two overdue
    messages posted to Telegram for the same task are at least six hours
    apart, whatever the task API lists and however often. *)
Theorem overdue_messages_spaced_in_loop env feeds rounds w :
  monotone env →
  trace w = [] →
  spaced (trace (run (_periodic_reminder_check env feeds rounds) w)).
Proof.
  intros Hmono Hempty. unfold run.
  destruct (periodic_reminder_check_spacing env Hmono feeds rounds w)
    as (o & w' & -> & Hspaced & _).
  - rewrite Hempty. intros i j e1 e2 tk t1 t2 _ Hi. done.
  - intros e tk sent_at Hin. rewrite Hempty in Hin. by apply elem_of_nil in Hin.
  - done.
Qed.

Lemma overdue_messages_spaced_in_loop_witness :
  length (omap overdue_post
            (trace (run (_periodic_reminder_check broker_down_once late_twice 2)
                      idle))) = 1%nat
  ∧ spaced (trace (run (_periodic_reminder_check broker_down_once late_twice 2)
                     idle)).
Proof.
  split; [by vm_compute|].
  apply (overdue_messages_spaced_in_loop broker_down_once late_twice 2 idle
           monotone_broker_down_once eq_refl).
Defined.

End ReminderSpacingFacts.

Module AnalyticsEdgeFacts.
Import Analytics AnalyticsFacts.

Lemma calculate_raises_iff user_id activities start_date end_date :
  (∃ e, _calculate_productivity_stats user_id activities start_date end_date
        = Raised e)
  ↔ ¬ Forall comparable (completion_pairs activities).
Proof.
  unfold _calculate_productivity_stats. split.
  - intros [e He] Hcmp.
    destruct (scan_groups_ok (group_by_task activities) tally0) as (t & Ht & _).
    { by rewrite pairs_of_groups_group_by_task. }
    by rewrite Ht in He.
  - intros Hnot.
    destruct (scan_groups _ _) as [t|e] eqn:Ht; [|by exists e].
    destruct Hnot. rewrite <- pairs_of_groups_group_by_task.
    by eapply scan_groups_comparable.
Qed.

(** X22.  [_generate_analytics_for_user] always returns.  When the
    statistics cannot be computed - some completion and the creation it is
    matched with cannot be subtracted, one timestamp being aware and the
    other naive - it stores and caches nothing, however many activities
    there are. *)
Theorem analytics_skipped_on_mixed_timestamps env user_id period_days w :
  let end_date := naive (clock env (steps w)) in
  let start_date :=
    {| wall := wall end_date - hours (24 * period_days); tzinfo := None |} in
  let activities := activities_of env (S (steps w)) user_id start_date end_date in
  let w' := run (_generate_analytics_for_user env user_id period_days) w in
  _generate_analytics_for_user env user_id period_days w = (Ok tt, w')
  ∧ (¬ Forall comparable (completion_pairs activities) →
     trace w' = trace w ∧ redis w' = redis w).
Proof.
  intros end_date start_date activities w'. subst w'. unfold run.
  unfold _generate_analytics_for_user, try_except, utcnow,
    _get_user_activities, mbind, M_bind, tick, mret, M_ret, pass.
  simpl. fold end_date. change (activities_of env _ _ _ _) with activities.
  destruct (Z.of_nat (length activities) <? MIN_TASKS_FOR_ANALYSIS); [done|].
  change {| wall := _; tzinfo := None |} with start_date.
  destruct (_calculate_productivity_stats user_id activities start_date end_date)
    as [stats|e] eqn:Hstats.
  - rewrite store_productivity_stats_run, cache_user_stats_run. simpl.
    split; [done|]. intros Hnot.
    apply (calculate_raises_iff user_id activities start_date end_date) in Hnot
      as [e He].
    rewrite Hstats in He. done.
  - done.
Qed.

End AnalyticsEdgeFacts.
